(** * A DDPM notebook (annotated_diffusion.ipynb): schedule, forward noising,
      reverse sampling, loss selection and the U-Net's shapes

    The notebook computes on float32 tensors.  Here tensor entries are real
    numbers ([R]): rounding, NaN and infinities are not modelled.  Python
    integers are [Z] (or [nat] where the code only counts), Python exceptions
    are a result type, and draws of [torch.randn] are read off a tape. *)

From Stdlib Require Import Reals Lra Lia List Arith ZArith Bool String.
Import ListNotations.

Open Scope R_scope.

(* ================================================================== *)
(** ** Exceptions *)

(** The one exception the notebook raises itself ([NotImplementedError] in
    [p_losses]) and the ones the Python and tensor runtimes raise in the
    modelled code. *)
Inductive exn : Type :=
| NotImplementedError
| StopIteration
| ZeroDivisionError
| ValueError
| RuntimeError.

Inductive res (A : Type) : Type :=
| Ok (a : A)
| Raise (e : exn).

Arguments Ok {A} a.
Arguments Raise {A} e.

Definition res_bind {A B} (r : res A) (k : A -> res B) : res B :=
  match r with
  | Ok a => k a
  | Raise e => Raise e
  end.

(* ================================================================== *)
(** ** One-dimensional tensors: the schedule vectors *)

Module Vec.

(** Elementwise binary operation on two vectors.  It stops at the shorter
    one; the schedule applies it to vectors of one length, and to an empty
    vector against a one-element vector (zero timesteps), where broadcasting
    gives the empty vector as well. *)
Fixpoint map2 {A B C} (f : A -> B -> C) (xs : list A) (ys : list B) : list C :=
  match xs, ys with
  | x :: xs', y :: ys' => f x y :: map2 f xs' ys'
  | _, _ => []
  end.

(** [torch.linspace(start, end, steps)]: [steps] values, the first [start],
    consecutive ones (end - start)/(steps - 1) apart. *)
Definition linspace (start stop : R) (steps : nat) : list R :=
  match steps with
  | O => []
  | S O => [start]
  | S (S _) =>
      let step := (stop - start) / INR (steps - 1) in
      map (fun i => start + INR i * step) (seq 0 steps)
  end.

(** [torch.cumprod(v, dim=0)]: running products, left to right. *)
Fixpoint cumprod_from (acc : R) (v : list R) : list R :=
  match v with
  | [] => []
  | x :: v' => acc * x :: cumprod_from (acc * x) v'
  end.

Definition cumprod (v : list R) : list R :=
  match v with
  | [] => []
  | x :: v' => x :: cumprod_from x v'
  end.

(** Product of the entries of a vector (used to state what [cumprod] is). *)
Definition prod (v : list R) : R := fold_right Rmult 1 v.

(** The slice [v[:-1]]. *)
Definition drop_last (v : list R) : list R := removelast v.

(** [F.pad(v, (left, 0), value=x)]. *)
Definition pad_left (left : nat) (x : R) (v : list R) : list R :=
  repeat x left ++ v.

End Vec.

(** *** The schedule (cells 14 to 16) *)

Definition beta_start : R := 0.0001.
Definition beta_end : R := 0.02.

Definition linear_beta_schedule (timesteps : nat) : list R :=
  Vec.linspace beta_start beta_end timesteps.

Section Schedule.

Variable timesteps : nat.

Definition betas : list R := linear_beta_schedule timesteps.

Definition alphas : list R := map (fun b => 1 - b) betas.

Definition alphas_cumprod : list R := Vec.cumprod alphas.

Definition alphas_cumprod_prev : list R :=
  Vec.pad_left 1 1 (Vec.drop_last alphas_cumprod).

Definition sqrt_recip_alphas : list R := map (fun a => sqrt (1 / a)) alphas.

Definition sqrt_alphas_cumprod : list R := map sqrt alphas_cumprod.

Definition sqrt_one_minus_alphas_cumprod : list R :=
  map (fun a => sqrt (1 - a)) alphas_cumprod.

Definition posterior_variance : list R :=
  Vec.map2 Rdiv
    (Vec.map2 Rmult betas (map (fun a => 1 - a) alphas_cumprod_prev))
    (map (fun a => 1 - a) alphas_cumprod).

End Schedule.

(* ================================================================== *)
(** ** [num_to_groups] (cell 25) *)

(** Python's [//] and [%] on integers are floor division and the remainder
    with the divisor's sign, as [Z.div] and [Z.modulo] are; both raise on a
    zero divisor.  [[divisor] * groups] is empty for a negative count. *)
Definition num_to_groups (num divisor : Z) : res (list Z) :=
  if (divisor =? 0)%Z then Raise ZeroDivisionError
  else
    let groups := (num / divisor)%Z in
    let remainder := (num mod divisor)%Z in
    let arr := repeat divisor (Z.to_nat groups) in
    if (0 <? remainder)%Z then Ok (arr ++ [remainder]) else Ok arr.

(* ================================================================== *)
(** ** Image tensors: shape (batch, channel, height, width) and entries *)

Record shape4 : Type := Shape4 { sb : nat; sc : nat; sh : nat; sw : nat }.

Definition numel (s : shape4) : nat := (sb s * sc s * sh s * sw s)%nat.

(** Broadcasting of one dimension: equal sizes, or one of them is 1. *)
Definition bdim (m n : nat) : res nat :=
  if (m =? n)%nat then Ok m
  else if (m =? 1)%nat then Ok n
  else if (n =? 1)%nat then Ok m
  else Raise RuntimeError.

Definition bshape (s1 s2 : shape4) : res shape4 :=
  res_bind (bdim (sb s1) (sb s2)) (fun b =>
  res_bind (bdim (sc s1) (sc s2)) (fun c =>
  res_bind (bdim (sh s1) (sh s2)) (fun h =>
  res_bind (bdim (sw s1) (sw s2)) (fun w =>
  Ok (Shape4 b c h w))))).

(** The index read in an operand along a dimension of size [d]: a dimension
    of size 1 is repeated. *)
Definition bidx (d i : nat) : nat := if (d =? 1)%nat then O else i.

Record tensor : Type := Tensor {
  dims : shape4;
  val : nat -> nat -> nat -> nat -> R
}.

(** Two tensors are the same when their shapes agree and their entries agree
    at every index inside the shape. *)
Definition tensor_eq (x y : tensor) : Prop :=
  dims x = dims y /\
  forall i j r k,
    (i < sb (dims x))%nat -> (j < sc (dims x))%nat ->
    (r < sh (dims x))%nat -> (k < sw (dims x))%nat ->
    val x i j r k = val y i j r k.

(** Elementwise binary operation of two tensors, with broadcasting. *)
Definition bop (f : R -> R -> R) (x y : tensor) : res tensor :=
  res_bind (bshape (dims x) (dims y)) (fun s =>
  Ok (Tensor s (fun i j r k =>
        f (val x (bidx (sb (dims x)) i) (bidx (sc (dims x)) j)
                 (bidx (sh (dims x)) r) (bidx (sw (dims x)) k))
          (val y (bidx (sb (dims y)) i) (bidx (sc (dims y)) j)
                 (bidx (sh (dims y)) r) (bidx (sw (dims y)) k))))).

(** Elementwise unary operation ([torch.sqrt]). *)
Definition tmap (f : R -> R) (x : tensor) : tensor :=
  Tensor (dims x) (fun i j r k => f (val x i j r k)).

Definition zeros_like (x : tensor) : tensor :=
  Tensor (dims x) (fun _ _ _ _ => 0).

(** Multiplication of every entry by a number. *)
Definition scale (a : R) (x : tensor) : tensor := tmap (Rmult a) x.

(** Sum and mean of all entries (the reduction of the loss functions). *)
Definition sum_upto (n : nat) (f : nat -> R) : R :=
  fold_right (fun i acc => f i + acc) 0 (seq 0 n).

Definition tsum (x : tensor) : R :=
  sum_upto (sb (dims x)) (fun i =>
  sum_upto (sc (dims x)) (fun j =>
  sum_upto (sh (dims x)) (fun r =>
  sum_upto (sw (dims x)) (fun k => val x i j r k)))).

Definition tmean (x : tensor) : R := tsum x / INR (numel (dims x)).

(** *** [extract] (cell 16) *)

(** [a.gather(-1, t)] on a vector [a]: the entries of [a] at the indices in
    [t]; an index outside [0, len a) is an error of the runtime. *)
Fixpoint gather (a : list R) (t : list Z) : res (list R) :=
  match t with
  | [] => Ok []
  | i :: t' =>
      if (i <? 0)%Z then Raise RuntimeError
      else match nth_error a (Z.to_nat i) with
           | None => Raise RuntimeError
           | Some v => res_bind (gather a t') (fun out => Ok (v :: out))
           end
  end.

(** The result has shape (len t, 1, 1, 1): one coefficient per batch entry.
    [x_shape] only gives the number of trailing dimensions of size 1, which
    is three for every image tensor. *)
Definition extract (a : list R) (t : list Z) (x_shape : shape4) : res tensor :=
  let batch_size := List.length t in
  res_bind (gather a t) (fun out =>
  Ok (Tensor (Shape4 batch_size 1 1 1) (fun i _ _ _ => nth i out 0))).

(* ================================================================== *)
(** ** Models, random draws and the sampling monad *)

Inductive device : Type := Cpu | Mps | Cuda.

(** A denoising model as the sampling and loss code uses it: the devices of
    its parameters ([model.parameters()]) and its forward function, which
    returns a tensor or raises an exception of its own. *)
Record NNModule : Type := {
  parameters : list device;
  forward : tensor -> list Z -> res tensor
}.

(** A numpy array obtained from a tensor by [.cpu().numpy()]: same shape and
    entries, another type. *)
Record ndarray : Type := NdArray { np_tensor : tensor }.

Definition cpu_numpy (x : tensor) : ndarray := NdArray x.

(** The place on the tape of entry (i, j, r, k) of a tensor of shape [s]
    drawn from position [pos]: the entries are drawn in row-major order. *)
Definition draw_at (s : shape4) (pos i j r k : nat) : nat :=
  (pos + ((i * sc s + j) * sh s + r) * sw s + k)%nat.

Section Sampling.

(** The draws of the standard normal generator, in the order the generator
    hands them out.  A computation reads the tape from a position and
    returns the position after its last draw. *)
Variable noise_tape : nat -> R.

Definition M (A : Type) : Type := nat -> res (A * nat).

Definition ret {A} (a : A) : M A := fun pos => Ok (a, pos).

Definition bind {A B} (m : M A) (k : A -> M B) : M B :=
  fun pos =>
    match m pos with
    | Ok (a, pos') => k a pos'
    | Raise e => Raise e
    end.

Definition lift {A} (r : res A) : M A :=
  fun pos =>
    match r with
    | Ok a => Ok (a, pos)
    | Raise e => Raise e
    end.

Definition raise {A} (e : exn) : M A := fun _ => Raise e.

Notation "x <- m ;; k" := (bind m (fun x => k))
  (at level 61, m at next level, right associativity).

(** [torch.randn(shape)]: the next [numel shape] draws, in row-major
    order. *)
Definition randn (shape : shape4) : M tensor :=
  fun pos =>
    Ok (Tensor shape (fun i j r k => noise_tape (draw_at shape pos i j r k)),
        (pos + numel shape)%nat).

Definition randn_like (x : tensor) : M tensor := randn (dims x).

(** [model(x, t)]: what the model raises, the caller raises. *)
Definition call (model : NNModule) (x : tensor) (t : list Z) : M tensor :=
  lift (forward model x t).

Variable timesteps : nat.

(** *** [q_sample] (cell 27) *)
Definition q_sample (x_start : tensor) (t : list Z) (noise : option tensor)
  : M tensor :=
  noise <- match noise with
           | None => randn_like x_start
           | Some n => ret n
           end ;;
  sqrt_alphas_cumprod_t <-
    lift (extract (sqrt_alphas_cumprod timesteps) t (dims x_start)) ;;
  sqrt_one_minus_alphas_cumprod_t <-
    lift (extract (sqrt_one_minus_alphas_cumprod timesteps) t (dims x_start)) ;;
  signal <- lift (bop Rmult sqrt_alphas_cumprod_t x_start) ;;
  noisy <- lift (bop Rmult sqrt_one_minus_alphas_cumprod_t noise) ;;
  lift (bop Rplus signal noisy).

(** *** [p_sample] and [p_sample_loop] (cell 23) *)
Definition p_sample (model : NNModule) (x : tensor) (t : list Z) (t_index : Z)
  : M tensor :=
  betas_t <- lift (extract (betas timesteps) t (dims x)) ;;
  sqrt_one_minus_alphas_cumprod_t <-
    lift (extract (sqrt_one_minus_alphas_cumprod timesteps) t (dims x)) ;;
  sqrt_recip_alphas_t <-
    lift (extract (sqrt_recip_alphas timesteps) t (dims x)) ;;
  predicted <- call model x t ;;
  scaled <- lift (bop Rmult betas_t predicted) ;;
  ratio <- lift (bop Rdiv scaled sqrt_one_minus_alphas_cumprod_t) ;;
  diff <- lift (bop Rminus x ratio) ;;
  model_mean <- lift (bop Rmult sqrt_recip_alphas_t diff) ;;
  if (t_index =? 0)%Z then ret model_mean
  else
    posterior_variance_t <-
      lift (extract (posterior_variance timesteps) t (dims x)) ;;
    noise <- randn_like x ;;
    spread <- lift (bop Rmult (tmap sqrt posterior_variance_t) noise) ;;
    lift (bop Rplus model_mean spread).

(** [torch.full((b,), i, dtype=torch.long)]. *)
Definition full (b : nat) (i : Z) : list Z := repeat i b.

(** The body of the [for] loop, run over the remaining values of [i]; the
    state is the current image and the list collected so far. *)
Fixpoint sampling_steps (model : NNModule) (b : nat) (steps : list nat)
    (img : tensor) (imgs : list ndarray) : M (list ndarray) :=
  match steps with
  | [] => ret imgs
  | i :: steps' =>
      img' <- p_sample model img (full b (Z.of_nat i)) (Z.of_nat i) ;;
      sampling_steps model b steps' img' (imgs ++ [cpu_numpy img'])
  end.

Definition p_sample_loop (model : NNModule) (shape : shape4)
  : M (list ndarray) :=
  _device <- match parameters model with
             | [] => raise StopIteration
             | d :: _ => ret d
             end ;;
  let b := sb shape in
  img <- randn shape ;;
  sampling_steps model b (rev (seq 0 timesteps)) img [].

Definition sample (model : NNModule) (image_size batch_size channels : nat)
  : M (list ndarray) :=
  p_sample_loop model (Shape4 batch_size channels image_size image_size).

(** *** Loss functions of the tensor library and [p_losses] (cell 27) *)

Definition reduce_mean (f : R -> R -> R) (input target : tensor) : res R :=
  res_bind (bop f input target) (fun d => Ok (tmean d)).

Definition l1_loss : tensor -> tensor -> res R :=
  reduce_mean (fun a b => Rabs (a - b)).

Definition mse_loss : tensor -> tensor -> res R :=
  reduce_mean (fun a b => (a - b) * (a - b)).

(** The entrywise Huber (smooth L1) loss with its default [beta = 1.0]:
    quadratic below the threshold, linear from it on. *)
Definition huber (a b : R) : R :=
  let z := Rabs (a - b) in
  if Rlt_dec z 1 then 0.5 * z * z / 1 else z - 0.5 * 1.

(** [F.smooth_l1_loss]. *)
Definition smooth_l1_loss : tensor -> tensor -> res R :=
  reduce_mean huber.

Definition p_losses (denoise_model : NNModule) (x_start : tensor)
    (t : list Z) (noise : option tensor) (loss_type : string) : M R :=
  noise <- match noise with
           | None => randn_like x_start
           | Some n => ret n
           end ;;
  x_noisy <- q_sample x_start t (Some noise) ;;
  predicted_noise <- call denoise_model x_noisy t ;;
  if String.eqb loss_type "l1"%string then lift (l1_loss predicted_noise noise)
  else if String.eqb loss_type "l2"%string then lift (mse_loss predicted_noise noise)
  else if String.eqb loss_type "huber"%string
       then lift (smooth_l1_loss predicted_noise noise)
  else raise NotImplementedError.

End Sampling.

(* ================================================================== *)
(** ** The U-Net at the level of shapes (cells 2 to 12)

    Every layer is described by the sizes its constructor receives, and its
    forward function by the shape it returns for the shape it is given, or
    the error with which the runtime rejects that shape.  The numbers the
    layers compute are not modelled.  Images are four-dimensional (batch,
    channel, height, width) and the time is a vector of timesteps, given by
    its length. *)

Notation "'let?' x ':=' r 'in' k" := (res_bind r (fun x => k))
  (at level 10, x name, r at level 100, k at level 200).
Notation "'let?' ' p ':=' r 'in' k" :=
  (res_bind r (fun v => match v with p => k end))
  (at level 10, p pattern, r at level 100, k at level 200).

Definition default {A} (x : option A) (d : A) : A :=
  match x with
  | Some v => v
  | None => d
  end.

(** Shape of a two-dimensional tensor (batch, features): time embeddings. *)
Record shape2 : Type := Shape2 { rows : nat; feats : nat }.

(** *** Layers of the tensor library *)

Record Conv2d : Type := {
  in_channels : nat;
  out_channels : nat;
  kernel_size : nat;
  padding : nat
}.

(** The convolution rejects a weight without output channels, an input
    with other channels than the weight's, and a kernel larger than the
    padded input. *)
Definition Conv2d_forward (m : Conv2d) (x : shape4) : res shape4 :=
  if (out_channels m =? 0)%nat then Raise RuntimeError
  else if negb (sc x =? in_channels m)%nat then Raise RuntimeError
  else if (sh x + 2 * padding m <? kernel_size m)%nat then Raise RuntimeError
  else if (sw x + 2 * padding m <? kernel_size m)%nat then Raise RuntimeError
  else Ok (Shape4 (sb x) (out_channels m)
             (sh x + 2 * padding m - kernel_size m + 1)
             (sw x + 2 * padding m - kernel_size m + 1)).

Record GroupNorm : Type := { num_groups : nat; num_channels : nat }.

(** The constructor rejects a channel count the groups do not divide. *)
Definition GroupNorm_init (groups channels : nat) : res GroupNorm :=
  if (groups =? 0)%nat then Raise ZeroDivisionError
  else if negb (channels mod groups =? 0)%nat then Raise ValueError
  else Ok {| num_groups := groups; num_channels := channels |}.

(** The forward pass first rejects an input with a single value per group,
    [(b * c // groups) * h * w = 1], then one with other channels than the
    layer's. *)
Definition GroupNorm_forward (m : GroupNorm) (x : shape4) : res shape4 :=
  if (sb x * sc x / num_groups m * sh x * sw x =? 1)%nat then Raise ValueError
  else if (sc x =? num_channels m)%nat then Ok x else Raise RuntimeError.

Record Linear : Type := { in_features : nat; out_features : nat }.

Definition Linear_forward (m : Linear) (x : shape2) : res shape2 :=
  if (feats x =? in_features m)%nat then Ok (Shape2 (rows x) (out_features m))
  else Raise RuntimeError.

(** [torch.cat((x, y), dim=1)]: every dimension but the channels agrees. *)
Definition cat1 (x y : shape4) : res shape4 :=
  if ((sb x =? sb y) && (sh x =? sh y) && (sw x =? sw y))%nat
  then Ok (Shape4 (sb x) (sc x + sc y) (sh x) (sw x))
  else Raise RuntimeError.

(** [Rearrange('b c (h p1) (w p2) -> b (c p1 p2) h w', p1=2, p2=2)]. *)
Definition Rearrange_space_to_depth (x : shape4) : res shape4 :=
  if ((sh x mod 2 =? 0) && (sw x mod 2 =? 0))%nat
  then Ok (Shape4 (sb x) (sc x * 2 * 2) (sh x / 2) (sw x / 2))
  else Raise RuntimeError.

(** [nn.Upsample(scale_factor=2, mode='nearest')]; it rejects an image
    without channels, rows or columns. *)
Definition nn_Upsample (x : shape4) : res shape4 :=
  if (sc x * sh x * sw x =? 0)%nat then Raise RuntimeError
  else Ok (Shape4 (sb x) (sc x) (2 * sh x) (2 * sw x)).

(** *** Helper layers (cell 2) *)

(** The last layer of a stage: [Downsample(dim, dim_out)],
    [Upsample(dim, dim_out)], or a plain convolution. *)
Inductive Resample : Type :=
| DownsampleSeq (conv : Conv2d)
| UpsampleSeq (conv : Conv2d)
| PlainConv (conv : Conv2d).

Definition Downsample (dim : nat) (dim_out : option nat) : Resample :=
  DownsampleSeq {| in_channels := dim * 4; out_channels := default dim_out dim;
                   kernel_size := 1; padding := 0 |}.

Definition Upsample (dim : nat) (dim_out : option nat) : Resample :=
  UpsampleSeq {| in_channels := dim; out_channels := default dim_out dim;
                 kernel_size := 3; padding := 1 |}.

Definition Resample_forward (m : Resample) (x : shape4) : res shape4 :=
  match m with
  | DownsampleSeq conv =>
      let? x := Rearrange_space_to_depth x in Conv2d_forward conv x
  | UpsampleSeq conv =>
      let? x := nn_Upsample x in Conv2d_forward conv x
  | PlainConv conv => Conv2d_forward conv x
  end.

(** *** Position embeddings (cell 4) *)

Record SinusoidalPositionEmbeddings : Type := { spe_dim : nat }.

(** [time] is a vector of [n] timesteps.  The division by [half_dim - 1]
    is Python's, which raises on zero. *)
Definition SinusoidalPositionEmbeddings_forward
    (m : SinusoidalPositionEmbeddings) (n : nat) : res shape2 :=
  let half_dim := (spe_dim m / 2)%nat in
  if (half_dim =? 1)%nat then Raise ZeroDivisionError
  else Ok (Shape2 n (half_dim + half_dim)).

(** *** ResNet block (cell 6) *)

Record Block : Type := { proj : Conv2d; norm : GroupNorm }.

Definition Block_init (dim dim_out groups : nat) : res Block :=
  let? n := GroupNorm_init groups dim_out in
  Ok {| proj := {| in_channels := dim; out_channels := dim_out;
                   kernel_size := 3; padding := 1 |};
        norm := n |}.

Definition Block_forward (m : Block) (x : shape4)
    (scale_shift : option (shape4 * shape4)) : res shape4 :=
  let? x := Conv2d_forward (proj m) x in
  let? x := GroupNorm_forward (norm m) x in
  match scale_shift with
  | Some (scale, shift) =>
      let? x := bshape x scale in
      bshape x shift
  | None => Ok x
  end.

Record ResnetBlock : Type := {
  mlp : option Linear;
  block1 : Block;
  block2 : Block;
  res_conv : option Conv2d          (* [None] is [nn.Identity()] *)
}.

Definition ResnetBlock_init (dim dim_out : nat) (time_emb_dim : option nat)
    (groups : nat) : res ResnetBlock :=
  let mlp := match time_emb_dim with
             | Some d => Some {| in_features := d; out_features := dim_out * 2 |}
             | None => None
             end in
  let? b1 := Block_init dim dim_out groups in
  let? b2 := Block_init dim_out dim_out groups in
  Ok {| mlp := mlp; block1 := b1; block2 := b2;
        res_conv := if (dim =? dim_out)%nat then None
                    else Some {| in_channels := dim; out_channels := dim_out;
                                 kernel_size := 1; padding := 0 |} |}.

Definition ResnetBlock_forward (m : ResnetBlock) (x : shape4)
    (time_emb : option shape2) : res shape4 :=
  let? scale_shift :=
    match mlp m, time_emb with
    | Some lin, Some te =>
        let? te := Linear_forward lin te in
        (* rearrange 'b c -> b c 1 1', then chunk(2, dim=1) *)
        let half := Shape4 (rows te) (feats te / 2) 1 1 in
        Ok (Some (half, half))
    | _, _ => Ok None
    end in
  let? h := Block_forward (block1 m) x scale_shift in
  let? h := Block_forward (block2 m) h None in
  let? x := match res_conv m with
            | Some conv => Conv2d_forward conv x
            | None => Ok x
            end in
  bshape x h.

(** *** Attention, PreNorm and Residual (cells 2, 8, 10) *)

Record Attention : Type := { heads : nat; to_qkv : Conv2d; to_out : Conv2d }.

Definition Attention_init (dim : nat) : Attention :=
  let heads := 4%nat in
  let dim_head := 32%nat in
  let hidden_dim := (dim_head * heads)%nat in
  {| heads := heads;
     to_qkv := {| in_channels := dim; out_channels := hidden_dim * 3;
                  kernel_size := 1; padding := 0 |};
     to_out := {| in_channels := hidden_dim; out_channels := dim;
                  kernel_size := 1; padding := 0 |} |}.

(** The three chunks of [to_qkv]'s output are attended over the positions
    and rearranged back to (b, heads * c, h, w), the shape of one chunk. *)
Definition Attention_forward (m : Attention) (x : shape4) : res shape4 :=
  let? qkv := Conv2d_forward (to_qkv m) x in
  let out := Shape4 (sb qkv) (sc qkv / 3) (sh x) (sw x) in
  Conv2d_forward (to_out m) out.

Record PreNorm : Type := { pn_fn : Attention; pn_norm : GroupNorm }.

Definition PreNorm_init (dim : nat) (fn : Attention) : res PreNorm :=
  let? n := GroupNorm_init 1 dim in
  Ok {| pn_fn := fn; pn_norm := n |}.

Definition PreNorm_forward (m : PreNorm) (x : shape4) : res shape4 :=
  let? x := GroupNorm_forward (pn_norm m) x in
  Attention_forward (pn_fn m) x.

Record Residual : Type := { fn : PreNorm }.

Definition Residual_forward (m : Residual) (x : shape4) : res shape4 :=
  let? y := PreNorm_forward (fn m) x in
  bshape y x.

Definition attention_layer (dim : nat) : res Residual :=
  let? p := PreNorm_init dim (Attention_init dim) in
  Ok {| fn := p |}.

(** *** Conditional U-Net (cell 12) *)

(** One stage of [downs] or [ups]: two ResNet blocks, attention, and the
    layer that changes the resolution or the channels. *)
Record Stage : Type := {
  st_block1 : ResnetBlock;
  st_block2 : ResnetBlock;
  st_attn : Residual;
  st_resample : Resample
}.

Record Unet : Type := {
  channels : nat;
  self_condition : bool;
  init_conv : Conv2d;
  time_pos : SinusoidalPositionEmbeddings;
  time_lin1 : Linear;
  time_lin2 : Linear;
  downs : list Stage;
  mid_block1 : ResnetBlock;
  mid_attn : Residual;
  mid_block2 : ResnetBlock;
  ups : list Stage;
  out_dim : nat;
  final_res_block : ResnetBlock;
  final_conv : Conv2d
}.

(** The arguments of [Unet.__init__]. *)
Record UnetArgs : Type := {
  a_dim : nat;
  a_init_dim : option nat;
  a_out_dim : option nat;
  a_dim_mults : list nat;
  a_channels : nat;
  a_self_condition : bool;
  a_resnet_block_groups : nat
}.

(** [list(zip(dims[:-1], dims[1:]))]. *)
Definition zip_consecutive (dims : list nat) : list (nat * nat) :=
  combine (removelast dims) (tl dims).

Fixpoint res_map {A B} (f : A -> res B) (l : list A) : res (list B) :=
  match l with
  | [] => Ok []
  | a :: l' =>
      let? b := f a in
      let? bs := res_map f l' in
      Ok (b :: bs)
  end.

(** [enumerate(l)]. *)
Definition enumerate {A} (l : list A) : list (nat * A) :=
  combine (seq 0 (List.length l)) l.

Definition conv3 (dim_in dim_out : nat) : Resample :=
  PlainConv {| in_channels := dim_in; out_channels := dim_out;
               kernel_size := 3; padding := 1 |}.

Definition Unet_init (a : UnetArgs) : res Unet :=
  let dim := a_dim a in
  let input_channels :=
    (a_channels a * (if a_self_condition a then 2 else 1))%nat in
  let init_dim := default (a_init_dim a) dim in
  let dims := init_dim :: map (fun m => dim * m)%nat (a_dim_mults a) in
  let in_out := zip_consecutive dims in
  let time_dim := (dim * 4)%nat in
  let block_klass := fun d_in d_out =>
    ResnetBlock_init d_in d_out (Some time_dim) (a_resnet_block_groups a) in
  let num_resolutions := List.length in_out in
  let? downs :=
    res_map (fun '(ind, (dim_in, dim_out)) =>
      let is_last := (num_resolutions - 1 <=? ind)%nat in
      let? b1 := block_klass dim_in dim_in in
      let? b2 := block_klass dim_in dim_in in
      let? at_ := attention_layer dim_in in
      Ok {| st_block1 := b1; st_block2 := b2; st_attn := at_;
            st_resample := if negb is_last then Downsample dim_in (Some dim_out)
                           else conv3 dim_in dim_out |})
      (enumerate in_out) in
  let mid_dim := last dims init_dim in
  let? mb1 := block_klass mid_dim mid_dim in
  let? mattn := attention_layer mid_dim in
  let? mb2 := block_klass mid_dim mid_dim in
  let? ups :=
    res_map (fun '(ind, (dim_in, dim_out)) =>
      let is_last := (ind =? List.length in_out - 1)%nat in
      let? b1 := block_klass (dim_out + dim_in)%nat dim_out in
      let? b2 := block_klass (dim_out + dim_in)%nat dim_out in
      let? at_ := attention_layer dim_out in
      Ok {| st_block1 := b1; st_block2 := b2; st_attn := at_;
            st_resample := if negb is_last then Upsample dim_out (Some dim_in)
                           else conv3 dim_out dim_in |})
      (enumerate (rev in_out)) in
  let out_dim := default (a_out_dim a) (a_channels a) in
  let? frb := block_klass (dim * 2)%nat dim in
  Ok {| channels := a_channels a;
        self_condition := a_self_condition a;
        init_conv := {| in_channels := input_channels; out_channels := init_dim;
                        kernel_size := 1; padding := 0 |};
        time_pos := {| spe_dim := dim |};
        time_lin1 := {| in_features := dim; out_features := time_dim |};
        time_lin2 := {| in_features := time_dim; out_features := time_dim |};
        downs := downs;
        mid_block1 := mb1; mid_attn := mattn; mid_block2 := mb2;
        ups := ups;
        out_dim := out_dim;
        final_res_block := frb;
        final_conv := {| in_channels := dim; out_channels := out_dim;
                         kernel_size := 1; padding := 0 |} |}.

Definition time_mlp (u : Unet) (n : nat) : res shape2 :=
  let? t := SinusoidalPositionEmbeddings_forward (time_pos u) n in
  let? t := Linear_forward (time_lin1 u) t in
  Linear_forward (time_lin2 u) t.

(** The first loop of [forward].  [h] is the list of skip connections, the
    most recently appended first. *)
Fixpoint down_path (stages : list Stage) (t : shape2) (x : shape4)
    (h : list shape4) : res (shape4 * list shape4) :=
  match stages with
  | [] => Ok (x, h)
  | s :: stages' =>
      let? x := ResnetBlock_forward (st_block1 s) x (Some t) in
      let h := x :: h in
      let? x := ResnetBlock_forward (st_block2 s) x (Some t) in
      let? x := Residual_forward (st_attn s) x in
      let h := x :: h in
      let? x := Resample_forward (st_resample s) x in
      down_path stages' t x h
  end.

(** [h.pop()]; popping an empty list is an error of the runtime. *)
Definition pop (h : list shape4) : res (shape4 * list shape4) :=
  match h with
  | [] => Raise RuntimeError
  | x :: h' => Ok (x, h')
  end.

(** The second loop of [forward]. *)
Fixpoint up_path (stages : list Stage) (t : shape2) (x : shape4)
    (h : list shape4) : res shape4 :=
  match stages with
  | [] => Ok x
  | s :: stages' =>
      let? '(skip, h) := pop h in
      let? x := cat1 x skip in
      let? x := ResnetBlock_forward (st_block1 s) x (Some t) in
      let? '(skip, h) := pop h in
      let? x := cat1 x skip in
      let? x := ResnetBlock_forward (st_block2 s) x (Some t) in
      let? x := Residual_forward (st_attn s) x in
      let? x := Resample_forward (st_resample s) x in
      up_path stages' t x h
  end.

(** [Unet.forward(x, time, x_self_cond)] on the shape of the image [x], the
    number [time] of timesteps and the shape of the self-conditioning image,
    if one is passed. *)
Definition Unet_forward (u : Unet) (x : shape4) (time : nat)
    (x_self_cond : option shape4) : res shape4 :=
  let? x := if self_condition u
            then let x_self_cond := default x_self_cond x in
                 cat1 x_self_cond x
            else Ok x in
  let? x := Conv2d_forward (init_conv u) x in
  let r := x in
  let? t := time_mlp u time in
  let? '(x, h) := down_path (downs u) t x [] in
  let? x := ResnetBlock_forward (mid_block1 u) x (Some t) in
  let? x := Residual_forward (mid_attn u) x in
  let? x := ResnetBlock_forward (mid_block2 u) x (Some t) in
  let? x := up_path (ups u) t x h in
  let? x := cat1 x r in
  let? x := ResnetBlock_forward (final_res_block u) x (Some t) in
  Conv2d_forward (final_conv u) x.

(* ================================================================== *)
(** ** The schedule in closed form, as the design document words it *)

(** The i-th of [timesteps] linearly spaced values from [beta_start] to
    [beta_end]. *)
Definition spec_beta (timesteps i : nat) : R :=
  beta_start + INR i * ((beta_end - beta_start) / INR (timesteps - 1)).

(** Alpha-bar: the product of (1 - beta) up to and including timestep [t]. *)
Definition spec_alpha_bar (timesteps t : nat) : R :=
  Vec.prod (map (fun j => 1 - spec_beta timesteps j) (seq 0 (S t))).

(** Numbers between 0 and 1, where every alpha of the schedule lies. *)
Definition unit_interval (a : R) : Prop := 0 <= a <= 1.

(* ================================================================== *)
(** ** Vocabulary of the statements *)

(** A vector of timesteps inside the schedule. *)
Definition timesteps_in_range (timesteps : nat) (t : list Z) : Prop :=
  Forall (fun i => 0 <= i < Z.of_nat timesteps)%Z t.

(** The coefficient read for batch entry [i]: the entry of [a] at the
    timestep of that batch entry. *)
Definition coef_at (a : list R) (t : list Z) (i : nat) : R :=
  nth (Z.to_nat (nth i t 0%Z)) a 0.

(** Alpha-bar for batch entry [i]: read at the timestep of that entry, or at
    the single timestep when [t] has one entry. *)
Definition alpha_bar_at (timesteps : nat) (t : list Z) (i : nat) : R :=
  coef_at (alphas_cumprod timesteps) t (bidx (List.length t) i).

(** A tensor holding one image of one pixel. *)
Definition single_image : tensor :=
  Tensor (Shape4 1 1 1 1) (fun _ _ _ _ => 1).

(** An index inside a shape. *)
Definition in_shape (s : shape4) (i j r k : nat) : Prop :=
  (i < sb s)%nat /\ (j < sc s)%nat /\ (r < sh s)%nat /\ (k < sw s)%nat.

(** The reverse process as a step relation: from image [img] and tape
    position [pos], running [p_sample] at the timesteps [steps] in turn
    yields the images [imgs] and ends at tape position [pos']. *)
Inductive trajectory (noise_tape : nat -> R) (timesteps : nat)
    (model : NNModule) (b : nat)
  : list nat -> tensor -> nat -> list tensor -> nat -> Prop :=
| trajectory_done img pos :
    trajectory noise_tape timesteps model b [] img pos [] pos
| trajectory_step i steps img pos img' pos' imgs pos'' :
    p_sample noise_tape timesteps model img (full b (Z.of_nat i)) (Z.of_nat i) pos
    = Ok (img', pos') ->
    trajectory noise_tape timesteps model b steps img' pos' imgs pos'' ->
    trajectory noise_tape timesteps model b (i :: steps) img pos
      (img' :: imgs) pos''.

(** A model that answers every input with a tensor of the input's shape, as
    a noise predictor does. *)
Definition shape_preserving (model : NNModule) : Prop :=
  forall x t, exists e, forward model x t = Ok e /\ dims e = dims x.

(** The posterior mean of one entry, and the entry [p_sample] returns. *)
Definition posterior_mean (T : nat) (t : list Z) (i : nat) (x e : R) : R :=
  sqrt (1 / coef_at (alphas T) t i)
  * (x - coef_at (betas T) t i * e
         / sqrt (1 - coef_at (alphas_cumprod T) t i)).

(** The image [p_sample_loop] starts from: [torch.randn(shape)] drawn at
    tape position [pos]. *)
Definition start_image (tape : nat -> R) (shape : shape4) (pos : nat) : tensor :=
  Tensor shape (fun i j r k => tape (draw_at shape pos i j r k)).

(** The selectors [p_losses] knows. *)
Definition known_loss_type (loss_type : string) : Prop :=
  loss_type = "l1"%string \/ loss_type = "l2"%string \/ loss_type = "huber"%string.

(** The loss function of the tensor library a selector stands for. *)
Definition loss_function (loss_type : string)
  : option (tensor -> tensor -> res R) :=
  if String.eqb loss_type "l1" then Some l1_loss
  else if String.eqb loss_type "l2" then Some mse_loss
  else if String.eqb loss_type "huber" then Some smooth_l1_loss
  else None.

(** A result that is not the exception [NotImplementedError]. *)
Definition not_NotImplemented {A} (r : res A) : Prop :=
  r <> Raise NotImplementedError.

(** The same for computations that read the tape. *)
Definition never_NotImplemented {A} (m : nat -> res (A * nat)) : Prop :=
  forall pos, not_NotImplemented (m pos).

(** A model whose forward function does not raise [NotImplementedError]
    itself. *)
Definition implemented (model : NNModule) : Prop :=
  forall x t, not_NotImplemented (forward model x t).

(** The mean over all entries of an entrywise loss between two tensors. *)
Definition mean_loss (f : R -> R -> R) (x y : tensor) : R :=
  tmean (Tensor (dims x) (fun i j r k => f (val x i j r k) (val y i j r k))).

(** The batch sizes a time embedding of [bt] rows leaves alone. *)
Definition absorbs_time (bt b : nat) : Prop := b = bt \/ bt = 1%nat.

(** Blocks and stages as the constructor of the U-Net builds them. *)
Definition built_block (dim_out : nat) (m : ResnetBlock) : Prop :=
  exists dim time_dim groups,
    ResnetBlock_init dim dim_out (Some time_dim) groups = Ok m.

Definition built_attention (m : Residual) : Prop :=
  exists dim, attention_layer dim = Ok m.

Definition built_stage (s : Stage) : Prop :=
  (exists d, built_block d (st_block1 s)) /\
  (exists d, built_block d (st_block2 s)) /\
  built_attention (st_attn s).

(** The arguments of the notebook's model:
    [Unet(dim=image_size, channels=num_channels, dim_mults=(1, 2, 4))]. *)
Definition notebook_args : UnetArgs :=
  {| a_dim := 28; a_init_dim := None; a_out_dim := None;
     a_dim_mults := [1; 2; 4]%nat; a_channels := 1;
     a_self_condition := false; a_resnet_block_groups := 4 |}.

(** The notebook's model built with three output channels:
    [Unet(dim=image_size, channels=num_channels, dim_mults=(1, 2, 4),
    out_dim=3)]. *)
Definition three_channel_args : UnetArgs :=
  {| a_dim := 28; a_init_dim := None; a_out_dim := Some 3%nat;
     a_dim_mults := [1; 2; 4]%nat; a_channels := 1;
     a_self_condition := false; a_resnet_block_groups := 4 |}.

(** Build the U-Net and run it. *)
Definition build_and_run (a : UnetArgs) (x : shape4) (time : nat)
    (x_self_cond : option shape4) : res shape4 :=
  let? u := Unet_init a in Unet_forward u x time x_self_cond.

(** A model that predicts zero noise everywhere and has one parameter. *)
Definition zero_model : NNModule :=
  {| parameters := [Cpu]; forward := fun x _ => Ok (zeros_like x) |}.

(* ================================================================== *)
(** ** Vocabulary of the further properties *)

(** A result that raises nothing but the runtime's error. *)
Definition only_RuntimeError {A} (r : res A) : Prop :=
  forall e, r = Raise e -> e = RuntimeError.

(** Every exception a computation raises satisfies [P]. *)
Definition raises_only {A} (P : exn -> Prop) (m : nat -> res (A * nat)) : Prop :=
  forall pos e, m pos = Raise e -> P e.

(** Number of timesteps of a list that are not the last one, [t = 0]. *)
Definition noisy_steps (steps : list nat) : nat :=
  List.length (filter (fun i => negb (i =? 0)%nat) steps).

(** A model that answers [eps] whatever it is given: the oracle that knows
    the injected noise. *)
Definition oracle_model (eps : tensor) : NNModule :=
  {| parameters := [Cpu]; forward := fun _ _ => Ok eps |}.

(** *** The sampling of the training loop (cell 28) *)

(** [list(map(f, xs))] for a function that draws from the tape or fails:
    the calls run in order. *)
Fixpoint M_map {A B} (f : A -> M B) (xs : list A) : M (list B) :=
  match xs with
  | [] => ret []
  | x :: xs' =>
      bind (f x) (fun y => bind (M_map f xs') (fun ys => ret (y :: ys)))
  end.

(** The sampling of the training loop (cell 28): four images, generated in
    groups of at most [batch_size].  A negative size is an error of
    [torch.randn]. *)
Definition sample_groups (noise_tape : nat -> R) (timesteps : nat)
    (model : NNModule) (image_size : nat) (batch_size : Z) (num_channels : nat)
  : M (list (list ndarray)) :=
  bind (lift (num_to_groups 4 batch_size)) (fun batches =>
  M_map (fun n =>
           if (n <? 0)%Z then raise RuntimeError
           else sample noise_tape timesteps model image_size (Z.to_nat n)
                  num_channels)
        batches).

(** Sum of a list of integers. *)
Definition Zsum (l : list Z) : Z := fold_right Z.add 0%Z l.

(** *** The U-Net, stage by stage *)

(** The channel counts of the U-Net's resolutions: [dims] of
    [Unet.__init__]. *)
Definition Unet_dims (a : UnetArgs) : list nat :=
  default (a_init_dim a) (a_dim a)
    :: map (fun m => a_dim a * m)%nat (a_dim_mults a).

(** The constructor of a module returns. *)
Definition accepted {A} (r : res A) : Prop := exists a, r = Ok a.

(** One stage of [downs], as the first loop of [Unet.__init__] builds it
    from its index and its pair of channel counts. *)
Definition down_stage (num_resolutions time_dim groups : nat)
    (p : nat * (nat * nat)) : res Stage :=
  let '(ind, (dim_in, dim_out)) := p in
  let is_last := (num_resolutions - 1 <=? ind)%nat in
  let? b1 := ResnetBlock_init dim_in dim_in (Some time_dim) groups in
  let? b2 := ResnetBlock_init dim_in dim_in (Some time_dim) groups in
  let? at_ := attention_layer dim_in in
  Ok {| st_block1 := b1; st_block2 := b2; st_attn := at_;
        st_resample := if negb is_last then Downsample dim_in (Some dim_out)
                       else conv3 dim_in dim_out |}.

(** One stage of [ups], as the second loop builds it. *)
Definition up_stage (num_resolutions time_dim groups : nat)
    (p : nat * (nat * nat)) : res Stage :=
  let '(ind, (dim_in, dim_out)) := p in
  let is_last := (ind =? num_resolutions - 1)%nat in
  let? b1 := ResnetBlock_init (dim_out + dim_in)%nat dim_out (Some time_dim)
               groups in
  let? b2 := ResnetBlock_init (dim_out + dim_in)%nat dim_out (Some time_dim)
               groups in
  let? at_ := attention_layer dim_out in
  Ok {| st_block1 := b1; st_block2 := b2; st_attn := at_;
        st_resample := if negb is_last then Upsample dim_out (Some dim_in)
                       else conv3 dim_out dim_in |}.

(** The layers of a U-Net that [Unet.__init__] returned for the arguments
    [a]. *)
Definition Unet_built (a : UnetArgs) (u : Unet) : Prop :=
  let io := zip_consecutive (Unet_dims a) in
  let n := List.length io in
  let td := (a_dim a * 4)%nat in
  let g := a_resnet_block_groups a in
  let mid := last (Unet_dims a) (default (a_init_dim a) (a_dim a)) in
  self_condition u = a_self_condition a /\
  init_conv u = {| in_channels :=
                     a_channels a * (if a_self_condition a then 2 else 1);
                   out_channels := default (a_init_dim a) (a_dim a);
                   kernel_size := 1; padding := 0 |} /\
  time_pos u = {| spe_dim := a_dim a |} /\
  time_lin1 u = {| in_features := a_dim a; out_features := td |} /\
  time_lin2 u = {| in_features := td; out_features := td |} /\
  res_map (down_stage n td g) (enumerate io) = Ok (downs u) /\
  ResnetBlock_init mid mid (Some td) g = Ok (mid_block1 u) /\
  attention_layer mid = Ok (mid_attn u) /\
  ResnetBlock_init mid mid (Some td) g = Ok (mid_block2 u) /\
  res_map (up_stage n td g) (enumerate (rev io)) = Ok (ups u) /\
  ResnetBlock_init (a_dim a * 2) (a_dim a) (Some td) g
    = Ok (final_res_block u) /\
  final_conv u = {| in_channels := a_dim a;
                    out_channels := default (a_out_dim a) (a_channels a);
                    kernel_size := 1; padding := 0 |}.

(** The second loop of [forward] with the skip connections it leaves on the
    list [h]. *)
Fixpoint up_path_st (stages : list Stage) (t : shape2) (x : shape4)
    (h : list shape4) : res (shape4 * list shape4) :=
  match stages with
  | [] => Ok (x, h)
  | s :: stages' =>
      let? '(skip, h) := pop h in
      let? x := cat1 x skip in
      let? x := ResnetBlock_forward (st_block1 s) x (Some t) in
      let? '(skip, h) := pop h in
      let? x := cat1 x skip in
      let? x := ResnetBlock_forward (st_block2 s) x (Some t) in
      let? x := Residual_forward (st_attn s) x in
      let? x := Resample_forward (st_resample s) x in
      up_path_st stages' t x h
  end.


(** The image [x] and the self-conditioning image fit the channels the
    U-Net was built for. *)
Definition input_fits (a : UnetArgs) (x : shape4)
    (x_self_cond : option shape4) : Prop :=
  if a_self_condition a
  then let s := default x_self_cond x in
       sb s = sb x /\ sh s = sh x /\ sw s = sw x /\
       (sc s + sc x = a_channels a * 2)%nat
  else sc x = a_channels a.

(** The number of times the U-Net halves the image. *)
Definition halvings (a : UnetArgs) : nat :=
  (List.length (a_dim_mults a) - 1)%nat.

(** No layer of the U-Net is built for zero channels. *)
Definition positive_args (a : UnetArgs) : Prop :=
  (1 <= a_dim a)%nat /\ (1 <= default (a_init_dim a) (a_dim a))%nat /\
  (1 <= a_channels a)%nat /\
  (1 <= default (a_out_dim a) (a_channels a))%nat /\
  Forall (fun m => 1 <= m)%nat (a_dim_mults a).


(* ================================================================== *)

(** ** Values the layers and the data pipeline compute
       (cells 4, 6, 8, 20 and 28) *)

(** [sum] of a vector. *)
Definition Rsum (v : list R) : R := fold_right Rplus 0 v.

(** [SinusoidalPositionEmbeddings.forward] on the timesteps themselves: one
    row per timestep, the sines of the timestep at [half_dim] frequencies
    followed by the cosines. *)
Definition SinusoidalPositionEmbeddings_values
    (m : SinusoidalPositionEmbeddings) (time : list Z) : res (list (list R)) :=
  let half_dim := (spe_dim m / 2)%nat in
  if (half_dim =? 1)%nat then Raise ZeroDivisionError
  else
    let embeddings := ln 10000 / (INR half_dim - 1) in
    let embeddings :=
      map (fun j => exp (INR j * - embeddings)) (seq 0 half_dim) in
    let embeddings :=
      map (fun t => map (fun e => IZR t * e) embeddings) time in
    Ok (map (fun row => map sin row ++ map cos row) embeddings).

(** [reduce(weight, 'o ... -> o 1 1 1', 'mean')] on the weights of one
    output channel. *)
Definition weight_mean (w : list R) : R := Rsum w / INR (List.length w).

(** [reduce(weight, 'o ... -> o 1 1 1', partial(torch.var, unbiased=False))]
    on the weights of one output channel. *)
Definition weight_var (w : list R) : R :=
  weight_mean (map (fun v => (v - weight_mean w) * (v - weight_mean w)) w).

(** [Tensor.rsqrt]. *)
Definition rsqrt (x : R) : R := 1 / sqrt x.

(** The weights [WeightStandardizedConv2d.forward] convolves with, one list
    per output channel; [float32] says whether the input has that type. *)
Definition normalized_weight (float32 : bool) (weight : list (list R))
    : list (list R) :=
  let eps := if float32 then 0.00001 else 0.001 in
  map (fun w =>
         let mean := weight_mean w in
         let var := weight_var w in
         map (fun v => (v - mean) / rsqrt (var + eps)) w)
      weight.

(** [Tensor.amax(dim=-1)] on one row; an empty row is an error of the
    runtime. *)
Definition amax (row : list R) : res R :=
  match row with
  | [] => Raise RuntimeError
  | s :: row' => Ok (fold_right Rmax s row')
  end.

(** [Tensor.softmax(dim=-1)] on one row. *)
Definition softmax (row : list R) : list R :=
  let z := Rsum (map exp row) in
  map (fun s => exp s / z) row.

(** One row of the attention weights of [Attention.forward], from the row
    [sim] of similarities of one query to every key. *)
Definition attention_row (sim : list R) : res (list R) :=
  let? m := amax sim in
  let sim := map (fun s => s - m) sim in
  Ok (softmax sim).

(** The last step of the data transform (cell 20): pixel values from
    [0, 1] to [-1, 1]. *)
Definition transform_scale (t : tensor) : tensor :=
  tmap (fun v => v * 2 - 1) t.

(** The rescaling of sampled images before they are saved (cell 28). *)
Definition unscale (all_images : tensor) : tensor :=
  tmap (fun v => (v + 1) / 2) all_images.

(* ================================================================== *)
(** * Results *)

(** ** Vectors *)

Lemma map2_length {A B C} (f : A -> B -> C) xs ys :
  List.length (Vec.map2 f xs ys) = Nat.min (List.length xs) (List.length ys).
Proof.
  revert ys; induction xs as [|x xs IH]; intros [|y ys]; simpl; auto.
Qed.

Lemma map2_nth_error {A B C} (f : A -> B -> C) xs ys i x y :
  nth_error xs i = Some x -> nth_error ys i = Some y ->
  nth_error (Vec.map2 f xs ys) i = Some (f x y).
Proof.
  revert ys i; induction xs as [|a xs IH]; intros [|b ys] [|i]; simpl;
    try discriminate.
  - intros [= ->] [= ->]; reflexivity.
  - apply IH.
Qed.

Lemma linspace_length a b n : List.length (Vec.linspace a b n) = n.
Proof.
  destruct n as [|[|n]]; simpl; auto.
  now rewrite length_map, length_seq.
Qed.

Lemma linspace_nth_error a b n i :
  (i < n)%nat ->
  nth_error (Vec.linspace a b n) i
  = Some (a + INR i * ((b - a) / INR (n - 1))).
Proof.
  intros Hi. destruct n as [|[|n]].
  - lia.
  - assert (i = 0%nat) by lia; subst; simpl. f_equal; lra.
  - unfold Vec.linspace.
    rewrite nth_error_map, nth_error_seq.
    destruct (Nat.ltb_spec i (S (S n))); [reflexivity | lia].
Qed.

Lemma linspace_range a b n x :
  a <= b -> In x (Vec.linspace a b n) -> a <= x <= b.
Proof.
  intros Hab Hin. destruct n as [|[|n]].
  - destruct Hin.
  - destruct Hin as [<-|[]]; lra.
  - unfold Vec.linspace in Hin. apply in_map_iff in Hin.
    destruct Hin as (i & <- & Hi). apply in_seq in Hi.
    replace (S (S n) - 1)%nat with (S n) by lia.
    assert (Hn : 0 < INR (S n)) by (apply lt_0_INR; lia).
    assert (Hi0 : 0 <= INR i) by apply pos_INR.
    assert (Hi1 : INR i <= INR (S n)) by (apply le_INR; lia).
    assert (Hq : 0 <= (b - a) / INR (S n)).
    { apply Rmult_le_pos; [lra|]. left; now apply Rinv_0_lt_compat. }
    split.
    + assert (0 <= INR i * ((b - a) / INR (S n))) by now apply Rmult_le_pos.
      lra.
    + assert (INR i * ((b - a) / INR (S n)) <= INR (S n) * ((b - a) / INR (S n)))
        by now apply Rmult_le_compat_r.
      replace (INR (S n) * ((b - a) / INR (S n))) with (b - a) in H
        by (field; lra).
      lra.
Qed.

Lemma cumprod_from_length acc v :
  List.length (Vec.cumprod_from acc v) = List.length v.
Proof. revert acc; induction v; intros; simpl; auto. Qed.

Lemma cumprod_is_cumprod_from v : Vec.cumprod v = Vec.cumprod_from 1 v.
Proof. destruct v; simpl; [reflexivity|]. now rewrite Rmult_1_l. Qed.

Lemma cumprod_length v : List.length (Vec.cumprod v) = List.length v.
Proof. rewrite cumprod_is_cumprod_from. apply cumprod_from_length. Qed.

(** The entry at [i] of the running product is the product of the first
    [i + 1] entries. *)
Lemma cumprod_from_nth_error acc v i :
  (i < List.length v)%nat ->
  nth_error (Vec.cumprod_from acc v) i = Some (acc * Vec.prod (firstn (S i) v)).
Proof.
  revert acc i; induction v as [|x v IH]; intros acc i Hi; simpl in Hi.
  - lia.
  - destruct i as [|i].
    + simpl. f_equal. unfold Vec.prod; simpl. ring.
    + change (nth_error (Vec.cumprod_from acc (x :: v)) (S i))
        with (nth_error (Vec.cumprod_from (acc * x) v) i).
      rewrite IH by lia.
      f_equal. change (firstn (S (S i)) (x :: v)) with (x :: firstn (S i) v).
      unfold Vec.prod; simpl. ring.
Qed.

Lemma cumprod_nth_error v i :
  (i < List.length v)%nat ->
  nth_error (Vec.cumprod v) i = Some (Vec.prod (firstn (S i) v)).
Proof.
  intros Hi. rewrite cumprod_is_cumprod_from, cumprod_from_nth_error by assumption.
  f_equal; ring.
Qed.

Lemma cumprod_from_bounds acc v :
  0 <= acc -> Forall unit_interval v ->
  forall i, (i < List.length v)%nat ->
    0 <= nth i (Vec.cumprod_from acc v) 0 <= acc.
Proof.
  revert acc; induction v as [|x v IH]; intros acc Hacc Hv i Hi; simpl in Hi.
  - lia.
  - inversion Hv as [|? ? [Hx0 Hx1] Hv']; subst.
    assert (0 <= acc * x) by now apply Rmult_le_pos.
    assert (acc * x <= acc).
    { rewrite <- (Rmult_1_r acc) at 2. now apply Rmult_le_compat_l. }
    destruct i as [|i]; simpl.
    + lra.
    + specialize (IH (acc * x) H Hv' i ltac:(lia)). lra.
Qed.

(** Running products of numbers between 0 and 1 never increase. *)
Lemma cumprod_from_antitone acc v :
  0 <= acc -> Forall unit_interval v ->
  forall s t, (s <= t)%nat -> (t < List.length v)%nat ->
    nth t (Vec.cumprod_from acc v) 0 <= nth s (Vec.cumprod_from acc v) 0.
Proof.
  revert acc; induction v as [|x v IH]; intros acc Hacc Hv s t Hst Ht;
    simpl in Ht.
  - lia.
  - inversion Hv as [|? ? [Hx0 Hx1] Hv']; subst.
    assert (0 <= acc * x) by now apply Rmult_le_pos.
    destruct s as [|s], t as [|t]; simpl; try lia.
    + lra.
    + apply (cumprod_from_bounds (acc * x) v H Hv' t). lia.
    + apply IH; auto; lia.
Qed.

(** ** The schedule *)

Lemma betas_length T : List.length (betas T) = T.
Proof. apply linspace_length. Qed.

Lemma alphas_length T : List.length (alphas T) = T.
Proof. unfold alphas. now rewrite length_map, betas_length. Qed.

Lemma alphas_cumprod_length T : List.length (alphas_cumprod T) = T.
Proof. unfold alphas_cumprod. now rewrite cumprod_length, alphas_length. Qed.

Lemma alphas_cumprod_prev_length T :
  (1 <= T)%nat -> List.length (alphas_cumprod_prev T) = T.
Proof.
  intros HT. unfold alphas_cumprod_prev, Vec.pad_left, Vec.drop_last.
  rewrite length_app, removelast_firstn_len, length_firstn, alphas_cumprod_length.
  simpl. lia.
Qed.

Lemma posterior_variance_length T : List.length (posterior_variance T) = T.
Proof.
  unfold posterior_variance.
  rewrite !map2_length, !length_map, betas_length, alphas_cumprod_length.
  destruct T as [|T]; [reflexivity|].
  rewrite alphas_cumprod_prev_length by lia. lia.
Qed.

Lemma betas_nth_error T i :
  (i < T)%nat -> nth_error (betas T) i = Some (spec_beta T i).
Proof. intros Hi. now apply linspace_nth_error. Qed.

Lemma alphas_nth_error T i :
  (i < T)%nat -> nth_error (alphas T) i = Some (1 - spec_beta T i).
Proof.
  intros Hi. unfold alphas. now rewrite nth_error_map, betas_nth_error.
Qed.

Lemma betas_range T b : In b (betas T) -> beta_start <= b <= beta_end.
Proof.
  apply linspace_range. unfold beta_start, beta_end; lra.
Qed.

Lemma alphas_unit T : Forall unit_interval (alphas T).
Proof.
  unfold alphas. apply Forall_map, Forall_forall. intros b Hb.
  apply betas_range in Hb. unfold unit_interval, beta_start, beta_end in *. lra.
Qed.

Lemma firstn_alphas T i :
  (i < T)%nat ->
  firstn (S i) (alphas T)
  = map (fun j => 1 - spec_beta T j) (seq 0 (S i)).
Proof.
  intros Hi. apply nth_error_ext. intros n.
  rewrite nth_error_firstn, nth_error_map, nth_error_seq.
  destruct (Nat.ltb_spec n (S i)); [|reflexivity].
  rewrite alphas_nth_error by lia. reflexivity.
Qed.

Lemma alphas_cumprod_nth_error T t :
  (t < T)%nat -> nth_error (alphas_cumprod T) t = Some (spec_alpha_bar T t).
Proof.
  intros Ht. unfold alphas_cumprod.
  rewrite cumprod_nth_error by (rewrite alphas_length; exact Ht).
  now rewrite firstn_alphas.
Qed.

Lemma alphas_cumprod_antitone T s t :
  (s <= t)%nat -> (t < T)%nat ->
  nth t (alphas_cumprod T) 0 <= nth s (alphas_cumprod T) 0.
Proof.
  intros Hst Ht. unfold alphas_cumprod. rewrite cumprod_is_cumprod_from.
  apply cumprod_from_antitone; auto.
  - lra.
  - apply alphas_unit.
  - now rewrite alphas_length.
Qed.

Lemma alphas_cumprod_prev_head T : nth_error (alphas_cumprod_prev T) 0 = Some 1.
Proof. reflexivity. Qed.

Lemma alphas_cumprod_prev_tail T i :
  (S i < T)%nat ->
  nth_error (alphas_cumprod_prev T) (S i) = nth_error (alphas_cumprod T) i.
Proof.
  intros Hi. unfold alphas_cumprod_prev, Vec.pad_left, Vec.drop_last. simpl.
  rewrite removelast_firstn_len, nth_error_firstn, alphas_cumprod_length.
  destruct (Nat.ltb_spec i (Nat.pred T)); [reflexivity | lia].
Qed.

Lemma alphas_cumprod_first T :
  (1 <= T)%nat -> nth_error (alphas_cumprod T) 0 = Some (1 - beta_start).
Proof.
  intros HT. rewrite alphas_cumprod_nth_error by lia.
  unfold spec_alpha_bar, spec_beta, Vec.prod. simpl. f_equal. ring.
Qed.

Lemma nth_of_nth_error {A} (l : list A) i d x :
  nth_error l i = Some x -> nth i l d = x.
Proof. intros H. now apply nth_error_nth. Qed.

Lemma one_minus_alphas_cumprod_pos T t :
  (t < T)%nat -> 0 < 1 - nth t (alphas_cumprod T) 0.
Proof.
  intros Ht.
  pose proof (alphas_cumprod_antitone T 0 t ltac:(lia) Ht) as Hle.
  rewrite (nth_of_nth_error _ 0 0 _ (alphas_cumprod_first T ltac:(lia))) in Hle.
  unfold beta_start in Hle. lra.
Qed.

(** C3: the schedule is a function of the step count alone (the two end
    values are constants of [linear_beta_schedule]).  [betas] has
    [timesteps] entries, the i-th being the i-th linearly spaced value from
    [beta_start] to [beta_end]: it starts at [beta_start], ends at [beta_end]
    when there are at least two entries, and consecutive entries are a
    constant step apart.  [alphas] is 1 - [betas], [alphas_cumprod] holds the
    products of the alphas up to each timestep, [alphas_cumprod_prev] is
    [alphas_cumprod] with 1 put in front and the last entry dropped, and the
    three derived vectors hold sqrt(1/alpha), sqrt(alpha-bar) and
    sqrt(1 - alpha-bar) entry by entry. *)
Theorem schedule_computation (timesteps : nat) :
  List.length (betas timesteps) = timesteps /\
  (forall i, (i < timesteps)%nat ->
     nth_error (betas timesteps) i = Some (spec_beta timesteps i)) /\
  ((1 <= timesteps)%nat -> nth_error (betas timesteps) 0 = Some beta_start) /\
  ((2 <= timesteps)%nat ->
     nth_error (betas timesteps) (timesteps - 1) = Some beta_end) /\
  (forall i, (S i < timesteps)%nat ->
     spec_beta timesteps (S i) - spec_beta timesteps i
     = (beta_end - beta_start) / INR (timesteps - 1)) /\
  alphas timesteps = map (fun b => 1 - b) (betas timesteps) /\
  (forall t, (t < timesteps)%nat ->
     nth_error (alphas_cumprod timesteps) t
     = Some (spec_alpha_bar timesteps t)) /\
  alphas_cumprod_prev timesteps = 1 :: removelast (alphas_cumprod timesteps) /\
  ((1 <= timesteps)%nat ->
     List.length (alphas_cumprod_prev timesteps) = timesteps) /\
  (forall t, (S t < timesteps)%nat ->
     nth_error (alphas_cumprod_prev timesteps) (S t)
     = Some (spec_alpha_bar timesteps t)) /\
  (forall t, (t < timesteps)%nat ->
     nth_error (sqrt_recip_alphas timesteps) t
     = Some (sqrt (1 / (1 - spec_beta timesteps t))) /\
     nth_error (sqrt_alphas_cumprod timesteps) t
     = Some (sqrt (spec_alpha_bar timesteps t)) /\
     nth_error (sqrt_one_minus_alphas_cumprod timesteps) t
     = Some (sqrt (1 - spec_alpha_bar timesteps t))).
Proof.
  split; [apply betas_length|].
  split; [apply betas_nth_error|].
  split.
  { intros H. rewrite betas_nth_error by lia.
    unfold spec_beta. simpl. f_equal. ring. }
  split.
  { intros H. rewrite betas_nth_error by lia. f_equal. unfold spec_beta.
    assert (0 < INR (timesteps - 1)) by (apply lt_0_INR; lia).
    field. lra. }
  split.
  { intros i Hi. unfold spec_beta. rewrite S_INR. ring. }
  split; [reflexivity|].
  split; [apply alphas_cumprod_nth_error|].
  split; [reflexivity|].
  split; [apply alphas_cumprod_prev_length|].
  split.
  { intros t Ht. rewrite alphas_cumprod_prev_tail by assumption.
    apply alphas_cumprod_nth_error. lia. }
  intros t Ht. unfold sqrt_recip_alphas, sqrt_alphas_cumprod,
    sqrt_one_minus_alphas_cumprod.
  rewrite !nth_error_map, alphas_nth_error, alphas_cumprod_nth_error by assumption.
  simpl. auto.
Qed.

Lemma schedule_computation_witness :
  nth_error (betas 3) 0 = Some beta_start /\
  nth_error (betas 3) 2 = Some beta_end /\
  nth_error (alphas_cumprod_prev 3) 1 = Some (spec_alpha_bar 3 0).
Proof.
  destruct (schedule_computation 3)
    as (_ & _ & H1 & H2 & _ & _ & _ & _ & _ & H3 & _).
  split; [apply H1; apply Nat.leb_le; reflexivity|].
  split; [apply H2; apply Nat.leb_le; reflexivity|].
  apply H3; apply Nat.ltb_lt; reflexivity.
Defined.

(** C4: alpha-bar never increases with the timestep: for s <= t < T,
    [alphas_cumprod[t] <= alphas_cumprod[s]]. *)
Theorem alphas_cumprod_non_increasing (timesteps s t : nat) :
  (s <= t)%nat -> (t < timesteps)%nat ->
  nth t (alphas_cumprod timesteps) 0 <= nth s (alphas_cumprod timesteps) 0.
Proof. apply alphas_cumprod_antitone. Qed.

Lemma alphas_cumprod_non_increasing_witness :
  nth 999 (alphas_cumprod 1000) 0 <= nth 0 (alphas_cumprod 1000) 0.
Proof.
  apply alphas_cumprod_non_increasing; [apply Nat.leb_le | apply Nat.ltb_lt];
    reflexivity.
Defined.

(** Every posterior variance is the quotient the code writes. *)
Lemma posterior_variance_nth_error T t :
  (t < T)%nat ->
  nth_error (posterior_variance T) t
  = Some (nth t (betas T) 0
          * (1 - nth t (alphas_cumprod_prev T) 0)
          / (1 - nth t (alphas_cumprod T) 0)).
Proof.
  intros Ht. unfold posterior_variance.
  apply map2_nth_error.
  - apply map2_nth_error.
    + apply nth_error_nth'. now rewrite betas_length.
    + rewrite nth_error_map.
      rewrite (nth_error_nth' _ 0)
        by (rewrite alphas_cumprod_prev_length; lia).
      reflexivity.
  - rewrite nth_error_map.
    rewrite (nth_error_nth' _ 0) by (now rewrite alphas_cumprod_length).
    reflexivity.
Qed.

Lemma alphas_cumprod_unit T t :
  (t < T)%nat -> unit_interval (nth t (alphas_cumprod T) 0).
Proof.
  intros Ht. unfold alphas_cumprod. rewrite cumprod_is_cumprod_from.
  apply cumprod_from_bounds; [lra | apply alphas_unit |].
  now rewrite alphas_length.
Qed.

Lemma alphas_cumprod_prev_unit T t :
  (t < T)%nat -> unit_interval (nth t (alphas_cumprod_prev T) 0).
Proof.
  intros Ht. destruct t as [|t].
  - rewrite (nth_of_nth_error _ 0 0 _ (alphas_cumprod_prev_head T)).
    unfold unit_interval; lra.
  - pose proof (alphas_cumprod_prev_tail T t Ht) as H.
    rewrite (nth_error_nth' (alphas_cumprod T) 0) in H
      by (rewrite alphas_cumprod_length; lia).
    rewrite (nth_of_nth_error _ _ 0 _ H).
    apply alphas_cumprod_unit. lia.
Qed.

(** The square roots of the schedule are taken of non-negative numbers, and
    the reciprocal of a positive one: every alpha is positive, every
    alpha-bar lies between 0 and 1, and every posterior variance is
    non-negative. *)
Lemma schedule_sqrt_domains T t :
  (t < T)%nat ->
  0 < nth t (alphas T) 0 /\
  0 <= nth t (alphas_cumprod T) 0 <= 1 /\
  0 <= nth t (posterior_variance T) 0.
Proof.
  intros Ht.
  assert (Hb : beta_start <= nth t (betas T) 0 <= beta_end).
  { apply (betas_range T). apply nth_In. now rewrite betas_length. }
  split.
  { unfold alphas.
    rewrite (nth_indep _ 0 (1 - 0)) by (now rewrite length_map, betas_length).
    rewrite (map_nth (fun b => 1 - b)).
    unfold beta_start, beta_end in Hb. lra. }
  split; [now apply alphas_cumprod_unit|].
  rewrite (nth_of_nth_error _ _ 0 _ (posterior_variance_nth_error T t Ht)).
  pose proof (one_minus_alphas_cumprod_pos T t Ht) as Hpos.
  pose proof (alphas_cumprod_prev_unit T t Ht) as [_ Hprev].
  apply Rmult_le_pos.
  - apply Rmult_le_pos; [unfold beta_start in Hb; lra | lra].
  - left. now apply Rinv_0_lt_compat.
Qed.

(** C10: with at least one timestep, the first posterior variance is
    exactly zero, because [alphas_cumprod_prev[0]] is 1; its divisor
    [1 - alphas_cumprod[0]] equals [betas[0]], which is not zero; and the
    divisor [1 - alphas_cumprod[t]] is not zero at any timestep, every entry
    being the quotient the code writes. *)
Theorem posterior_variance_first_entry (timesteps : nat) :
  (1 <= timesteps)%nat ->
  nth_error (posterior_variance timesteps) 0 = Some 0 /\
  nth_error (alphas_cumprod_prev timesteps) 0 = Some 1 /\
  1 - nth 0 (alphas_cumprod timesteps) 0 = nth 0 (betas timesteps) 0 /\
  nth 0 (betas timesteps) 0 <> 0 /\
  forall t, (t < timesteps)%nat ->
    1 - nth t (alphas_cumprod timesteps) 0 <> 0 /\
    nth_error (posterior_variance timesteps) t
    = Some (nth t (betas timesteps) 0
            * (1 - nth t (alphas_cumprod_prev timesteps) 0)
            / (1 - nth t (alphas_cumprod timesteps) 0)).
Proof.
  intros HT.
  pose proof (posterior_variance_nth_error timesteps) as Hentry.
  pose proof (nth_of_nth_error _ 0 0 _ (alphas_cumprod_first timesteps HT)) as Hac.
  assert (Hb : nth 0 (betas timesteps) 0 = beta_start).
  { apply nth_of_nth_error. rewrite betas_nth_error by lia.
    unfold spec_beta. simpl. f_equal. ring. }
  split.
  { rewrite Hentry by lia. f_equal.
    rewrite (nth_of_nth_error _ 0 0 _ (alphas_cumprod_prev_head timesteps)).
    unfold Rdiv. ring. }
  split; [apply alphas_cumprod_prev_head|].
  split; [rewrite Hac, Hb; ring|].
  split; [rewrite Hb; unfold beta_start; lra|].
  intros t Ht. split; [|now apply Hentry].
  pose proof (one_minus_alphas_cumprod_pos timesteps t Ht). lra.
Qed.

Lemma posterior_variance_first_entry_witness :
  nth_error (posterior_variance 1000) 0 = Some 0.
Proof.
  apply (posterior_variance_first_entry 1000).
  apply Nat.leb_le; reflexivity.
Defined.

(** ** [num_to_groups] *)

Lemma sum_repeat (d : Z) (n : nat) :
  fold_right Z.add 0%Z (repeat d n) = (Z.of_nat n * d)%Z.
Proof. induction n; simpl repeat; simpl fold_right; lia. Qed.

(** For a positive divisor and a non-negative number the groups add up to
    the number, none exceeds the divisor, and all but the last equal it. *)
Lemma num_to_groups_sum (num divisor : Z) :
  (0 <= num)%Z -> (0 < divisor)%Z ->
  exists arr, num_to_groups num divisor = Ok arr /\
              fold_right Z.add 0%Z arr = num /\
              Forall (fun g => 0 < g <= divisor)%Z arr.
Proof.
  intros Hn Hd. unfold num_to_groups.
  destruct (Z.eqb_spec divisor 0); [lia|].
  pose proof (Z.mod_pos_bound num divisor Hd) as Hm.
  pose proof (Z.div_mod num divisor ltac:(lia)) as Hdm.
  pose proof (Z.div_pos num divisor Hn Hd) as Hq.
  assert (Hrep : Forall (fun g => 0 < g <= divisor)%Z
                   (repeat divisor (Z.to_nat (num / divisor)))).
  { apply Forall_forall. intros g Hg. apply repeat_spec in Hg. lia. }
  destruct (Z.ltb_spec 0 (num mod divisor)).
  - eexists; split; [reflexivity|]. split.
    + rewrite fold_right_app. simpl.
      replace (fold_right Z.add (num mod divisor + 0)%Z
                 (repeat divisor (Z.to_nat (num / divisor))))
        with (fold_right Z.add 0%Z (repeat divisor (Z.to_nat (num / divisor)))
              + num mod divisor)%Z.
      * rewrite sum_repeat. lia.
      * generalize (Z.to_nat (num / divisor)).
        induction n0; simpl repeat; simpl fold_right; lia.
    + apply Forall_app; split; [exact Hrep|]. constructor; [lia|constructor].
  - eexists; split; [reflexivity|]. split; [|exact Hrep].
    rewrite sum_repeat. lia.
Qed.

(** C8: [num_to_groups(10, 4)] is [[4, 4, 2]]: 10 // 4 = 2 copies of the
    divisor followed by the remainder 10 % 4 = 2, which is positive. *)
Theorem num_to_groups_10_4 :
  num_to_groups 10 4 = Ok [4; 4; 2]%Z /\
  [4; 4; 2]%Z = (repeat 4 (Z.to_nat (10 / 4)) ++ [10 mod 4])%Z /\
  (0 < 10 mod 4)%Z.
Proof. repeat split. Qed.

(** ** Broadcasting *)

Lemma bdim_same n : bdim n n = Ok n.
Proof. unfold bdim. now rewrite Nat.eqb_refl. Qed.

Lemma bdim_one_l n : bdim 1 n = Ok n.
Proof. unfold bdim. destruct (Nat.eqb_spec 1 n); [now subst|reflexivity]. Qed.

Lemma bdim_one_r n : bdim n 1 = Ok n.
Proof.
  unfold bdim. destruct (Nat.eqb_spec n 1); [reflexivity|].
  now rewrite Nat.eqb_refl.
Qed.

Lemma bshape_same s : bshape s s = Ok s.
Proof. destruct s. unfold bshape. simpl. now rewrite !bdim_same. Qed.

(** A per-sample coefficient of shape (b, 1, 1, 1) against a tensor of batch
    size b. *)
Lemma bshape_coef_l s : bshape (Shape4 (sb s) 1 1 1) s = Ok s.
Proof.
  destruct s. unfold bshape. simpl. now rewrite bdim_same, !bdim_one_l.
Qed.

Lemma bshape_coef_r s : bshape s (Shape4 (sb s) 1 1 1) = Ok s.
Proof.
  destruct s. unfold bshape. simpl. now rewrite bdim_same, !bdim_one_r.
Qed.

Lemma bidx_in_range d i : (i < d)%nat -> bidx d i = i.
Proof.
  intros Hi. unfold bidx. destruct (Nat.eqb_spec d 1); [lia|reflexivity].
Qed.

Lemma bop_shape f x y s :
  bshape (dims x) (dims y) = Ok s ->
  bop f x y =
  Ok (Tensor s (fun i j r k =>
        f (val x (bidx (sb (dims x)) i) (bidx (sc (dims x)) j)
                 (bidx (sh (dims x)) r) (bidx (sw (dims x)) k))
          (val y (bidx (sb (dims y)) i) (bidx (sc (dims y)) j)
                 (bidx (sh (dims y)) r) (bidx (sw (dims y)) k)))).
Proof. intros H. unfold bop. now rewrite H. Qed.

(** ** [extract] *)

Lemma gather_in_range a t :
  timesteps_in_range (List.length a) t ->
  gather a t = Ok (map (fun i => nth (Z.to_nat i) a 0) t).
Proof.
  induction 1 as [|i t Hi Ht IH]; simpl; [reflexivity|].
  destruct (Z.ltb_spec i 0); [lia|].
  rewrite (nth_error_nth' a 0) by lia.
  now rewrite IH.
Qed.

Lemma gather_Ok_length a t out : gather a t = Ok out -> List.length out = List.length t.
Proof.
  revert out; induction t as [|i t IH]; simpl; intros out H.
  - now inversion H.
  - destruct (i <? 0)%Z; [discriminate|].
    destruct (nth_error a (Z.to_nat i)); [|discriminate].
    destruct (gather a t) as [o|]; [|discriminate].
    inversion H; subst; simpl. f_equal. now apply IH.
Qed.

Lemma extract_in_range a t s :
  timesteps_in_range (List.length a) t ->
  extract a t s =
  Ok (Tensor (Shape4 (List.length t) 1 1 1)
        (fun i _ _ _ => nth i (map (fun i => nth (Z.to_nat i) a 0) t) 0)).
Proof. intros H. unfold extract. now rewrite (gather_in_range a t H). Qed.

(** An index outside the vector, negative ones included, is an error of
    the runtime. *)
Lemma gather_out_of_range a t :
  ~ timesteps_in_range (List.length a) t -> gather a t = Raise RuntimeError.
Proof.
  induction t as [|i t IH]; intros Hn.
  - exfalso. apply Hn. constructor.
  - simpl. destruct (Z.ltb_spec i 0); [reflexivity|].
    destruct (nth_error a (Z.to_nat i)) as [v|] eqn:Hv; [|reflexivity].
    rewrite IH; [reflexivity|].
    intros Ht. apply Hn. constructor; [|exact Ht].
    assert (Z.to_nat i < List.length a)%nat
      by (apply nth_error_Some; congruence).
    lia.
Qed.

Lemma nth_map_coef a t i :
  (i < List.length t)%nat ->
  nth i (map (fun i => nth (Z.to_nat i) a 0) t) 0 = coef_at a t i.
Proof.
  intros Hi. unfold coef_at.
  rewrite (nth_indep _ 0 (nth (Z.to_nat 0%Z) a 0)) by (now rewrite length_map).
  now rewrite (map_nth (fun i => nth (Z.to_nat i) a 0)).
Qed.

(** The draws of one tensor sit on the tape from the position it is drawn at
    up to the position the generator is left at. *)
Lemma draw_at_bounds s pos i j r k :
  in_shape s i j r k ->
  (pos <= draw_at s pos i j r k < pos + numel s)%nat.
Proof.
  intros (Hi & Hj & Hr & Hk). unfold draw_at, numel.
  split; [lia|].
  assert (i * sc s + j + 1 <= sb s * sc s)%nat by nia.
  assert ((i * sc s + j) * sh s + r + 1 <= sb s * sc s * sh s)%nat by nia.
  assert (((i * sc s + j) * sh s + r) * sw s + k + 1
          <= sb s * sc s * sh s * sw s)%nat by nia.
  lia.
Qed.

(** ** Forward noising *)

Lemma sqrt_alphas_cumprod_length T : List.length (sqrt_alphas_cumprod T) = T.
Proof. unfold sqrt_alphas_cumprod. now rewrite length_map, alphas_cumprod_length. Qed.

Lemma sqrt_one_minus_alphas_cumprod_length T :
  List.length (sqrt_one_minus_alphas_cumprod T) = T.
Proof.
  unfold sqrt_one_minus_alphas_cumprod.
  now rewrite length_map, alphas_cumprod_length.
Qed.

Lemma sqrt_recip_alphas_length T : List.length (sqrt_recip_alphas T) = T.
Proof. unfold sqrt_recip_alphas. now rewrite length_map, alphas_length. Qed.

(** Reading a coefficient off an elementwise transform of a vector. *)
Lemma coef_at_map f a t i :
  timesteps_in_range (List.length a) t -> (i < List.length t)%nat ->
  coef_at (map f a) t i = f (coef_at a t i).
Proof.
  intros Ht Hi. unfold coef_at.
  assert (Hr : (0 <= nth i t 0 < Z.of_nat (List.length a))%Z).
  { unfold timesteps_in_range in Ht. rewrite Forall_forall in Ht.
    apply Ht. now apply nth_In. }
  rewrite (nth_indep _ 0 (f 0)) by (rewrite length_map; lia).
  apply map_nth.
Qed.

(** A coefficient tensor of shape (n, 1, 1, 1) broadcasts against a tensor of
    batch size n, and a single coefficient against any batch. *)
Lemma bshape_coef_any n s :
  n = sb s \/ n = 1%nat -> bshape (Shape4 n 1 1 1) s = Ok s.
Proof.
  intros [->| ->]; [apply bshape_coef_l|].
  destruct s. unfold bshape. simpl. now rewrite !bdim_one_l.
Qed.

Lemma bidx_lt n b i : n = b \/ n = 1%nat -> (i < b)%nat -> (bidx n i < n)%nat.
Proof.
  intros [->| ->] Hi; unfold bidx.
  - destruct (Nat.eqb_spec b 1); lia.
  - simpl. lia.
Qed.

Lemma q_sample_given tape T x0 t eps pos :
  List.length t = sb (dims x0) \/ List.length t = 1%nat ->
  timesteps_in_range T t ->
  dims eps = dims x0 ->
  exists y,
    q_sample tape T x0 t (Some eps) pos = Ok (y, pos) /\
    dims y = dims x0 /\
    forall i j r k, in_shape (dims x0) i j r k ->
      val y i j r k
      = sqrt (alpha_bar_at T t i) * val x0 i j r k
        + sqrt (1 - alpha_bar_at T t i) * val eps i j r k.
Proof.
  intros Hlen Ht Heps.
  unfold q_sample, bind, lift, ret.
  rewrite !extract_in_range
    by (rewrite ?sqrt_alphas_cumprod_length,
          ?sqrt_one_minus_alphas_cumprod_length; exact Ht).
  rewrite (bop_shape Rmult _ x0 (dims x0)) by now apply bshape_coef_any.
  rewrite (bop_shape Rmult _ eps (dims x0))
    by (rewrite Heps; now apply bshape_coef_any).
  rewrite (bop_shape Rplus _ _ (dims x0)) by apply bshape_same.
  eexists. split; [reflexivity|]. split; [reflexivity|].
  intros i j r k (Hi & Hj & Hr & Hk). cbn [val dims sb sc sh sw].
  rewrite Heps.
  rewrite !(bidx_in_range (sb (dims x0)) i), !(bidx_in_range _ j),
    !(bidx_in_range _ r), !(bidx_in_range _ k) by assumption.
  pose proof (bidx_lt _ _ i Hlen Hi) as Hb.
  rewrite !nth_map_coef by exact Hb.
  unfold sqrt_alphas_cumprod, sqrt_one_minus_alphas_cumprod, alpha_bar_at.
  rewrite !coef_at_map by (rewrite ?alphas_cumprod_length; auto).
  reflexivity.
Qed.

(** C1, as amended: for a batch x0, a timestep vector t with entries in
    [0, T) that has one entry per batch entry of x0 or a single entry, and a
    noise tensor eps of x0's shape, [q_sample] returns the tensor of x0's
    shape whose entries are
    sqrt(alpha-bar[t]) * x0 + sqrt(1 - alpha-bar[t]) * eps, the coefficients
    of a batch entry being read at that entry's timestep; with eps = 0 the
    entries are sqrt(alpha-bar[t]) * x0; and when eps is omitted the noise is
    a tensor of x0's shape holding the generator's next draws. *)
Theorem q_sample_forward_noising tape T x0 t :
  List.length t = sb (dims x0) \/ List.length t = 1%nat ->
  timesteps_in_range T t ->
  (forall eps pos, dims eps = dims x0 ->
     exists y,
       q_sample tape T x0 t (Some eps) pos = Ok (y, pos) /\
       dims y = dims x0 /\
       forall i j r k, in_shape (dims x0) i j r k ->
         val y i j r k
         = sqrt (alpha_bar_at T t i) * val x0 i j r k
           + sqrt (1 - alpha_bar_at T t i) * val eps i j r k) /\
  (forall pos,
     exists y,
       q_sample tape T x0 t (Some (zeros_like x0)) pos = Ok (y, pos) /\
       dims y = dims x0 /\
       forall i j r k, in_shape (dims x0) i j r k ->
         val y i j r k = sqrt (alpha_bar_at T t i) * val x0 i j r k) /\
  (forall pos,
     exists y,
       q_sample tape T x0 t None pos = Ok (y, (pos + numel (dims x0))%nat) /\
       dims y = dims x0 /\
       forall i j r k, in_shape (dims x0) i j r k ->
         val y i j r k
         = sqrt (alpha_bar_at T t i) * val x0 i j r k
           + sqrt (1 - alpha_bar_at T t i)
             * tape (draw_at (dims x0) pos i j r k)).
Proof.
  intros Hlen Ht. split; [|split].
  - intros eps pos Heps. now apply q_sample_given.
  - intros pos.
    destruct (q_sample_given tape T x0 t (zeros_like x0) pos Hlen Ht eq_refl)
      as (y & Hy & Hd & Hv).
    exists y. split; [exact Hy|]. split; [exact Hd|].
    intros i j r k Hin. rewrite (Hv i j r k Hin). simpl. ring.
  - intros pos.
    set (eps := Tensor (dims x0)
                  (fun i j r k => tape (draw_at (dims x0) pos i j r k))).
    destruct (q_sample_given tape T x0 t eps (pos + numel (dims x0))
                Hlen Ht eq_refl) as (y & Hy & Hd & Hv).
    exists y. split; [|split; [exact Hd|]].
    + rewrite <- Hy. reflexivity.
    + intros i j r k Hin. now rewrite (Hv i j r k Hin).
Qed.

Lemma q_sample_forward_noising_witness :
  exists y,
    q_sample (fun _ => 0) 1000 (Tensor (Shape4 2 1 1 1) (fun _ _ _ _ => 1))
      [0; 999]%Z
      (Some (zeros_like (Tensor (Shape4 2 1 1 1) (fun _ _ _ _ => 1))))
      0%nat = Ok (y, 0%nat) /\
    dims y = Shape4 2 1 1 1.
Proof.
  assert (Hr : timesteps_in_range 1000 [0; 999]%Z).
  { repeat constructor; apply Z.leb_le || apply Z.ltb_lt; reflexivity. }
  destruct (q_sample_forward_noising (fun _ => 0) 1000
              (Tensor (Shape4 2 1 1 1) (fun _ _ _ _ => 1)) [0; 999]%Z
              (or_introl eq_refl) Hr)
    as (_ & H0 & _).
  destruct (H0 0%nat) as (y & Hy & Hd & _).
  exists y. split; [exact Hy | exact Hd].
Defined.

(** C1 as stated fails: for one image, the two timesteps 0 and 999 of the
    notebook's 1000 and noise of the image's shape, [q_sample] returns a
    tensor of batch size two, which is not the image's shape. *)
Lemma q_sample_shape_counterexample :
  timesteps_in_range 1000 [0; 999]%Z /\
  dims (zeros_like single_image) = dims single_image /\
  exists y,
    q_sample (fun _ => 0) 1000 single_image [0; 999]%Z
      (Some (zeros_like single_image)) 0%nat = Ok (y, 0%nat) /\
    dims y = Shape4 2 1 1 1 /\
    dims y <> dims single_image.
Proof.
  assert (Hr : timesteps_in_range 1000 [0; 999]%Z).
  { repeat constructor; apply Z.leb_le || apply Z.ltb_lt; reflexivity. }
  split; [exact Hr|]. split; [reflexivity|].
  unfold q_sample, bind, lift, ret.
  rewrite !extract_in_range
    by (rewrite ?sqrt_alphas_cumprod_length,
          ?sqrt_one_minus_alphas_cumprod_length; exact Hr).
  rewrite (bop_shape Rmult _ single_image (Shape4 2 1 1 1)) by reflexivity.
  rewrite (bop_shape Rmult _ (zeros_like single_image) (Shape4 2 1 1 1))
    by reflexivity.
  rewrite (bop_shape Rplus _ _ (Shape4 2 1 1 1)) by reflexivity.
  eexists. split; [reflexivity|]. split; [reflexivity|]. discriminate.
Qed.

(** ** Reverse sampling *)

Lemma p_sample_result tape T model x t t_index pos e :
  List.length t = sb (dims x) ->
  timesteps_in_range T t ->
  forward model x t = Ok e ->
  dims e = dims x ->
  exists y,
    p_sample tape T model x t t_index pos
    = Ok (y, if (t_index =? 0)%Z then pos else (pos + numel (dims x))%nat) /\
    dims y = dims x /\
    forall i j r k, in_shape (dims x) i j r k ->
      val y i j r k
      = if (t_index =? 0)%Z
        then posterior_mean T t i (val x i j r k) (val e i j r k)
        else posterior_mean T t i (val x i j r k) (val e i j r k)
             + sqrt (coef_at (posterior_variance T) t i)
               * tape (draw_at (dims x) pos i j r k).
Proof.
  intros Hlen Ht He Hde.
  unfold p_sample, call, bind, lift, ret.
  rewrite !extract_in_range
    by (rewrite ?betas_length, ?sqrt_one_minus_alphas_cumprod_length,
          ?sqrt_recip_alphas_length; exact Ht).
  rewrite He, Hlen. unfold ret.
  rewrite (bop_shape Rmult _ e (dims x)) by (rewrite Hde; apply bshape_coef_l).
  rewrite (bop_shape Rdiv _ _ (dims x)) by apply bshape_coef_r.
  rewrite (bop_shape Rminus x _ (dims x)) by apply bshape_same.
  rewrite (bop_shape Rmult _ _ (dims x)) by apply bshape_coef_l.
  assert (Hcoef : forall i, (i < sb (dims x))%nat ->
    coef_at (sqrt_recip_alphas T) t i = sqrt (1 / coef_at (alphas T) t i) /\
    coef_at (sqrt_one_minus_alphas_cumprod T) t i
    = sqrt (1 - coef_at (alphas_cumprod T) t i)).
  { intros i Hi. unfold sqrt_recip_alphas, sqrt_one_minus_alphas_cumprod.
    rewrite !coef_at_map
      by (rewrite ?alphas_length, ?alphas_cumprod_length; auto; lia).
    auto. }
  destruct (t_index =? 0)%Z.
  - eexists. split; [reflexivity|]. split; [reflexivity|].
    intros i j r k (Hi & Hj & Hr & Hk). cbn [val dims sb sc sh sw].
    rewrite Hde.
    rewrite !(bidx_in_range _ i), !(bidx_in_range _ j), !(bidx_in_range _ r),
      !(bidx_in_range _ k) by assumption.
    rewrite !nth_map_coef by lia.
    destruct (Hcoef i Hi) as [-> ->]. reflexivity.
  - rewrite extract_in_range by (rewrite posterior_variance_length; exact Ht).
    unfold randn_like, randn. rewrite Hlen.
    rewrite (bop_shape Rmult _ _ (dims x)) by apply bshape_coef_l.
    rewrite (bop_shape Rplus _ _ (dims x)) by apply bshape_same.
    eexists. split; [reflexivity|]. split; [reflexivity|].
    intros i j r k (Hi & Hj & Hr & Hk). cbn [val dims sb sc sh sw tmap].
    rewrite Hde.
    rewrite !(bidx_in_range _ i), !(bidx_in_range _ j), !(bidx_in_range _ r),
      !(bidx_in_range _ k) by assumption.
    rewrite !nth_map_coef by lia.
    destruct (Hcoef i Hi) as [-> ->]. reflexivity.
Qed.

Lemma full_length b i : List.length (full b i) = b.
Proof. apply repeat_length. Qed.

Lemma full_in_range T b i : (i < T)%nat -> timesteps_in_range T (full b (Z.of_nat i)).
Proof.
  intros Hi. apply Forall_forall. intros z Hz. apply repeat_spec in Hz. lia.
Qed.

Lemma coef_at_full a b i n : (n < b)%nat -> coef_at a (full b (Z.of_nat i)) n = nth i a 0.
Proof.
  intros Hn. unfold coef_at, full.
  rewrite (nth_indep _ 0%Z (Z.of_nat i)) by (now rewrite repeat_length).
  rewrite nth_repeat. now rewrite Nat2Z.id.
Qed.

Lemma trajectory_length tape T model b steps img pos imgs pos' :
  trajectory tape T model b steps img pos imgs pos' ->
  List.length imgs = List.length steps.
Proof. induction 1; simpl; auto. Qed.

(** The loop appends to the list collected so far exactly the images of the
    trajectory, converted to arrays. *)
Lemma sampling_steps_trajectory tape T model b steps :
  forall img acc pos out pos',
    sampling_steps tape T model b steps img acc pos = Ok (out, pos') <->
    exists imgs,
      trajectory tape T model b steps img pos imgs pos' /\
      out = acc ++ map cpu_numpy imgs.
Proof.
  induction steps as [|i steps IH]; intros img acc pos out pos'; simpl.
  - unfold ret. split.
    + intros [= <- <-]. exists []. split; [constructor|now rewrite app_nil_r].
    + intros (imgs & Htr & ->). inversion Htr; subst. simpl.
      now rewrite app_nil_r.
  - unfold bind at 1.
    destruct (p_sample tape T model img (full b (Z.of_nat i)) (Z.of_nat i) pos)
      as [[img1 pos1]|e] eqn:Hp.
    + rewrite IH. split.
      * intros (imgs & Htr & ->). exists (img1 :: imgs). split.
        -- econstructor; eassumption.
        -- simpl. now rewrite <- app_assoc.
      * intros (imgs & Htr & ->). inversion Htr; subst.
        match goal with H : p_sample _ _ _ _ _ _ _ = Ok _ |- _ =>
          rewrite Hp in H; inversion H; subst end.
        eexists. split; [eassumption|]. simpl. now rewrite <- app_assoc.
    + split; [discriminate|].
      intros (imgs & Htr & _). inversion Htr; subst. congruence.
Qed.

(** With a shape-preserving model the trajectory exists for any timesteps
    inside the schedule, and every image keeps the shape. *)
Lemma trajectory_exists tape T model b steps :
  shape_preserving model ->
  Forall (fun i => (i < T)%nat) steps ->
  forall img pos, sb (dims img) = b ->
    exists imgs pos',
      trajectory tape T model b steps img pos imgs pos' /\
      Forall (fun y => dims y = dims img) imgs.
Proof.
  intros Hm. induction 1 as [|i steps Hi Hs IH]; intros img pos Hb.
  - exists [], pos. split; constructor.
  - destruct (Hm img (full b (Z.of_nat i))) as (e & He & Hde).
    destruct (p_sample_result tape T model img (full b (Z.of_nat i))
                (Z.of_nat i) pos e) as (y & Hy & Hdy & _); auto.
    { now rewrite full_length. }
    { now apply full_in_range. }
    destruct (IH y (if (Z.of_nat i =? 0)%Z then pos
                    else (pos + numel (dims img))%nat)) as (imgs & pos' & Htr & Hall).
    { now rewrite Hdy. }
    exists (y :: imgs), pos'. split.
    + econstructor; eassumption.
    + constructor; [exact Hdy|].
      eapply Forall_impl; [|exact Hall]. intros z Hz. now rewrite Hz.
Qed.

Lemma rev_seq_nth T i : (i < T)%nat -> nth i (rev (seq 0 T)) 0%nat = (T - 1 - i)%nat.
Proof.
  intros Hi. rewrite rev_nth by (now rewrite length_seq).
  rewrite length_seq, seq_nth by lia. lia.
Qed.

(** In a trajectory, the image at position [n] is what [p_sample] returns at
    the n-th timestep for the image before it (the start image for n = 0). *)
Lemma trajectory_nth tape T model b steps img pos imgs pos' :
  trajectory tape T model b steps img pos imgs pos' ->
  forall n y, nth_error imgs n = Some y ->
    exists prev i p p',
      nth_error steps n = Some i /\
      nth_error (img :: imgs) n = Some prev /\
      p_sample tape T model prev (full b (Z.of_nat i)) (Z.of_nat i) p
      = Ok (y, p').
Proof.
  induction 1 as [|i steps img pos img' pos' imgs pos'' Hp Htr IH]; intros n y Hn.
  - destruct n; discriminate.
  - destruct n as [|n].
    + simpl in Hn. inversion Hn; subst. exists img, i, pos, pos'. auto.
    + simpl in Hn. destruct (IH n y Hn) as (prev & j & p & p' & H1 & H2 & H3).
      exists prev, j, p, p'. auto.
Qed.

Lemma p_sample_loop_unfold tape T model shape pos :
  parameters model <> [] ->
  p_sample_loop tape T model shape pos
  = sampling_steps tape T model (sb shape) (rev (seq 0 T))
      (start_image tape shape pos) [] (pos + numel shape)%nat.
Proof.
  intros Hp. unfold p_sample_loop, bind, ret, raise.
  destruct (parameters model); [congruence|]. reflexivity.
Qed.

Lemma p_sample_loop_no_parameters tape T model shape pos :
  parameters model = [] ->
  p_sample_loop tape T model shape pos = Raise StopIteration.
Proof. intros Hp. unfold p_sample_loop, bind, raise. now rewrite Hp. Qed.

(** Case analysis on the innermost scrutinee of a nest of matches. *)
Ltac destruct_scrutinee X :=
  lazymatch X with
  | context [match ?Y with _ => _ end] => destruct_scrutinee Y
  | _ => destruct X
  end.

(** Whatever the model and the timesteps, a step that returns has drawn one
    tensor of the image's shape, or nothing at [t_index = 0]. *)
Lemma p_sample_position tape T model x t t_index pos y pos' :
  p_sample tape T model x t t_index pos = Ok (y, pos') ->
  pos' = if (t_index =? 0)%Z then pos else (pos + numel (dims x))%nat.
Proof.
  unfold p_sample, randn_like, randn, call, bind, lift, ret, raise.
  repeat match goal with
         | |- context [match ?X with _ => _ end] =>
             destruct_scrutinee X; cbv beta iota delta [ret raise]
         end; congruence.
Qed.

(** At [t_index = 0] [p_sample] draws no noise. *)
Lemma p_sample_last_step_no_draw tape T model x t pos y pos' :
  p_sample tape T model x t 0 pos = Ok (y, pos') -> pos' = pos.
Proof. intros H. now apply p_sample_position in H. Qed.

Lemma nth_error_rev_seq T n :
  (n < T)%nat -> nth_error (rev (seq 0 T)) n = Some (T - 1 - n)%nat.
Proof.
  intros Hn. rewrite (nth_error_nth' _ 0%nat) by (now rewrite length_rev, length_seq).
  now rewrite rev_seq_nth.
Qed.

(** What a normal return of [p_sample_loop] is: the arrays of a trajectory
    over t = T-1, ..., 0 that starts from fresh noise.  The image at
    position [n] is what [p_sample] returns at t = T-1-n for the image before
    it, and the last one is what the step at t = 0 returns, which draws no
    noise. *)
Lemma p_sample_loop_returns tape T model shape pos out pos' :
  p_sample_loop tape T model shape pos = Ok (out, pos') ->
  exists imgs,
    out = map cpu_numpy imgs /\
    List.length imgs = T /\
    trajectory tape T model (sb shape) (rev (seq 0 T))
      (start_image tape shape pos) (pos + numel shape)%nat imgs pos' /\
    (forall n y, nth_error imgs n = Some y ->
       nth_error (rev (seq 0 T)) n = Some (T - 1 - n)%nat /\
       exists prev p p',
         nth_error (start_image tape shape pos :: imgs) n = Some prev /\
         p_sample tape T model prev (full (sb shape) (Z.of_nat (T - 1 - n)))
           (Z.of_nat (T - 1 - n)) p = Ok (y, p')) /\
    (forall y, nth_error imgs (T - 1) = Some y ->
       last imgs (start_image tape shape pos) = y /\
       exists prev p,
         p_sample tape T model prev (full (sb shape) 0) 0 p = Ok (y, p)).
Proof.
  intros H.
  assert (exists imgs, out = map cpu_numpy imgs /\
            trajectory tape T model (sb shape) (rev (seq 0 T))
              (start_image tape shape pos) (pos + numel shape)%nat imgs pos')
    as (imgs & -> & Htr).
  { destruct (parameters model) as [|d ps] eqn:Hp.
    - rewrite p_sample_loop_no_parameters in H by assumption. discriminate.
    - rewrite p_sample_loop_unfold in H by congruence.
      apply sampling_steps_trajectory in H. destruct H as (imgs & Htr & ->).
      exists imgs. auto. }
  pose proof (trajectory_length _ _ _ _ _ _ _ _ _ Htr) as Hlen.
  rewrite length_rev, length_seq in Hlen.
  assert (Hnth : forall n y, nth_error imgs n = Some y ->
    nth_error (rev (seq 0 T)) n = Some (T - 1 - n)%nat /\
    exists prev p p',
      nth_error (start_image tape shape pos :: imgs) n = Some prev /\
      p_sample tape T model prev (full (sb shape) (Z.of_nat (T - 1 - n)))
        (Z.of_nat (T - 1 - n)) p = Ok (y, p')).
  { intros n y Hn.
    assert (n < T)%nat by (rewrite <- Hlen; apply nth_error_Some; congruence).
    split; [now apply nth_error_rev_seq|].
    destruct (trajectory_nth _ _ _ _ _ _ _ _ _ Htr n y Hn)
      as (prev & i & p & p' & H1 & H2 & H3).
    rewrite nth_error_rev_seq in H1 by assumption. inversion H1; subst.
    exists prev, p, p'. auto. }
  exists imgs. split; [reflexivity|]. split; [exact Hlen|].
  split; [exact Htr|]. split; [exact Hnth|].
  intros y Hy.
  assert (HT : (T - 1 < T)%nat).
  { rewrite <- Hlen at 2. apply nth_error_Some. congruence. }
  split.
  - assert (Hne : imgs <> []) by (intros ->; destruct (T - 1)%nat; discriminate).
    destruct (exists_last Hne) as (l & z & ->).
    rewrite last_last. rewrite length_app in Hlen. simpl in Hlen.
    rewrite nth_error_app2 in Hy by lia.
    replace (T - 1 - List.length l)%nat with 0%nat in Hy by lia.
    now inversion Hy.
  - destruct (Hnth _ _ Hy) as (_ & prev & p & p' & _ & Hq).
    replace (T - 1 - (T - 1))%nat with 0%nat in Hq by lia. simpl in Hq.
    pose proof (p_sample_last_step_no_draw _ _ _ _ _ _ _ _ Hq). subst.
    eauto.
Qed.

Lemma p_sample_loop_total tape T model shape pos :
  parameters model <> [] -> shape_preserving model ->
  exists imgs pos',
    p_sample_loop tape T model shape pos = Ok (map cpu_numpy imgs, pos') /\
    trajectory tape T model (sb shape) (rev (seq 0 T))
      (start_image tape shape pos) (pos + numel shape)%nat imgs pos' /\
    Forall (fun y => dims y = shape) imgs.
Proof.
  intros Hp Hm.
  destruct (trajectory_exists tape T model (sb shape) (rev (seq 0 T)) Hm)
    with (img := start_image tape shape pos) (pos := (pos + numel shape)%nat)
    as (imgs & pos' & Htr & Hall).
  { apply Forall_forall. intros i Hi. apply in_rev, in_seq in Hi. lia. }
  { reflexivity. }
  exists imgs, pos'. split; [|split; assumption].
  rewrite p_sample_loop_unfold by assumption.
  apply sampling_steps_trajectory. exists imgs. auto.
Qed.

Lemma zero_model_shape_preserving : shape_preserving zero_model.
Proof. intros x t. exists (zeros_like x). split; reflexivity. Qed.

Lemma zero_model_has_parameters : parameters zero_model <> [].
Proof. discriminate. Qed.

(** C2: [p_sample] computes the model's prediction and the posterior mean
    sqrt(1/alpha_t) * (x - beta_t * model(x, t) / sqrt(1 - alpha-bar_t)); at
    [t_index = 0] it returns the mean and draws nothing, otherwise it adds
    sqrt(posterior_variance_t) times noise freshly drawn from the generator.
    In the loop, where every batch entry has the same timestep, the
    coefficients are the schedule's entries at that timestep.  A run of
    [p_sample_loop] is a trajectory of [p_sample] steps over
    t = T-1, ..., 0 from a freshly drawn image, each step taking the image
    of the step before; its last image is the one the step at t = 0
    returns.  With a model that has parameters and keeps the shape, the run
    returns. *)
Theorem reverse_sampling_loop tape T model :
  (forall x t t_index pos e,
     List.length t = sb (dims x) ->
     timesteps_in_range T t ->
     forward model x t = Ok e ->
     dims e = dims x ->
     exists y,
       p_sample tape T model x t t_index pos
       = Ok (y, if (t_index =? 0)%Z then pos else (pos + numel (dims x))%nat) /\
       dims y = dims x /\
       forall i j r k, in_shape (dims x) i j r k ->
         val y i j r k
         = if (t_index =? 0)%Z
           then posterior_mean T t i (val x i j r k) (val e i j r k)
           else posterior_mean T t i (val x i j r k) (val e i j r k)
                + sqrt (coef_at (posterior_variance T) t i)
                  * tape (draw_at (dims x) pos i j r k)) /\
  (forall a b i n, (n < b)%nat ->
     coef_at a (full b (Z.of_nat i)) n = nth i a 0) /\
  (forall shape pos out pos',
     p_sample_loop tape T model shape pos = Ok (out, pos') ->
     exists imgs,
       out = map cpu_numpy imgs /\
       List.length imgs = T /\
       trajectory tape T model (sb shape) (rev (seq 0 T))
         (start_image tape shape pos) (pos + numel shape)%nat imgs pos' /\
       (forall n y, nth_error imgs n = Some y ->
          nth_error (rev (seq 0 T)) n = Some (T - 1 - n)%nat /\
          exists prev p p',
            nth_error (start_image tape shape pos :: imgs) n = Some prev /\
            p_sample tape T model prev (full (sb shape) (Z.of_nat (T - 1 - n)))
              (Z.of_nat (T - 1 - n)) p = Ok (y, p')) /\
       (forall y, nth_error imgs (T - 1) = Some y ->
          last imgs (start_image tape shape pos) = y /\
          exists prev p,
            p_sample tape T model prev (full (sb shape) 0) 0 p = Ok (y, p))) /\
  (parameters model <> [] -> shape_preserving model ->
   forall shape pos, exists out pos',
     p_sample_loop tape T model shape pos = Ok (out, pos')).
Proof.
  split; [|split; [|split]].
  - intros. now apply p_sample_result.
  - intros. now apply coef_at_full.
  - intros. now apply p_sample_loop_returns.
  - intros Hp Hm shape pos.
    destruct (p_sample_loop_total tape T model shape pos Hp Hm)
      as (imgs & pos' & H & _).
    eauto.
Qed.


Lemma reverse_sampling_loop_witness :
  exists out pos',
    p_sample_loop (fun _ => 0) 1000 zero_model (Shape4 16 1 28 28) 0%nat
    = Ok (out, pos').
Proof.
  destruct (reverse_sampling_loop (fun _ => 0) 1000 zero_model)
    as (_ & _ & _ & H).
  apply H.
  - exact zero_model_has_parameters.
  - exact zero_model_shape_preserving.
Defined.






(** ** Loss selection and the one explicit error *)

Lemma loss_function_known loss_type :
  known_loss_type loss_type <-> loss_function loss_type <> None.
Proof.
  unfold known_loss_type, loss_function.
  destruct (String.eqb_spec loss_type "l1"); [intuition congruence|].
  destruct (String.eqb_spec loss_type "l2"); [intuition congruence|].
  destruct (String.eqb_spec loss_type "huber"); intuition congruence.
Qed.

Lemma bind_not_NotImplemented {A B} (r : res A) (k : A -> res B) :
  not_NotImplemented r -> (forall a, not_NotImplemented (k a)) ->
  not_NotImplemented (res_bind r k).
Proof.
  unfold not_NotImplemented. intros Hr Hk. destruct r; simpl; [apply Hk|].
  congruence.
Qed.

Lemma bdim_not_NotImplemented m n : not_NotImplemented (bdim m n).
Proof.
  unfold not_NotImplemented, bdim.
  destruct (m =? n)%nat, (m =? 1)%nat, (n =? 1)%nat; discriminate.
Qed.

Lemma bshape_not_NotImplemented s1 s2 : not_NotImplemented (bshape s1 s2).
Proof.
  unfold bshape.
  repeat (apply bind_not_NotImplemented;
          [apply bdim_not_NotImplemented | intros]).
  discriminate.
Qed.

Lemma bop_not_NotImplemented f x y : not_NotImplemented (bop f x y).
Proof.
  unfold bop. apply bind_not_NotImplemented;
    [apply bshape_not_NotImplemented | discriminate].
Qed.

Lemma gather_not_NotImplemented a t : not_NotImplemented (gather a t).
Proof.
  induction t as [|i t IH]; simpl; [discriminate|].
  destruct (i <? 0)%Z; [discriminate|].
  destruct (nth_error a (Z.to_nat i)); [|discriminate].
  apply bind_not_NotImplemented; [exact IH | discriminate].
Qed.

Lemma extract_not_NotImplemented a t s : not_NotImplemented (extract a t s).
Proof.
  unfold extract. apply bind_not_NotImplemented;
    [apply gather_not_NotImplemented | discriminate].
Qed.

Lemma reduce_mean_not_NotImplemented f x y :
  not_NotImplemented (reduce_mean f x y).
Proof.
  unfold reduce_mean. apply bind_not_NotImplemented;
    [apply bop_not_NotImplemented | discriminate].
Qed.

Lemma M_bind_never {A B} (m : M A) (k : A -> M B) :
  never_NotImplemented m -> (forall a, never_NotImplemented (k a)) ->
  never_NotImplemented (bind m k).
Proof.
  intros Hm Hk pos. unfold bind. specialize (Hm pos).
  destruct (m pos) as [[a pos']|e]; [apply Hk|].
  unfold not_NotImplemented in *. congruence.
Qed.

Lemma M_lift_never {A} (r : res A) :
  not_NotImplemented r -> never_NotImplemented (lift r).
Proof.
  intros Hr pos. unfold lift, not_NotImplemented in *.
  destruct r; congruence.
Qed.

Lemma M_ret_never {A} (a : A) : never_NotImplemented (ret a).
Proof. intros pos. discriminate. Qed.

Lemma randn_never tape s : never_NotImplemented (randn tape s).
Proof. intros pos. discriminate. Qed.

Lemma call_never model x t :
  implemented model -> never_NotImplemented (call model x t).
Proof. intros Hm. apply M_lift_never, Hm. Qed.

Ltac never_NotImplemented_step :=
  first
    [ apply M_bind_never; [|intros]
    | apply call_never; assumption
    | apply M_lift_never
    | apply M_ret_never
    | apply randn_never
    | apply extract_not_NotImplemented
    | apply bop_not_NotImplemented
    | apply reduce_mean_not_NotImplemented ].

Lemma q_sample_never tape T x0 t noise :
  never_NotImplemented (q_sample tape T x0 t noise).
Proof.
  unfold q_sample, randn_like.
  destruct noise; repeat never_NotImplemented_step.
Qed.

Lemma p_sample_never tape T model x t t_index :
  implemented model ->
  never_NotImplemented (p_sample tape T model x t t_index).
Proof.
  intros Hm. unfold p_sample, randn_like.
  repeat never_NotImplemented_step.
  destruct (t_index =? 0)%Z; repeat never_NotImplemented_step.
Qed.

Lemma sampling_steps_never tape T model b steps :
  implemented model ->
  forall img imgs,
    never_NotImplemented (sampling_steps tape T model b steps img imgs).
Proof.
  intros Hm. induction steps as [|i steps IH]; intros img imgs; simpl.
  - apply M_ret_never.
  - apply M_bind_never; [now apply p_sample_never | intros; apply IH].
Qed.

Lemma p_sample_loop_never tape T model shape :
  implemented model ->
  never_NotImplemented (p_sample_loop tape T model shape).
Proof.
  intros Hm. unfold p_sample_loop.
  apply M_bind_never.
  - intros pos. destruct (parameters model); discriminate.
  - intros. apply M_bind_never; [apply randn_never|].
    intros. now apply sampling_steps_never.
Qed.

Lemma num_to_groups_never num divisor :
  not_NotImplemented (num_to_groups num divisor).
Proof.
  unfold num_to_groups, not_NotImplemented.
  destruct (divisor =? 0)%Z; [discriminate|].
  destruct (0 <? num mod divisor)%Z; discriminate.
Qed.

(** [p_losses] step by step: the noise it uses, the noised input, the
    prediction, and then the selected loss or the exception. *)
Lemma p_losses_unfold tape T model x0 t noise loss_type pos eps pos0 x_noisy pos1 pred :
  match noise with
  | None => randn_like tape x0 pos
  | Some n => Ok (n, pos)
  end = Ok (eps, pos0) ->
  q_sample tape T x0 t (Some eps) pos0 = Ok (x_noisy, pos1) ->
  forward model x_noisy t = Ok pred ->
  p_losses tape T model x0 t noise loss_type pos
  = match loss_function loss_type with
    | Some loss => match loss pred eps with
                   | Ok v => Ok (v, pos1)
                   | Raise e => Raise e
                   end
    | None => Raise NotImplementedError
    end.
Proof.
  intros Hn Hq Hf. unfold p_losses. unfold bind at 1.
  replace (match noise with
           | Some n => ret n
           | None => randn_like tape x0
           end pos) with (Ok (eps, pos0))
    by (rewrite <- Hn; destruct noise; reflexivity).
  unfold bind at 1. rewrite Hq.
  unfold call, bind, lift. rewrite Hf. unfold ret, loss_function, raise.
  destruct (String.eqb loss_type "l1"); [reflexivity|].
  destruct (String.eqb loss_type "l2"); [reflexivity|].
  destruct (String.eqb loss_type "huber"); reflexivity.
Qed.

Lemma p_losses_NotImplemented_only_if tape T model x0 t noise loss_type pos :
  implemented model ->
  p_losses tape T model x0 t noise loss_type pos = Raise NotImplementedError ->
  ~ known_loss_type loss_type.
Proof.
  intros Hm H Hk. apply loss_function_known in Hk.
  revert H. unfold p_losses.
  assert (Hloss : never_NotImplemented
    (fun pos : nat => @Raise (R * nat) RuntimeError)) by (intros p; discriminate).
  apply M_bind_never.
  - destruct noise; [apply M_ret_never | apply randn_never].
  - intros eps. apply M_bind_never; [apply q_sample_never|].
    intros x_noisy. apply M_bind_never; [now apply call_never|].
    intros pred. unfold loss_function in Hk.
    destruct (String.eqb loss_type "l1");
      [apply M_lift_never, reduce_mean_not_NotImplemented|].
    destruct (String.eqb loss_type "l2");
      [apply M_lift_never, reduce_mean_not_NotImplemented|].
    destruct (String.eqb loss_type "huber");
      [apply M_lift_never, reduce_mean_not_NotImplemented|].
    congruence.
Qed.

Lemma sum_upto_ext n f g :
  (forall i, (i < n)%nat -> f i = g i) -> sum_upto n f = sum_upto n g.
Proof.
  intros H. unfold sum_upto.
  assert (Hs : forall i, In i (seq 0 n) -> f i = g i)
    by (intros i Hi; apply H; apply in_seq in Hi; lia).
  induction (seq 0 n) as [|a l IH]; simpl; [reflexivity|].
  rewrite Hs by (now left). rewrite IH; [reflexivity|].
  intros i Hi. apply Hs. now right.
Qed.

(** On tensors of one shape the library's loss is the mean over all entries
    of the entrywise loss. *)
Lemma reduce_mean_same_shape f x y :
  dims x = dims y ->
  reduce_mean f x y
  = Ok (tmean (Tensor (dims x) (fun i j r k => f (val x i j r k) (val y i j r k)))).
Proof.
  intros Hd. unfold reduce_mean.
  rewrite (bop_shape f x y (dims x)) by (rewrite <- Hd; apply bshape_same).
  simpl. f_equal. unfold tmean, tsum. cbn [dims val]. f_equal.
  rewrite <- Hd.
  apply sum_upto_ext; intros i Hi. apply sum_upto_ext; intros j Hj.
  apply sum_upto_ext; intros r Hr. apply sum_upto_ext; intros k Hk.
  now rewrite !(bidx_in_range _ i), !(bidx_in_range _ j),
    !(bidx_in_range _ r), !(bidx_in_range _ k).
Qed.

(** *** No layer of the U-Net raises [NotImplementedError] *)

Create HintDb not_ni.

#[local] Hint Resolve bdim_not_NotImplemented bshape_not_NotImplemented
  : not_ni.

Ltac solve_not_ni :=
  repeat first
    [ progress intros
    | match goal with
      | |- not_NotImplemented (Ok _) => discriminate
      | |- not_NotImplemented (Raise _) => discriminate
      | |- not_NotImplemented (res_bind _ _) => apply bind_not_NotImplemented
      | |- not_NotImplemented (if ?c then _ else _) => destruct c
      | |- not_NotImplemented (match ?c with _ => _ end) => destruct c
      end
    | solve [auto with not_ni] ].

Lemma Conv2d_forward_never m x : not_NotImplemented (Conv2d_forward m x).
Proof. unfold Conv2d_forward. solve_not_ni. Qed.

Lemma GroupNorm_init_never g c : not_NotImplemented (GroupNorm_init g c).
Proof. unfold GroupNorm_init. solve_not_ni. Qed.

Lemma GroupNorm_forward_never m x : not_NotImplemented (GroupNorm_forward m x).
Proof. unfold GroupNorm_forward. solve_not_ni. Qed.

Lemma Linear_forward_never m x : not_NotImplemented (Linear_forward m x).
Proof. unfold Linear_forward. solve_not_ni. Qed.

Lemma cat1_never x y : not_NotImplemented (cat1 x y).
Proof. unfold cat1. solve_not_ni. Qed.

#[local] Hint Resolve Conv2d_forward_never GroupNorm_init_never
  GroupNorm_forward_never Linear_forward_never cat1_never : not_ni.

Lemma Resample_forward_never m x : not_NotImplemented (Resample_forward m x).
Proof.
  unfold Resample_forward, Rearrange_space_to_depth, nn_Upsample. solve_not_ni.
Qed.

Lemma SinusoidalPositionEmbeddings_forward_never m n :
  not_NotImplemented (SinusoidalPositionEmbeddings_forward m n).
Proof. unfold SinusoidalPositionEmbeddings_forward. solve_not_ni. Qed.

Lemma Block_init_never d d' g : not_NotImplemented (Block_init d d' g).
Proof. unfold Block_init. solve_not_ni. Qed.

Lemma Block_forward_never m x ss : not_NotImplemented (Block_forward m x ss).
Proof. unfold Block_forward. solve_not_ni. Qed.

#[local] Hint Resolve Resample_forward_never
  SinusoidalPositionEmbeddings_forward_never Block_init_never
  Block_forward_never : not_ni.

Lemma ResnetBlock_init_never d d' td g :
  not_NotImplemented (ResnetBlock_init d d' td g).
Proof. unfold ResnetBlock_init. solve_not_ni. Qed.

Lemma ResnetBlock_forward_never m x te :
  not_NotImplemented (ResnetBlock_forward m x te).
Proof. unfold ResnetBlock_forward. solve_not_ni. Qed.

Lemma attention_layer_never d : not_NotImplemented (attention_layer d).
Proof. unfold attention_layer, PreNorm_init. solve_not_ni. Qed.

Lemma Residual_forward_never m x : not_NotImplemented (Residual_forward m x).
Proof.
  unfold Residual_forward, PreNorm_forward, Attention_forward. solve_not_ni.
Qed.

#[local] Hint Resolve ResnetBlock_init_never ResnetBlock_forward_never
  attention_layer_never Residual_forward_never : not_ni.

Lemma res_map_never {A B} (f : A -> res B) l :
  (forall a, not_NotImplemented (f a)) -> not_NotImplemented (res_map f l).
Proof. intros Hf. induction l; simpl; solve_not_ni. Qed.

Lemma Unet_init_never a : not_NotImplemented (Unet_init a).
Proof.
  unfold Unet_init. solve_not_ni; apply res_map_never; solve_not_ni.
Qed.

Lemma down_path_never stages t :
  forall x h, not_NotImplemented (down_path stages t x h).
Proof. induction stages; intros; simpl; solve_not_ni. Qed.

Lemma up_path_never stages t :
  forall x h, not_NotImplemented (up_path stages t x h).
Proof. induction stages; intros; simpl; unfold pop; solve_not_ni. Qed.

#[local] Hint Resolve down_path_never up_path_never : not_ni.

Lemma Unet_forward_never u x time x_self_cond :
  not_NotImplemented (Unet_forward u x time x_self_cond).
Proof. unfold Unet_forward, time_mlp. solve_not_ni. Qed.

(** C6, as amended: [p_losses] first noises the batch and calls the model,
    and whatever these raise it raises, whatever the selector.  Once both
    have succeeded, it raises [NotImplementedError] exactly for a selector
    other than 'l1', 'l2' and 'huber', and returns what [F.l1_loss],
    [F.mse_loss] and [F.smooth_l1_loss] return for the three.  On a batch
    with one timestep in [0, T) per entry, noise of the batch's shape (if
    given) and a model that keeps the shape they do succeed, and the three
    losses are the mean absolute, mean squared and mean Huber difference
    between predicted and injected noise.  With a model that does not raise
    [NotImplementedError] itself, [p_losses] raises it only for an unknown
    selector, and no other modelled function of the notebook raises it. *)
Theorem p_losses_error_condition tape T model x0 t noise loss_type pos :
  (implemented model ->
   p_losses tape T model x0 t noise loss_type pos = Raise NotImplementedError ->
   ~ known_loss_type loss_type) /\
  (forall eps pos0 x_noisy pos1 pred,
     match noise with
     | None => randn_like tape x0 pos
     | Some n => Ok (n, pos)
     end = Ok (eps, pos0) ->
     q_sample tape T x0 t (Some eps) pos0 = Ok (x_noisy, pos1) ->
     forward model x_noisy t = Ok pred ->
     (p_losses tape T model x0 t noise loss_type pos = Raise NotImplementedError
      <-> ~ known_loss_type loss_type) /\
     (loss_type = "l1"%string ->
      p_losses tape T model x0 t noise loss_type pos
      = lift (l1_loss pred eps) pos1) /\
     (loss_type = "l2"%string ->
      p_losses tape T model x0 t noise loss_type pos
      = lift (mse_loss pred eps) pos1) /\
     (loss_type = "huber"%string ->
      p_losses tape T model x0 t noise loss_type pos
      = lift (smooth_l1_loss pred eps) pos1)) /\
  (forall eps pos0 e,
     match noise with
     | None => randn_like tape x0 pos
     | Some n => Ok (n, pos)
     end = Ok (eps, pos0) ->
     (q_sample tape T x0 t (Some eps) pos0 = Raise e \/
      exists x_noisy pos1,
        q_sample tape T x0 t (Some eps) pos0 = Ok (x_noisy, pos1) /\
        forward model x_noisy t = Raise e) ->
     p_losses tape T model x0 t noise loss_type pos = Raise e) /\
  (List.length t = sb (dims x0) ->
   timesteps_in_range T t ->
   (forall n, noise = Some n -> dims n = dims x0) ->
   shape_preserving model ->
   exists eps pos1 x_noisy pred,
     eps = match noise with
           | Some n => n
           | None => start_image tape (dims x0) pos
           end /\
     pos1 = match noise with
            | Some _ => pos
            | None => (pos + numel (dims x0))%nat
            end /\
     q_sample tape T x0 t (Some eps) pos1 = Ok (x_noisy, pos1) /\
     forward model x_noisy t = Ok pred /\
     (~ known_loss_type loss_type ->
      p_losses tape T model x0 t noise loss_type pos
      = Raise NotImplementedError) /\
     (loss_type = "l1"%string ->
      p_losses tape T model x0 t noise loss_type pos
      = Ok (mean_loss (fun a b => Rabs (a - b)) pred eps, pos1)) /\
     (loss_type = "l2"%string ->
      p_losses tape T model x0 t noise loss_type pos
      = Ok (mean_loss (fun a b => (a - b) * (a - b)) pred eps, pos1)) /\
     (loss_type = "huber"%string ->
      p_losses tape T model x0 t noise loss_type pos
      = Ok (mean_loss huber pred eps, pos1))) /\
  ((forall x t n, never_NotImplemented (q_sample tape T x t n)) /\
   (forall m x t i,
      implemented m -> never_NotImplemented (p_sample tape T m x t i)) /\
   (forall m s,
      implemented m -> never_NotImplemented (p_sample_loop tape T m s)) /\
   (forall n d, not_NotImplemented (num_to_groups n d)) /\
   (forall a, not_NotImplemented (Unet_init a)) /\
   (forall u x time sc, not_NotImplemented (Unet_forward u x time sc))).
Proof.
  split; [apply p_losses_NotImplemented_only_if|]. split; [|split; [|split]].
  - intros eps pos0 x_noisy pos1 pred Hdraw Hq Hf.
    pose proof (p_losses_unfold tape T model x0 t noise loss_type pos
                  eps pos0 x_noisy pos1 pred Hdraw Hq Hf) as Hp.
    split; [|split; [|split]].
    + rewrite Hp. split.
      * intros H Hk. unfold loss_function in H.
        destruct Hk as [-> | [-> | ->]]; cbn in H;
          unfold l1_loss, mse_loss, smooth_l1_loss in H;
          match type of H with
          | context [reduce_mean ?f pred eps] =>
              pose proof (reduce_mean_not_NotImplemented f pred eps) as Hr;
              destruct (reduce_mean f pred eps) as [v|e];
              [discriminate | inversion H; subst e; now apply Hr]
          end.
      * intros Hk.
        destruct (loss_function loss_type) eqn:Hl; [|reflexivity].
        exfalso. apply Hk, loss_function_known. congruence.
    + intros ->. rewrite Hp. reflexivity.
    + intros ->. rewrite Hp. reflexivity.
    + intros ->. rewrite Hp. reflexivity.
  - intros eps pos0 e Hdraw Hfail. unfold p_losses. unfold bind at 1.
    replace (match noise with
             | Some n => ret n
             | None => randn_like tape x0
             end pos) with (Ok (eps, pos0))
      by (rewrite <- Hdraw; destruct noise; reflexivity).
    unfold bind at 1.
    destruct Hfail as [Hq | (x_noisy & pos1 & Hq & Hf)]; rewrite Hq;
      [reflexivity|].
    unfold bind at 1, call, lift. now rewrite Hf.
  - intros Hlen Ht Hn Hm.
    set (eps := match noise with
                | Some n => n
                | None => start_image tape (dims x0) pos
                end).
    set (pos1 := match noise with
                 | Some _ => pos
                 | None => (pos + numel (dims x0))%nat
                 end).
    assert (Heps : dims eps = dims x0).
    { unfold eps. destruct noise as [n|]; [now apply Hn | reflexivity]. }
    destruct (q_sample_given tape T x0 t eps pos1 (or_introl Hlen) Ht Heps)
      as (x_noisy & Hq & Hdx & _).
    destruct (Hm x_noisy t) as (pred & Hf & Hdp).
    assert (Hdraw : match noise with
                    | None => randn_like tape x0 pos
                    | Some n => Ok (n, pos)
                    end = Ok (eps, pos1)).
    { unfold eps, pos1. destruct noise; reflexivity. }
    pose proof (p_losses_unfold tape T model x0 t noise loss_type pos
                  eps pos1 x_noisy pos1 pred Hdraw Hq Hf) as Hp.
    assert (Hd : dims pred = dims eps) by congruence.
    exists eps, pos1, x_noisy, pred.
    split; [reflexivity|]. split; [reflexivity|].
    split; [exact Hq|]. split; [exact Hf|].
    split; [|split; [|split]].
    + intros Hk. rewrite Hp.
      destruct (loss_function loss_type) eqn:Hl; [|reflexivity].
      exfalso. apply Hk, loss_function_known. congruence.
    + intros ->. rewrite Hp. cbn. unfold l1_loss.
      now rewrite reduce_mean_same_shape.
    + intros ->. rewrite Hp. cbn. unfold mse_loss.
      now rewrite reduce_mean_same_shape.
    + intros ->. rewrite Hp. cbn. unfold smooth_l1_loss.
      now rewrite reduce_mean_same_shape.
  - split; [intros; apply q_sample_never|].
    split; [intros; now apply p_sample_never|].
    split; [intros; now apply p_sample_loop_never|].
    split; [intros; apply num_to_groups_never|].
    split; [intros; apply Unet_init_never|].
    intros; apply Unet_forward_never.
Qed.

Lemma p_losses_error_condition_witness :
  exists eps pred,
    p_losses (fun _ => 0) 1000 zero_model
      (Tensor (Shape4 2 1 1 1) (fun _ _ _ _ => 1)) [0; 999]%Z None "huber"
      0%nat
    = Ok (mean_loss huber pred eps, 2%nat).
Proof.
  assert (Hr : timesteps_in_range 1000 [0; 999]%Z).
  { repeat constructor; apply Z.leb_le || apply Z.ltb_lt; reflexivity. }
  destruct (p_losses_error_condition (fun _ => 0) 1000 zero_model
              (Tensor (Shape4 2 1 1 1) (fun _ _ _ _ => 1)) [0; 999]%Z None
              "huber" 0%nat) as (_ & _ & _ & H & _).
  destruct (H eq_refl Hr ltac:(discriminate) zero_model_shape_preserving)
    as (eps & pos1 & x_noisy & pred & _ & Hpos & _ & _ & _ & _ & _ & Hh).
  exists eps, pred. rewrite (Hh eq_refl). now rewrite Hpos.
Defined.

(** C6 as stated fails: a timestep outside the schedule makes [p_losses]
    raise the runtime's error in the noising, before the selector is
    looked at; so the unknown selector 'foo' does not give
    [NotImplementedError], and the selector 'l1' does not return. *)
Lemma p_losses_selector_counterexample :
  ~ known_loss_type "foo" /\
  p_losses (fun _ => 0) 1000 zero_model single_image [1000]%Z None "foo" 0%nat
  = Raise RuntimeError /\
  RuntimeError <> NotImplementedError /\
  known_loss_type "l1" /\
  p_losses (fun _ => 0) 1000 zero_model single_image [1000]%Z None "l1" 0%nat
  = Raise RuntimeError.
Proof.
  assert (Hq : forall eps pos,
            q_sample (fun _ => 0) 1000 single_image [1000]%Z (Some eps) pos
            = Raise RuntimeError).
  { intros eps pos. unfold q_sample, bind, lift, ret, extract.
    rewrite gather_out_of_range; [reflexivity|].
    rewrite sqrt_alphas_cumprod_length. intros H.
    inversion H as [|? ? Hr _]. lia. }
  assert (Hp : forall loss_type,
            p_losses (fun _ => 0) 1000 zero_model single_image [1000]%Z None
              loss_type 0%nat = Raise RuntimeError).
  { intros loss_type. unfold p_losses. unfold bind at 1.
    unfold randn_like, randn. unfold bind at 1. now rewrite Hq. }
  split; [|split; [apply Hp | split; [discriminate | split; [|apply Hp]]]].
  - intros [H | [H | H]]; discriminate.
  - left. reflexivity.
Qed.

(** ** The U-Net's output shape *)

Lemma res_bind_Ok {A B} (r : res A) (k : A -> res B) b :
  res_bind r k = Ok b -> exists a, r = Ok a /\ k a = Ok b.
Proof. destruct r; simpl; [eauto|discriminate]. Qed.

(** Invert a chain of binds that ends in [Ok]. *)
Ltac res_inv H :=
  repeat match type of H with
         | res_bind _ _ = Ok _ =>
             let a := fresh "v" in
             let Ha := fresh "E" in
             apply res_bind_Ok in H; destruct H as (a & Ha & H);
             cbv beta in H
         end.

Lemma bdim_Ok m n b :
  bdim m n = Ok b -> (m = n /\ b = m) \/ (m = 1%nat /\ b = n) \/ (n = 1%nat /\ b = m).
Proof.
  unfold bdim.
  destruct (Nat.eqb_spec m n); [intros [= <-]; auto|].
  destruct (Nat.eqb_spec m 1); [intros [= <-]; auto|].
  destruct (Nat.eqb_spec n 1); [intros [= <-]; auto|discriminate].
Qed.

Lemma bshape_Ok s1 s2 s :
  bshape s1 s2 = Ok s ->
  bdim (sb s1) (sb s2) = Ok (sb s) /\ bdim (sc s1) (sc s2) = Ok (sc s) /\
  bdim (sh s1) (sh s2) = Ok (sh s) /\ bdim (sw s1) (sw s2) = Ok (sw s).
Proof.
  unfold bshape. intros H. res_inv H. inversion H; subst; simpl. auto.
Qed.

Lemma bdim_one_r_Ok m b : bdim m 1 = Ok b -> b = m.
Proof. rewrite bdim_one_r. now intros [= <-]. Qed.

Lemma Conv2d_forward_Ok m x y :
  Conv2d_forward m x = Ok y ->
  sc x = in_channels m /\
  y = Shape4 (sb x) (out_channels m)
        (sh x + 2 * padding m - kernel_size m + 1)
        (sw x + 2 * padding m - kernel_size m + 1) /\
  (kernel_size m <= sh x + 2 * padding m)%nat /\
  (kernel_size m <= sw x + 2 * padding m)%nat.
Proof.
  unfold Conv2d_forward.
  destruct (out_channels m =? 0)%nat; [discriminate|].
  destruct (Nat.eqb_spec (sc x) (in_channels m)); cbn [negb]; [|discriminate].
  destruct (Nat.ltb_spec (sh x + 2 * padding m) (kernel_size m)); [discriminate|].
  destruct (Nat.ltb_spec (sw x + 2 * padding m) (kernel_size m)); [discriminate|].
  intros [= <-]. auto.
Qed.

(** A convolution whose padding makes up for its kernel keeps the batch size,
    height and width. *)
Lemma Conv2d_same_size m x y :
  (kernel_size m = 2 * padding m + 1)%nat ->
  Conv2d_forward m x = Ok y ->
  y = Shape4 (sb x) (out_channels m) (sh x) (sw x) /\ sc x = in_channels m.
Proof.
  intros Hk H. apply Conv2d_forward_Ok in H. destruct H as (Hc & -> & Hh & Hw).
  split; [|exact Hc]. f_equal; lia.
Qed.

Lemma GroupNorm_forward_Ok m x y : GroupNorm_forward m x = Ok y -> y = x.
Proof.
  unfold GroupNorm_forward.
  destruct (sb x * sc x / num_groups m * sh x * sw x =? 1)%nat; [discriminate|].
  destruct (sc x =? num_channels m)%nat; congruence.
Qed.

Lemma nn_Upsample_Ok x y :
  nn_Upsample x = Ok y -> y = Shape4 (sb x) (sc x) (2 * sh x) (2 * sw x).
Proof.
  unfold nn_Upsample. destruct (sc x * sh x * sw x =? 0)%nat;
    [discriminate | now intros [= <-]].
Qed.

Lemma cat1_Ok x s y :
  cat1 x s = Ok y ->
  y = Shape4 (sb x) (sc x + sc s) (sh x) (sw x) /\
  sb s = sb x /\ sh s = sh x /\ sw s = sw x.
Proof.
  unfold cat1.
  destruct (Nat.eqb_spec (sb x) (sb s)), (Nat.eqb_spec (sh x) (sh s)),
    (Nat.eqb_spec (sw x) (sw s)); simpl; try discriminate.
  intros [= <-]. auto.
Qed.

Lemma Resample_forward_batch m x y : Resample_forward m x = Ok y -> sb y = sb x.
Proof.
  destruct m as [conv|conv|conv]; cbn [Resample_forward]; intros H.
  - apply res_bind_Ok in H. destruct H as (x1 & E & H).
    apply Conv2d_forward_Ok in H. destruct H as (_ & -> & _). simpl.
    unfold Rearrange_space_to_depth in E.
    destruct ((sh x mod 2 =? 0) && (sw x mod 2 =? 0))%nat; [|discriminate].
    now inversion E.
  - apply res_bind_Ok in H. destruct H as (x1 & E & H).
    apply Conv2d_forward_Ok in H. destruct H as (_ & -> & _). simpl.
    apply nn_Upsample_Ok in E. now subst.
  - apply Conv2d_forward_Ok in H. now destruct H as (_ & -> & _).
Qed.

Lemma Block_init_Ok dim dim_out groups m :
  Block_init dim dim_out groups = Ok m ->
  proj m = {| in_channels := dim; out_channels := dim_out;
              kernel_size := 3; padding := 1 |}.
Proof.
  unfold Block_init. intros H.
  apply res_bind_Ok in H. destruct H as (n & _ & H). now inversion H.
Qed.

(** A block of the U-Net without scale and shift: the shape its convolution
    gives. *)
Lemma Block_forward_plain dim dim_out groups m x y :
  Block_init dim dim_out groups = Ok m ->
  Block_forward m x None = Ok y ->
  y = Shape4 (sb x) dim_out (sh x) (sw x) /\ sc x = dim.
Proof.
  intros Hi H. apply Block_init_Ok in Hi. unfold Block_forward in H.
  apply res_bind_Ok in H. destruct H as (x1 & E1 & H).
  apply res_bind_Ok in H. destruct H as (x2 & E2 & H).
  apply Conv2d_same_size in E1; [|rewrite Hi; reflexivity].
  rewrite Hi in E1. destruct E1 as (-> & Hc).
  apply GroupNorm_forward_Ok in E2. subst. now inversion H.
Qed.

(** With scale and shift of shape (bt, dim_out, 1, 1): only the batch size
    can change, by broadcasting against bt twice. *)
Lemma Block_forward_scaled dim dim_out groups m x bt y :
  Block_init dim dim_out groups = Ok m ->
  Block_forward m x
    (Some (Shape4 bt dim_out 1 1, Shape4 bt dim_out 1 1)) = Ok y ->
  exists b1,
    bdim (sb x) bt = Ok b1 /\ bdim b1 bt = Ok (sb y) /\
    sc y = dim_out /\ sh y = sh x /\ sw y = sw x /\ sc x = dim.
Proof.
  intros Hi H. apply Block_init_Ok in Hi. unfold Block_forward in H.
  apply res_bind_Ok in H. destruct H as (x1 & E1 & H).
  apply res_bind_Ok in H. destruct H as (x2 & E2 & H).
  apply res_bind_Ok in H. destruct H as (x3 & E3 & H).
  apply Conv2d_same_size in E1; [|rewrite Hi; reflexivity].
  rewrite Hi in E1. destruct E1 as (-> & Hc).
  apply GroupNorm_forward_Ok in E2. subst x2.
  apply bshape_Ok in E3. apply bshape_Ok in H. cbn [sb sc sh sw] in *.
  destruct E3 as (B3 & C3 & H3 & W3), H as (B & C & Hh & Hw).
  rewrite bdim_same in C3. inversion C3 as [C3']. rewrite <- C3' in C.
  rewrite bdim_same in C. inversion C.
  apply bdim_one_r_Ok in H3, W3. rewrite H3 in Hh. rewrite W3 in Hw.
  apply bdim_one_r_Ok in Hh, Hw.
  exists (sb x3). simpl in Hc. repeat split; congruence.
Qed.

(** A ResNet block of the U-Net, given the time embedding [t]. *)
Lemma ResnetBlock_forward_built dim_out m x t y :
  built_block dim_out m ->
  ResnetBlock_forward m x (Some t) = Ok y ->
  sh y = sh x /\ sw y = sw x /\ sc y = dim_out /\
  absorbs_time (rows t) (sb y) /\
  (absorbs_time (rows t) (sb x) -> sb y = sb x).
Proof.
  intros (dim & time_dim & groups & Hi) H.
  unfold ResnetBlock_init in Hi.
  apply res_bind_Ok in Hi. destruct Hi as (b1 & Hb1 & Hi).
  apply res_bind_Ok in Hi. destruct Hi as (b2 & Hb2 & Hi).
  inversion Hi; subst m; clear Hi.
  unfold ResnetBlock_forward in H. cbn [mlp block1 block2 res_conv] in H.
  apply res_bind_Ok in H. destruct H as (ss & Ess & H).
  apply res_bind_Ok in Ess. destruct Ess as (te & Ete & Ess).
  unfold Linear_forward in Ete. cbn [in_features out_features] in Ete.
  destruct (feats t =? time_dim)%nat; [|discriminate].
  inversion Ete; subst te; clear Ete. cbn [rows feats] in Ess.
  rewrite Nat.div_mul in Ess by discriminate.
  inversion Ess; subst ss; clear Ess.
  apply res_bind_Ok in H. destruct H as (h1 & E1 & H).
  apply res_bind_Ok in H. destruct H as (h2 & E2 & H).
  apply res_bind_Ok in H. destruct H as (x' & E3 & H).
  destruct (Block_forward_scaled _ _ _ _ _ _ _ Hb1 E1)
    as (c1 & B1 & B2 & C1 & H1 & W1 & Cx).
  destruct (Block_forward_plain _ _ _ _ _ _ Hb2 E2) as (-> & _).
  assert (Hx' : sb x' = sb x /\ sh x' = sh x /\ sw x' = sw x /\ sc x' = dim_out).
  { destruct (Nat.eqb_spec dim dim_out).
    - inversion E3; subst x'. repeat split; congruence.
    - apply Conv2d_same_size in E3; [|reflexivity].
      destruct E3 as (-> & _). simpl. auto. }
  destruct Hx' as (Bx & Hx & Wx & Cx').
  apply bshape_Ok in H. cbn [sb sc sh sw] in H.
  destruct H as (B & C & Hh & Hw).
  rewrite Bx in B. rewrite Cx', bdim_same in C. rewrite Hx, H1, bdim_same in Hh.
  rewrite Wx, W1, bdim_same in Hw.
  inversion C; inversion Hh; inversion Hw.
  repeat split; auto.
  - apply bdim_Ok in B1, B2, B. unfold absorbs_time. lia.
  - apply bdim_Ok in B1, B2, B. unfold absorbs_time. lia.
Qed.

(** Attention with its residual connection returns the shape it is given. *)
Lemma Residual_forward_built m x y :
  built_attention m -> Residual_forward m x = Ok y -> y = x.
Proof.
  intros (dim & Hi) H. unfold attention_layer, PreNorm_init in Hi.
  apply res_bind_Ok in Hi. destruct Hi as (p & Hp & Hi).
  apply res_bind_Ok in Hp. destruct Hp as (n & _ & Hp).
  inversion Hp; subst p; clear Hp. inversion Hi; subst m; clear Hi.
  unfold Residual_forward, PreNorm_forward in H. cbn [fn pn_fn pn_norm] in H.
  apply res_bind_Ok in H. destruct H as (y1 & E1 & H).
  apply res_bind_Ok in E1. destruct E1 as (x1 & E0 & E1).
  apply GroupNorm_forward_Ok in E0. subst x1.
  unfold Attention_forward, Attention_init in E1. cbn [to_qkv to_out] in E1.
  apply res_bind_Ok in E1. destruct E1 as (qkv & Eq & E1).
  apply Conv2d_same_size in Eq; [|reflexivity].
  destruct Eq as (-> & Hc). cbn [sb sc sh sw out_channels in_channels] in *.
  apply Conv2d_same_size in E1; [|reflexivity].
  destruct E1 as (-> & _). cbn [sb sc sh sw out_channels] in H.
  assert (Hx : Shape4 (sb x) dim (sh x) (sw x) = x)
    by (destruct x; simpl in *; congruence).
  rewrite Hx, bshape_same in H. now inversion H.
Qed.

(** The second loop keeps a batch size that absorbs the time embedding. *)
Lemma up_path_batch stages t :
  Forall built_stage stages ->
  forall x h y,
    absorbs_time (rows t) (sb x) ->
    up_path stages t x h = Ok y ->
    absorbs_time (rows t) (sb y).
Proof.
  induction 1 as [|s stages (_ & (d2 & Hb2) & Hat) Hs IH]; intros x h y Hx H.
  - simpl in H. inversion H; subst. exact Hx.
  - cbn [up_path] in H.
    apply res_bind_Ok in H. destruct H as ([skip1 h1] & _ & H).
    apply res_bind_Ok in H. destruct H as (x1 & _ & H).
    apply res_bind_Ok in H. destruct H as (x2 & _ & H).
    apply res_bind_Ok in H. destruct H as ([skip2 h2] & _ & H).
    apply res_bind_Ok in H. destruct H as (x3 & _ & H).
    apply res_bind_Ok in H. destruct H as (x4 & E4 & H).
    apply res_bind_Ok in H. destruct H as (x5 & E5 & H).
    apply res_bind_Ok in H. destruct H as (x6 & E6 & H).
    apply (ResnetBlock_forward_built _ _ _ _ _ Hb2) in E4.
    destruct E4 as (_ & _ & _ & Ha & _).
    apply (Residual_forward_built _ _ _ Hat) in E5. subst x5.
    apply Resample_forward_batch in E6.
    apply (IH x6 h2 y); [|exact H]. now rewrite E6.
Qed.

Lemma res_map_Forall {A B} (f : A -> res B) (P : B -> Prop) l :
  (forall a b, f a = Ok b -> P b) ->
  forall l', res_map f l = Ok l' -> Forall P l'.
Proof.
  intros Hf. induction l as [|a l IH]; intros l' H; simpl in H.
  - inversion H. constructor.
  - apply res_bind_Ok in H. destruct H as (b & Eb & H).
    apply res_bind_Ok in H. destruct H as (bs & Ebs & H).
    inversion H; subst. constructor; eauto.
Qed.

(** What the constructor guarantees about the layers the proof looks at. *)
Lemma Unet_init_Ok a u :
  Unet_init a = Ok u ->
  self_condition u = a_self_condition a /\
  init_conv u = {| in_channels :=
                     a_channels a * (if a_self_condition a then 2 else 1);
                   out_channels := default (a_init_dim a) (a_dim a);
                   kernel_size := 1; padding := 0 |} /\
  (exists d, built_block d (mid_block2 u)) /\
  Forall built_stage (ups u) /\
  built_block (a_dim a) (final_res_block u) /\
  out_dim u = default (a_out_dim a) (a_channels a) /\
  final_conv u = {| in_channels := a_dim a;
                    out_channels := default (a_out_dim a) (a_channels a);
                    kernel_size := 1; padding := 0 |}.
Proof.
  unfold Unet_init. intros H.
  apply res_bind_Ok in H. destruct H as (dn & _ & H).
  apply res_bind_Ok in H. destruct H as (mb1 & _ & H).
  apply res_bind_Ok in H. destruct H as (mattn & _ & H).
  apply res_bind_Ok in H. destruct H as (mb2 & Emb2 & H).
  apply res_bind_Ok in H. destruct H as (up & Eup & H).
  apply res_bind_Ok in H. destruct H as (frb & Efrb & H).
  inversion H; subst u; clear H. cbn.
  split; [reflexivity|]. split; [reflexivity|].
  split; [eexists; repeat eexists; exact Emb2|].
  split.
  { eapply res_map_Forall; [|exact Eup].
    intros [ind [dim_in dim_out]] s Hs.
    apply res_bind_Ok in Hs. destruct Hs as (b1 & Eb1 & Hs).
    apply res_bind_Ok in Hs. destruct Hs as (b2 & Eb2 & Hs).
    apply res_bind_Ok in Hs. destruct Hs as (at_ & Eat & Hs).
    inversion Hs; subst s; clear Hs. unfold built_stage; cbn.
    split; [eexists; repeat eexists; exact Eb1|].
    split; [eexists; repeat eexists; exact Eb2|].
    eexists; exact Eat. }
  split; [repeat eexists; exact Efrb|].
  split; reflexivity.
Qed.

(** C7, as amended: whatever the depth configuration and the other
    constructor arguments, an output of [Unet.forward] has the batch size,
    height and width of the input image, and [out_dim] channels, which is the
    constructor's [channels] when [out_dim] is omitted.  It has the shape of
    the input image when [out_dim] is omitted and no self-conditioning image
    with another channel count is passed. *)
Theorem Unet_forward_output_shape a u x time x_self_cond y :
  Unet_init a = Ok u ->
  Unet_forward u x time x_self_cond = Ok y ->
  y = Shape4 (sb x) (default (a_out_dim a) (a_channels a)) (sh x) (sw x) /\
  (a_out_dim a = None ->
   a_self_condition a = false \/ sc (default x_self_cond x) = sc x ->
   y = x).
Proof.
  intros Hi H.
  destruct (Unet_init_Ok a u Hi) as (Hsc & Hic & (dm & Hmb2) & Hups & Hfrb & _ & Hfc).
  unfold Unet_forward in H. rewrite Hsc, Hic, Hfc in H.
  apply res_bind_Ok in H. destruct H as (x0 & E0 & H).
  apply res_bind_Ok in H. destruct H as (r & Er & H).
  apply res_bind_Ok in H. destruct H as (t & _ & H).
  apply res_bind_Ok in H. destruct H as ([xd h] & _ & H).
  apply res_bind_Ok in H. destruct H as (x1 & _ & H).
  apply res_bind_Ok in H. destruct H as (x2 & _ & H).
  apply res_bind_Ok in H. destruct H as (x3 & E3 & H).
  apply res_bind_Ok in H. destruct H as (xs & Eup & H).
  apply res_bind_Ok in H. destruct H as (xc & Ecat & H).
  apply res_bind_Ok in H. destruct H as (xf & Ef & H).
  (* the input of [init_conv] has the image's batch size, height and width *)
  assert (Hx0 : sb x0 = sb x /\ sh x0 = sh x /\ sw x0 = sw x /\
                (a_self_condition a = false -> x0 = x) /\
                (a_self_condition a = true ->
                 sc x0 = (sc (default x_self_cond x) + sc x)%nat)).
  { destruct (a_self_condition a).
    - apply cat1_Ok in E0. destruct E0 as (-> & Hb & Hh & Hw). simpl.
      repeat split; auto; discriminate.
    - inversion E0; subst. repeat split; auto; discriminate. }
  destruct Hx0 as (B0 & H0 & W0 & Hno & Hyes).
  apply Conv2d_same_size in Er; [|reflexivity].
  destruct Er as (-> & Hc0). cbn [in_channels out_channels] in *.
  (* after the middle the batch size absorbs the time embedding *)
  apply (ResnetBlock_forward_built _ _ _ _ _ Hmb2) in E3.
  destruct E3 as (_ & _ & _ & Ha3 & _).
  pose proof (up_path_batch _ _ Hups _ _ _ Ha3 Eup) as Has.
  (* the concatenation with [r] fixes batch size, height and width *)
  apply cat1_Ok in Ecat. cbn [sb sc sh sw] in Ecat.
  destruct Ecat as (-> & Bs & Hs & Ws).
  apply (ResnetBlock_forward_built _ _ _ _ _ Hfrb) in Ef.
  cbn [sb sc sh sw] in Ef. destruct Ef as (Hf & Wf & Cf & _ & Bf).
  specialize (Bf Has).
  apply Conv2d_same_size in H; [|reflexivity].
  destruct H as (-> & _). cbn [out_channels].
  assert (Hy : Shape4 (sb xf) (default (a_out_dim a) (a_channels a))
                 (sh xf) (sw xf)
               = Shape4 (sb x) (default (a_out_dim a) (a_channels a))
                   (sh x) (sw x)) by (f_equal; congruence).
  split; [exact Hy|].
  intros Hod Hcond. rewrite Hy, Hod. cbn [default].
  assert (Hch : sc x = a_channels a).
  { destruct (a_self_condition a) eqn:Hs'.
    - destruct Hcond as [|Hcond]; [discriminate|].
      rewrite (Hyes eq_refl), Hcond in Hc0. lia.
    - rewrite (Hno eq_refl) in Hc0. lia. }
  destruct x; simpl in *; congruence.
Qed.

Lemma Unet_forward_output_shape_witness :
  exists u y,
    Unet_init notebook_args = Ok u /\
    Unet_forward u (Shape4 64 1 28 28) 64 None = Ok y /\
    y = Shape4 64 1 28 28.
Proof.
  assert (Hrun : build_and_run notebook_args (Shape4 64 1 28 28) 64 None
                 = Ok (Shape4 64 1 28 28)) by (vm_compute; reflexivity).
  unfold build_and_run in Hrun.
  destruct (Unet_init notebook_args) as [u|e] eqn:Hu; [|discriminate].
  cbn [res_bind] in Hrun.
  exists u, (Shape4 64 1 28 28). split; [reflexivity|]. split; [exact Hrun|].
  destruct (Unet_forward_output_shape notebook_args u (Shape4 64 1 28 28) 64
              None _ Hu Hrun) as (Hy & _).
  exact Hy.
Defined.

(** C7 as stated fails: the notebook's U-Net built with [out_dim=3] accepts
    a batch of shape (64, 1, 28, 28) with its 64 timesteps and returns shape
    (64, 3, 28, 28). *)
Lemma Unet_output_shape_counterexample :
  build_and_run three_channel_args (Shape4 64 1 28 28) 64 None
  = Ok (Shape4 64 3 28 28) /\
  Shape4 64 3 28 28 <> Shape4 64 1 28 28.
Proof. split; [vm_compute; reflexivity | discriminate]. Qed.

(* ================================================================== *)
(** * Further properties of the schedule *)

Lemma prod_firstn_succ v i :
  (i < List.length v)%nat ->
  Vec.prod (firstn (S i) v) = Vec.prod (firstn i v) * nth i v 0.
Proof.
  revert i; induction v as [|x v IH]; intros i Hi; simpl in Hi; [lia|].
  destruct i as [|i].
  - unfold Vec.prod. simpl. ring.
  - change (firstn (S (S i)) (x :: v)) with (x :: firstn (S i) v).
    change (firstn (S i) (x :: v)) with (x :: firstn i v).
    change (nth (S i) (x :: v) 0) with (nth i v 0).
    change (Vec.prod (x :: firstn (S i) v)) with (x * Vec.prod (firstn (S i) v)).
    change (Vec.prod (x :: firstn i v)) with (x * Vec.prod (firstn i v)).
    rewrite IH by lia. ring.
Qed.

(** Alpha-bar of one timestep is alpha-bar of the timestep before times the
    alpha of this one. *)
Lemma alphas_cumprod_succ T t :
  (S t < T)%nat ->
  nth (S t) (alphas_cumprod T) 0
  = nth t (alphas_cumprod T) 0 * nth (S t) (alphas T) 0.
Proof.
  intros Ht. unfold alphas_cumprod.
  rewrite (nth_of_nth_error _ _ 0 _
             (cumprod_nth_error (alphas T) (S t)
                ltac:(rewrite alphas_length; lia))).
  rewrite (nth_of_nth_error _ _ 0 _
             (cumprod_nth_error (alphas T) t
                ltac:(rewrite alphas_length; lia))).
  apply prod_firstn_succ. rewrite alphas_length. lia.
Qed.

Lemma betas_nth_range T t :
  (t < T)%nat -> beta_start <= nth t (betas T) 0 <= beta_end.
Proof.
  intros Ht. apply (betas_range T). apply nth_In. now rewrite betas_length.
Qed.

Lemma alphas_nth T t :
  (t < T)%nat -> nth t (alphas T) 0 = 1 - nth t (betas T) 0.
Proof.
  intros Ht. unfold alphas.
  rewrite (nth_indep _ 0 (1 - 0)) by (now rewrite length_map, betas_length).
  apply (map_nth (fun b => 1 - b)).
Qed.

Lemma alphas_cumprod_pos T t : (t < T)%nat -> 0 < nth t (alphas_cumprod T) 0.
Proof.
  induction t as [|t IH]; intros Ht.
  - rewrite (nth_of_nth_error _ _ 0 _ (alphas_cumprod_first T ltac:(lia))).
    unfold beta_start. lra.
  - rewrite alphas_cumprod_succ by assumption.
    apply Rmult_lt_0_compat; [apply IH; lia|].
    rewrite alphas_nth by assumption.
    pose proof (betas_nth_range T (S t) Ht). unfold beta_end in *. lra.
Qed.

Lemma alphas_cumprod_step_decreases T t :
  (S t < T)%nat ->
  nth (S t) (alphas_cumprod T) 0 < nth t (alphas_cumprod T) 0.
Proof.
  intros Ht. rewrite alphas_cumprod_succ by assumption.
  pose proof (alphas_cumprod_pos T t ltac:(lia)) as Hp.
  rewrite alphas_nth by assumption.
  pose proof (betas_nth_range T (S t) Ht) as Hb. unfold beta_start in Hb.
  rewrite <- (Rmult_1_r (nth t (alphas_cumprod T) 0)) at 2.
  apply Rmult_lt_compat_l; lra.
Qed.

(** X1: the betas lie between 0.0001 and 0.02 and increase strictly with the
    timestep. *)
Theorem betas_bounded_increasing (timesteps : nat) :
  (forall t, (t < timesteps)%nat ->
     beta_start <= nth t (betas timesteps) 0 <= beta_end) /\
  (forall s t, (s < t)%nat -> (t < timesteps)%nat ->
     nth s (betas timesteps) 0 < nth t (betas timesteps) 0).
Proof.
  split; [apply betas_nth_range|].
  intros s t Hst Ht.
  rewrite (nth_of_nth_error _ _ 0 _ (betas_nth_error timesteps s ltac:(lia))).
  rewrite (nth_of_nth_error _ _ 0 _ (betas_nth_error timesteps t Ht)).
  unfold spec_beta.
  assert (Hn : 0 < INR (timesteps - 1)) by (apply lt_0_INR; lia).
  assert (Hq : 0 < (beta_end - beta_start) / INR (timesteps - 1)).
  { apply Rmult_lt_0_compat; [unfold beta_end, beta_start; lra|].
    now apply Rinv_0_lt_compat. }
  assert (INR s < INR t) by (apply lt_INR; lia).
  apply Rplus_lt_compat_l. now apply Rmult_lt_compat_r.
Qed.

Lemma betas_bounded_increasing_witness :
  nth 0 (betas 1000) 0 < nth 999 (betas 1000) 0.
Proof.
  apply (betas_bounded_increasing 1000); apply Nat.ltb_lt; reflexivity.
Defined.

(** X2: alpha-bar stays strictly between 0 and 1, decreases strictly with the
    timestep, and is the alpha-bar of the timestep before times the alpha of
    this one; [alphas_cumprod_prev] holds that alpha-bar of the timestep
    before. *)
Theorem alphas_cumprod_strictly_decreasing (timesteps : nat) :
  (forall t, (t < timesteps)%nat ->
     0 < nth t (alphas_cumprod timesteps) 0 < 1) /\
  (forall s t, (s < t)%nat -> (t < timesteps)%nat ->
     nth t (alphas_cumprod timesteps) 0 < nth s (alphas_cumprod timesteps) 0) /\
  (forall t, (t < timesteps)%nat ->
     nth t (alphas_cumprod timesteps) 0
     = nth t (alphas_cumprod_prev timesteps) 0 * nth t (alphas timesteps) 0).
Proof.
  split; [|split].
  - intros t Ht. split; [now apply alphas_cumprod_pos|].
    pose proof (one_minus_alphas_cumprod_pos timesteps t Ht). lra.
  - intros s t Hst Ht. induction t as [|t IH]; [lia|].
    destruct (Nat.eq_dec s t) as [->|Hne].
    + now apply alphas_cumprod_step_decreases.
    + apply Rlt_trans with (nth t (alphas_cumprod timesteps) 0).
      * now apply alphas_cumprod_step_decreases.
      * apply IH; lia.
  - intros [|t] Ht.
    + rewrite (nth_of_nth_error _ _ 0 _ (alphas_cumprod_prev_head timesteps)).
      rewrite (nth_of_nth_error _ _ 0 _ (alphas_cumprod_first timesteps ltac:(lia))).
      rewrite alphas_nth by assumption.
      rewrite (nth_of_nth_error _ _ 0 _ (betas_nth_error timesteps 0 Ht)).
      unfold spec_beta. simpl. ring.
    + pose proof (alphas_cumprod_prev_tail timesteps t Ht) as H.
      rewrite (nth_error_nth' (alphas_cumprod timesteps) 0) in H
        by (rewrite alphas_cumprod_length; lia).
      rewrite (nth_of_nth_error _ _ 0 _ H).
      now apply alphas_cumprod_succ.
Qed.

Lemma alphas_cumprod_strictly_decreasing_witness :
  nth 999 (alphas_cumprod 1000) 0 < nth 0 (alphas_cumprod 1000) 0.
Proof.
  destruct (alphas_cumprod_strictly_decreasing 1000) as (_ & H & _).
  apply H; apply Nat.ltb_lt; reflexivity.
Defined.

(** X3: every posterior variance lies between 0 and the beta of its
    timestep, and is positive from the second timestep on. *)
Theorem posterior_variance_bounds (timesteps t : nat) :
  (t < timesteps)%nat ->
  0 <= nth t (posterior_variance timesteps) 0 <= nth t (betas timesteps) 0 /\
  ((1 <= t)%nat -> 0 < nth t (posterior_variance timesteps) 0).
Proof.
  intros Ht.
  rewrite (nth_of_nth_error _ _ 0 _ (posterior_variance_nth_error timesteps t Ht)).
  pose proof (one_minus_alphas_cumprod_pos timesteps t Ht) as Hpos.
  pose proof (betas_nth_range timesteps t Ht) as Hb. unfold beta_start in Hb.
  set (b := nth t (betas timesteps) 0) in *.
  set (a := nth t (alphas_cumprod timesteps) 0) in *.
  set (p := nth t (alphas_cumprod_prev timesteps) 0).
  assert (Hp : a <= p <= 1 /\ ((1 <= t)%nat -> p < 1)).
  { unfold p, a. destruct t as [|t].
    - rewrite (nth_of_nth_error _ _ 0 _ (alphas_cumprod_prev_head timesteps)).
      pose proof (alphas_cumprod_unit timesteps 0 Ht) as [_ H1].
      repeat split; try lra. lia.
    - pose proof (alphas_cumprod_prev_tail timesteps t Ht) as H.
      rewrite (nth_error_nth' (alphas_cumprod timesteps) 0) in H
        by (rewrite alphas_cumprod_length; lia).
      rewrite (nth_of_nth_error _ _ 0 _ H).
      pose proof (alphas_cumprod_step_decreases timesteps t Ht).
      pose proof (one_minus_alphas_cumprod_pos timesteps t ltac:(lia)).
      repeat split; try lra. }
  destruct Hp as ((Hap & Hp1) & Hstrict).
  assert (Hinv : 0 < / (1 - a)) by now apply Rinv_0_lt_compat.
  unfold Rdiv. split; [split|].
  - apply Rmult_le_pos; [apply Rmult_le_pos; lra | lra].
  - assert (b * (1 - p) <= b * (1 - a)) by (apply Rmult_le_compat_l; lra).
    apply Rmult_le_reg_r with (1 - a); [lra|].
    rewrite Rmult_assoc, Rinv_l by lra. lra.
  - intros H1. specialize (Hstrict H1).
    apply Rmult_lt_0_compat; [apply Rmult_lt_0_compat; lra | lra].
Qed.

Lemma posterior_variance_bounds_witness :
  0 <= nth 999 (posterior_variance 1000) 0 <= nth 999 (betas 1000) 0.
Proof.
  apply (posterior_variance_bounds 1000 999). apply Nat.ltb_lt; reflexivity.
Defined.

Lemma nth_map_in_range {A} (f : A -> R) (l : list A) d i :
  (i < List.length l)%nat -> nth i (map f l) 0 = f (nth i l d).
Proof.
  intros Hi. rewrite (nth_indep _ 0 (f d)) by (now rewrite length_map).
  apply map_nth.
Qed.

(** X4: the two coefficients of the forward process square to alpha-bar and
    1 - alpha-bar, so their squares add up to 1; and the square of
    [sqrt_recip_alphas] is the reciprocal of alpha. *)
Theorem forward_coefficients_square_sum (timesteps t : nat) :
  (t < timesteps)%nat ->
  nth t (sqrt_alphas_cumprod timesteps) 0 * nth t (sqrt_alphas_cumprod timesteps) 0
  = nth t (alphas_cumprod timesteps) 0 /\
  nth t (sqrt_one_minus_alphas_cumprod timesteps) 0
  * nth t (sqrt_one_minus_alphas_cumprod timesteps) 0
  = 1 - nth t (alphas_cumprod timesteps) 0 /\
  nth t (sqrt_alphas_cumprod timesteps) 0 * nth t (sqrt_alphas_cumprod timesteps) 0
  + nth t (sqrt_one_minus_alphas_cumprod timesteps) 0
    * nth t (sqrt_one_minus_alphas_cumprod timesteps) 0 = 1 /\
  nth t (sqrt_recip_alphas timesteps) 0 * nth t (sqrt_recip_alphas timesteps) 0
  * nth t (alphas timesteps) 0 = 1.
Proof.
  intros Ht.
  pose proof (alphas_cumprod_pos timesteps t Ht) as H0.
  pose proof (one_minus_alphas_cumprod_pos timesteps t Ht) as H1.
  destruct (schedule_sqrt_domains timesteps t Ht) as (Ha & _ & _).
  unfold sqrt_alphas_cumprod, sqrt_one_minus_alphas_cumprod, sqrt_recip_alphas.
  rewrite (nth_map_in_range sqrt _ 0)
    by (now rewrite alphas_cumprod_length).
  rewrite (nth_map_in_range (fun a => sqrt (1 - a)) _ 0)
    by (now rewrite alphas_cumprod_length).
  rewrite (nth_map_in_range (fun a => sqrt (1 / a)) _ 0)
    by (now rewrite alphas_length).
  assert (E0 : sqrt (nth t (alphas_cumprod timesteps) 0)
               * sqrt (nth t (alphas_cumprod timesteps) 0)
               = nth t (alphas_cumprod timesteps) 0)
    by (apply sqrt_sqrt; lra).
  assert (E1 : sqrt (1 - nth t (alphas_cumprod timesteps) 0)
               * sqrt (1 - nth t (alphas_cumprod timesteps) 0)
               = 1 - nth t (alphas_cumprod timesteps) 0)
    by (apply sqrt_sqrt; lra).
  split; [exact E0|]. split; [exact E1|]. split; [rewrite E0, E1; ring|].
  rewrite sqrt_sqrt.
  - field. lra.
  - unfold Rdiv. rewrite Rmult_1_l. left. now apply Rinv_0_lt_compat.
Qed.

Lemma forward_coefficients_square_sum_witness :
  nth 500 (sqrt_alphas_cumprod 1000) 0 * nth 500 (sqrt_alphas_cumprod 1000) 0
  + nth 500 (sqrt_one_minus_alphas_cumprod 1000) 0
    * nth 500 (sqrt_one_minus_alphas_cumprod 1000) 0 = 1.
Proof.
  apply (forward_coefficients_square_sum 1000 500). apply Nat.ltb_lt; reflexivity.
Defined.

(* ================================================================== *)
(** * Further properties of [extract], [q_sample] and the sampling loop *)

(** X5: [extract] returns exactly when every index lies in [0, len a); then
    the result has shape (len t, 1, 1, 1) and holds, for each batch entry,
    the entry of [a] at that batch entry's index.  An index outside the
    vector, negative ones included, makes it raise. *)
Theorem extract_bounds (a : list R) (t : list Z) (x_shape : shape4) :
  (timesteps_in_range (List.length a) t ->
   exists y,
     extract a t x_shape = Ok y /\
     dims y = Shape4 (List.length t) 1 1 1 /\
     forall i j r k, (i < List.length t)%nat ->
       val y i j r k = coef_at a t i) /\
  (~ timesteps_in_range (List.length a) t ->
   extract a t x_shape = Raise RuntimeError).
Proof.
  split.
  - intros Ht. rewrite extract_in_range by assumption.
    eexists. split; [reflexivity|]. split; [reflexivity|].
    intros i j r k Hi. simpl. now apply nth_map_coef.
  - intros Hn. unfold extract. now rewrite gather_out_of_range.
Qed.

Lemma extract_bounds_witness :
  extract [1; 2; 3] [0; 3]%Z (Shape4 2 1 1 1) = Raise RuntimeError /\
  extract [1; 2; 3] [0; -1]%Z (Shape4 2 1 1 1) = Raise RuntimeError /\
  exists y, extract [1; 2; 3] [2; 0]%Z (Shape4 2 1 1 1) = Ok y.
Proof.
  split; [|split].
  - apply (extract_bounds [1; 2; 3] [0; 3]%Z).
    intros H. inversion H as [|? ? _ H']. inversion H' as [|? ? Hr _].
    simpl in Hr. lia.
  - apply (extract_bounds [1; 2; 3] [0; -1]%Z).
    intros H. inversion H as [|? ? _ H']. inversion H' as [|? ? Hr _]. lia.
  - destruct (extract_bounds [1; 2; 3] [2; 0]%Z (Shape4 2 1 1 1)) as (H & _).
    destruct H as (y & Hy & _).
    + repeat constructor; simpl; lia.
    + exists y. exact Hy.
Defined.

(** *** What the tensor code can raise *)

Lemma only_RuntimeError_bind {A B} (r : res A) (k : A -> res B) :
  only_RuntimeError r -> (forall a, only_RuntimeError (k a)) ->
  only_RuntimeError (res_bind r k).
Proof.
  unfold only_RuntimeError. intros Hr Hk e. destruct r; simpl; [apply Hk|].
  intros [= <-]. now apply Hr.
Qed.

Lemma bdim_only_RuntimeError m n : only_RuntimeError (bdim m n).
Proof.
  unfold only_RuntimeError, bdim. intros e.
  destruct (m =? n)%nat, (m =? 1)%nat, (n =? 1)%nat; congruence.
Qed.

Lemma bshape_only_RuntimeError s1 s2 : only_RuntimeError (bshape s1 s2).
Proof.
  unfold bshape.
  repeat (apply only_RuntimeError_bind;
          [apply bdim_only_RuntimeError | intros]).
  intros e; discriminate.
Qed.

Lemma bop_only_RuntimeError f x y : only_RuntimeError (bop f x y).
Proof.
  unfold bop. apply only_RuntimeError_bind;
    [apply bshape_only_RuntimeError | intros a e; discriminate].
Qed.

Lemma gather_only_RuntimeError a t : only_RuntimeError (gather a t).
Proof.
  induction t as [|i t IH]; simpl; [intros e; discriminate|].
  destruct (i <? 0)%Z; [intros e; congruence|].
  destruct (nth_error a (Z.to_nat i)); [|intros e; congruence].
  apply only_RuntimeError_bind; [exact IH | intros o e; discriminate].
Qed.

Lemma extract_only_RuntimeError a t s : only_RuntimeError (extract a t s).
Proof.
  unfold extract. apply only_RuntimeError_bind;
    [apply gather_only_RuntimeError | intros a0 e; discriminate].
Qed.

Lemma M_bind_only {A B} (m : M A) (k : A -> M B) :
  (forall pos, only_RuntimeError (m pos)) ->
  (forall a pos, only_RuntimeError (k a pos)) ->
  forall pos, only_RuntimeError (bind m k pos).
Proof.
  intros Hm Hk pos e. unfold bind. specialize (Hm pos).
  destruct (m pos) as [[a pos']|e0]; [apply Hk|].
  intros [= <-]. now apply Hm.
Qed.

Lemma M_lift_only {A} (r : res A) :
  only_RuntimeError r -> forall pos, only_RuntimeError (lift r pos).
Proof.
  intros Hr pos e. unfold lift. destruct r; [discriminate|].
  intros [= <-]. now apply Hr.
Qed.

Lemma M_ret_only {A} (a : A) pos : only_RuntimeError (ret a pos).
Proof. intros e; discriminate. Qed.

Lemma randn_only tape s pos : only_RuntimeError (randn tape s pos).
Proof. intros e; discriminate. Qed.

Ltac only_RuntimeError_step :=
  first
    [ apply M_bind_only; [intros ?|intros ? ?]
    | apply M_lift_only
    | apply M_ret_only
    | apply randn_only
    | apply extract_only_RuntimeError
    | apply bop_only_RuntimeError ].

Lemma q_sample_only tape T x0 t noise pos :
  only_RuntimeError (q_sample tape T x0 t noise pos).
Proof.
  revert pos. unfold q_sample, randn_like.
  destruct noise; intros pos; repeat only_RuntimeError_step.
Qed.

(** *** What a reverse step can raise: the runtime's error, or what the
    model raises *)

Lemma bind_raises_only {A B} (P : exn -> Prop) (m : M A) (k : A -> M B) :
  raises_only P m -> (forall a, raises_only P (k a)) ->
  raises_only P (bind m k).
Proof.
  intros Hm Hk pos e. unfold bind. specialize (Hm pos).
  destruct (m pos) as [[a pos']|e0]; [apply Hk|].
  intros [= <-]. now apply Hm.
Qed.

Lemma lift_raises_only {A} (P : exn -> Prop) (r : res A) :
  (forall e, r = Raise e -> P e) -> raises_only P (lift r).
Proof.
  intros Hr pos e. unfold lift. destruct r; [discriminate|].
  intros [= <-]. now apply Hr.
Qed.

Lemma runtime_raises_only {A} (P : exn -> Prop) (r : res A) :
  P RuntimeError -> only_RuntimeError r -> raises_only P (lift r).
Proof.
  intros HP Hr. apply lift_raises_only. intros e He.
  now rewrite (Hr e He).
Qed.

Lemma ret_raises_only {A} (P : exn -> Prop) (a : A) : raises_only P (ret a).
Proof. intros pos e; discriminate. Qed.

Lemma randn_raises_only (P : exn -> Prop) tape s :
  raises_only P (randn tape s).
Proof. intros pos e; discriminate. Qed.

Lemma raises_only_impl {A} (P Q : exn -> Prop) (m : nat -> res (A * nat)) :
  (forall e, P e -> Q e) -> raises_only P m -> raises_only Q m.
Proof. intros HPQ Hm pos e He. apply HPQ. now apply (Hm pos). Qed.

Ltac runtime_raises :=
  apply runtime_raises_only;
    [now left
    | first [ apply extract_only_RuntimeError
            | apply bop_only_RuntimeError ] ].

Lemma p_sample_raises tape T model x t t_index :
  raises_only (fun e => e = RuntimeError \/ forward model x t = Raise e)
    (p_sample tape T model x t t_index).
Proof.
  unfold p_sample, randn_like, call.
  apply bind_raises_only; [runtime_raises | intros betas_t].
  apply bind_raises_only; [runtime_raises | intros a1].
  apply bind_raises_only; [runtime_raises | intros a2].
  apply bind_raises_only;
    [apply lift_raises_only; intros e He; now right | intros predicted].
  apply bind_raises_only; [runtime_raises | intros scaled].
  apply bind_raises_only; [runtime_raises | intros ratio].
  apply bind_raises_only; [runtime_raises | intros diff].
  apply bind_raises_only; [runtime_raises | intros model_mean].
  destruct (t_index =? 0)%Z; [apply ret_raises_only|].
  apply bind_raises_only; [runtime_raises | intros pv].
  apply bind_raises_only; [apply randn_raises_only | intros noise].
  apply bind_raises_only; [runtime_raises | intros spread].
  runtime_raises.
Qed.

Lemma sampling_steps_raises tape T model b steps :
  forall img imgs,
    raises_only
      (fun e => e = RuntimeError \/
                exists x i, In i steps /\
                            forward model x (full b (Z.of_nat i)) = Raise e)
      (sampling_steps tape T model b steps img imgs).
Proof.
  induction steps as [|i steps IH]; intros img imgs; cbn [sampling_steps].
  - apply ret_raises_only.
  - apply bind_raises_only.
    + eapply raises_only_impl; [|apply p_sample_raises].
      intros e [He|He]; [now left|]. right. exists img, i.
      split; [now left | exact He].
    + intros img'. eapply raises_only_impl; [|apply IH].
      intros e [He|(x & j & Hj & He)]; [now left|]. right. exists x, j.
      split; [now right | exact He].
Qed.

(** X6: [q_sample] raises the runtime's error, and nothing else: whenever a
    timestep lies outside [0, T), and whenever the number of timesteps is
    neither the batch size nor 1 while the batch holds more or fewer than one
    image. *)
Theorem q_sample_rejects tape T x0 t noise pos :
  (~ timesteps_in_range T t ->
   q_sample tape T x0 t noise pos = Raise RuntimeError) /\
  (List.length t <> sb (dims x0) -> List.length t <> 1%nat ->
   sb (dims x0) <> 1%nat ->
   q_sample tape T x0 t noise pos = Raise RuntimeError) /\
  (forall e, q_sample tape T x0 t noise pos = Raise e -> e = RuntimeError).
Proof.
  split; [|split].
  - intros Hn. unfold q_sample, bind, lift.
    assert (He : extract (sqrt_alphas_cumprod T) t (dims x0) = Raise RuntimeError).
    { unfold extract. rewrite gather_out_of_range; [reflexivity|].
      now rewrite sqrt_alphas_cumprod_length. }
    rewrite He. destruct noise; reflexivity.
  - intros H1 H2 H3.
    destruct (q_sample tape T x0 t noise pos) as [[y pos']|e] eqn:Hq.
    + exfalso. revert Hq. unfold q_sample, bind, lift, randn_like, randn, ret.
      assert (Hb : forall a, dims a = Shape4 (List.length t) 1 1 1 ->
                   bop Rmult a x0 = Raise RuntimeError).
      { intros a Ha. unfold bop, bshape. rewrite Ha. cbn [sb].
        unfold bdim.
        destruct (Nat.eqb_spec (List.length t) (sb (dims x0))); [contradiction|].
        destruct (Nat.eqb_spec (List.length t) 1); [contradiction|].
        destruct (Nat.eqb_spec (sb (dims x0)) 1); [contradiction|].
        reflexivity. }
      destruct noise as [n|];
        (destruct (extract (sqrt_alphas_cumprod T) t (dims x0)) as [a|] eqn:Ea;
         [|discriminate];
         destruct (extract (sqrt_one_minus_alphas_cumprod T) t (dims x0))
           as [b|] eqn:Eb; [|discriminate];
         rewrite (Hb a); [discriminate|];
         unfold extract in Ea;
         destruct (gather (sqrt_alphas_cumprod T) t); [|discriminate];
         simpl in Ea; inversion Ea; reflexivity).
    + f_equal. now apply (q_sample_only tape T x0 t noise pos).
  - apply q_sample_only.
Qed.

Lemma q_sample_rejects_witness :
  q_sample (fun _ => 0) 1000 single_image [1000]%Z None 0%nat
  = Raise RuntimeError.
Proof.
  destruct (q_sample_rejects (fun _ => 0) 1000 single_image [1000]%Z None
              0%nat) as (Hrange & _).
  apply Hrange.
  intros H. inversion H as [|? ? Hr _]. simpl in Hr. lia.
Defined.

(** *** Reverse steps at timestep 0, and undoing the forward process *)

Lemma posterior_variance_head T :
  (1 <= T)%nat -> nth 0 (posterior_variance T) 0 = 0.
Proof.
  intros HT. apply nth_of_nth_error.
  rewrite posterior_variance_nth_error by lia. f_equal.
  rewrite (nth_of_nth_error _ 0 0 _ (alphas_cumprod_prev_head T)).
  unfold Rdiv. ring.
Qed.

(** The noise [p_sample] adds to a batch entry whose timestep is 0 is
    multiplied by zero. *)
Lemma posterior_noise_vanishes T t i z :
  (1 <= T)%nat -> nth i t 0%Z = 0%Z ->
  sqrt (coef_at (posterior_variance T) t i) * z = 0.
Proof.
  intros HT Hz. unfold coef_at. rewrite Hz. simpl Z.to_nat.
  rewrite posterior_variance_head by exact HT. rewrite sqrt_0. ring.
Qed.

(** X7: a batch entry whose timestep is 0 gets the posterior mean from
    [p_sample] whatever [t_index] is: the noise drawn for it is multiplied
    by the square root of the first posterior variance, which is zero. *)
Theorem p_sample_timestep_zero_adds_no_noise
    tape T model x t t_index pos e :
  List.length t = sb (dims x) ->
  timesteps_in_range T t ->
  forward model x t = Ok e ->
  dims e = dims x ->
  exists y pos',
    p_sample tape T model x t t_index pos = Ok (y, pos') /\
    forall i j r k, in_shape (dims x) i j r k ->
      nth i t 0%Z = 0%Z ->
      val y i j r k = posterior_mean T t i (val x i j r k) (val e i j r k).
Proof.
  intros Hlen Ht He Hd.
  destruct (p_sample_result tape T model x t t_index pos e Hlen Ht He Hd)
    as (y & Hy & _ & Hv).
  exists y. eexists. split; [exact Hy|].
  intros i j r k Hin Hz. rewrite (Hv i j r k Hin).
  destruct (t_index =? 0)%Z; [reflexivity|].
  assert (HT : (1 <= T)%nat).
  { destruct Hin as (Hi & _). rewrite <- Hlen in Hi.
    unfold timesteps_in_range in Ht. rewrite Forall_forall in Ht.
    specialize (Ht (nth i t 0%Z) (nth_In _ _ Hi)). lia. }
  rewrite posterior_noise_vanishes by assumption. ring.
Qed.

Lemma p_sample_timestep_zero_adds_no_noise_witness :
  exists y pos',
    p_sample (fun _ => 1) 1000 zero_model single_image [0]%Z 7 0%nat
    = Ok (y, pos') /\
    val y 0 0 0 0
    = posterior_mean 1000 [0]%Z 0 (val single_image 0 0 0 0) 0.
Proof.
  assert (Hr : timesteps_in_range 1000 [0]%Z).
  { repeat constructor; apply Z.leb_le || apply Z.ltb_lt; reflexivity. }
  destruct (p_sample_timestep_zero_adds_no_noise (fun _ => 1) 1000 zero_model
              single_image [0]%Z 7 0%nat (zeros_like single_image)
              eq_refl Hr eq_refl eq_refl) as (y & pos' & Hy & Hv).
  exists y, pos'. split; [exact Hy|].
  apply (Hv 0 0 0 0)%nat; [|reflexivity].
  repeat split; apply Nat.ltb_lt; reflexivity.
Defined.

Lemma first_step_coefficients T :
  (1 <= T)%nat ->
  nth 0 (alphas T) 0 = 1 - beta_start /\
  nth 0 (betas T) 0 = beta_start /\
  nth 0 (alphas_cumprod T) 0 = 1 - beta_start.
Proof.
  intros HT.
  assert (Hb : nth 0 (betas T) 0 = beta_start).
  { rewrite (nth_of_nth_error _ _ 0 _ (betas_nth_error T 0 ltac:(lia))).
    unfold spec_beta. simpl. ring. }
  split; [|split; [exact Hb|]].
  - rewrite alphas_nth by lia. now rewrite Hb.
  - exact (nth_of_nth_error _ _ 0 _ (alphas_cumprod_first T HT)).
Qed.

(** The posterior mean at timestep 0 of a sample noised at timestep 0 with
    the very noise the model predicts is the clean sample. *)
Lemma posterior_mean_undoes_first_noising (x0 e : R) :
  sqrt (1 / (1 - beta_start))
  * ((sqrt (1 - beta_start) * x0 + sqrt (1 - (1 - beta_start)) * e)
     - beta_start * e / sqrt (1 - (1 - beta_start))) = x0.
Proof.
  replace (1 - (1 - beta_start)) with beta_start by ring.
  assert (Hb : 0 < beta_start) by (unfold beta_start; lra).
  assert (Ha : 0 < 1 - beta_start) by (unfold beta_start; lra).
  assert (Hs : 0 < sqrt beta_start) by now apply sqrt_lt_R0.
  assert (Hss : sqrt beta_start * sqrt beta_start = beta_start)
    by (apply sqrt_sqrt; lra).
  assert (E1 : beta_start * e / sqrt beta_start = sqrt beta_start * e).
  { rewrite <- Hss at 1. field. lra. }
  rewrite E1.
  replace (sqrt (1 - beta_start) * x0 + sqrt beta_start * e
           - sqrt beta_start * e) with (sqrt (1 - beta_start) * x0) by ring.
  rewrite <- Rmult_assoc, <- sqrt_mult.
  - replace (1 / (1 - beta_start) * (1 - beta_start)) with 1 by (field; lra).
    rewrite sqrt_1. ring.
  - unfold Rdiv. rewrite Rmult_1_l. left. now apply Rinv_0_lt_compat.
  - lra.
Qed.

(** X8: noising a batch at timestep 0 with [q_sample] and denoising it with
    [p_sample] at timestep 0, the model predicting exactly the injected
    noise, gives back the clean batch. *)
Theorem p_sample_undoes_q_sample_at_zero tape T model x0 eps t_index pos :
  (1 <= T)%nat ->
  dims eps = dims x0 ->
  (forall x t, forward model x t = Ok eps) ->
  exists x1 y pos',
    q_sample tape T x0 (full (sb (dims x0)) 0) (Some eps) pos = Ok (x1, pos) /\
    p_sample tape T model x1 (full (sb (dims x0)) 0) t_index pos = Ok (y, pos') /\
    tensor_eq y x0.
Proof.
  intros HT Hd Hm.
  set (t := full (sb (dims x0)) 0).
  assert (Hlen : List.length t = sb (dims x0)) by apply full_length.
  assert (Ht : timesteps_in_range T t) by (apply (full_in_range T _ 0); lia).
  destruct (q_sample_given tape T x0 t eps pos (or_introl Hlen) Ht Hd)
    as (x1 & Hq & Hd1 & Hv1).
  destruct (p_sample_result tape T model x1 t t_index pos eps)
    as (y & Hp & Hdy & Hv); try congruence; auto.
  exists x1, y. eexists. split; [exact Hq|]. split; [exact Hp|].
  split; [congruence|].
  intros i j r k Hi Hj Hr Hk.
  rewrite Hdy, Hd1 in Hi, Hj, Hr, Hk.
  assert (Hin : in_shape (dims x0) i j r k).
  { unfold in_shape. auto. }
  assert (Hz : nth i t 0%Z = 0%Z) by (unfold t, full; apply nth_repeat).
  assert (Hin1 : in_shape (dims x1) i j r k) by now rewrite Hd1.
  rewrite (Hv i j r k Hin1).
  assert (Hm0 : posterior_mean T t i (val x1 i j r k) (val eps i j r k)
                = val x0 i j r k).
  { rewrite (Hv1 i j r k Hin). unfold posterior_mean, alpha_bar_at.
    rewrite Hlen, (bidx_in_range _ i Hi).
    unfold t. rewrite !(coef_at_full _ _ 0) by exact Hi.
    destruct (first_step_coefficients T HT) as (-> & -> & ->).
    apply posterior_mean_undoes_first_noising. }
  destruct (t_index =? 0)%Z; [exact Hm0|].
  rewrite posterior_noise_vanishes by assumption. rewrite Hm0. ring.
Qed.

Lemma p_sample_undoes_q_sample_at_zero_witness :
  exists x1 y pos',
    q_sample (fun _ => 0) 1000 single_image (full 1 0)
      (Some (zeros_like single_image)) 0%nat = Ok (x1, 0%nat) /\
    p_sample (fun _ => 0) 1000 (oracle_model (zeros_like single_image)) x1
      (full 1 0) 0 0%nat = Ok (y, pos') /\
    tensor_eq y single_image.
Proof.
  apply (p_sample_undoes_q_sample_at_zero (fun _ => 0) 1000
           (oracle_model (zeros_like single_image)) single_image
           (zeros_like single_image) 0 0%nat).
  - apply Nat.leb_le; reflexivity.
  - reflexivity.
  - intros x t. reflexivity.
Defined.

(** *** The sampling loop: draws and errors *)

Lemma trajectory_position tape T model b steps img pos imgs pos' :
  trajectory tape T model b steps img pos imgs pos' ->
  Forall (fun y => dims y = dims img) imgs ->
  pos' = (pos + numel (dims img) * noisy_steps steps)%nat.
Proof.
  induction 1 as [|i steps img pos img' pos' imgs pos'' Hp Htr IH]; intros Hall.
  - unfold noisy_steps. simpl. lia.
  - inversion Hall as [|? ? Hd Hall']; subst.
    apply p_sample_position in Hp.
    rewrite IH by (eapply Forall_impl; [|exact Hall']; intros z Hz; congruence).
    rewrite Hd, Hp. unfold noisy_steps. simpl.
    destruct i as [|i]; simpl; lia.
Qed.

Lemma noisy_steps_countdown T : noisy_steps (rev (seq 0 T)) = (T - 1)%nat.
Proof.
  unfold noisy_steps.
  assert (H : forall l, List.length (filter (fun i => negb (i =? 0)%nat) (rev l))
                        = List.length (filter (fun i => negb (i =? 0)%nat) l)).
  { intros l. induction l as [|a l IH]; [reflexivity|].
    simpl rev. rewrite filter_app, length_app, IH. simpl.
    destruct (negb (a =? 0)%nat); simpl; lia. }
  rewrite H. destruct T as [|T]; [reflexivity|].
  change (seq 0 (S T)) with (0%nat :: seq 1 T). simpl.
  replace (T - 0)%nat with T by lia.
  assert (Hall : forall n s, (1 <= s)%nat ->
            List.length (filter (fun i => negb (i =? 0)%nat) (seq s n)) = n).
  { induction n as [|n IHn]; intros s Hs; [reflexivity|].
    simpl. destruct (Nat.eqb_spec s 0); [lia|]. simpl. f_equal.
    apply IHn. lia. }
  apply Hall. lia.
Qed.

(** A sampling run: its images, and how far it moves along the tape. *)
Lemma p_sample_loop_run tape T model shape pos :
  parameters model <> [] -> shape_preserving model ->
  exists imgs,
    p_sample_loop tape T model shape pos
    = Ok (map cpu_numpy imgs, (pos + numel shape * Nat.max T 1)%nat) /\
    List.length imgs = T /\
    Forall (fun y => dims y = shape) imgs.
Proof.
  intros Hp Hm.
  destruct (p_sample_loop_total tape T model shape pos Hp Hm)
    as (imgs & pos' & H & Htr & Hall).
  exists imgs. split; [|split].
  - rewrite H. do 2 f_equal.
    apply trajectory_position in Htr; [|exact Hall].
    rewrite Htr, noisy_steps_countdown. cbn [start_image dims]. nia.
  - apply trajectory_length in Htr.
    now rewrite Htr, length_rev, length_seq.
  - exact Hall.
Qed.

(** X9: a sampling run over a model that has parameters and keeps the shape
    draws one tensor of the requested shape per timestep: the start image
    and one noise tensor at every timestep but the last.  With no timesteps
    only the start image is drawn. *)
Theorem p_sample_loop_draws tape T model shape pos :
  parameters model <> [] -> shape_preserving model ->
  exists out,
    p_sample_loop tape T model shape pos
    = Ok (out, (pos + numel shape * Nat.max T 1)%nat).
Proof.
  intros Hp Hm.
  destruct (p_sample_loop_run tape T model shape pos Hp Hm)
    as (imgs & H & _).
  exists (map cpu_numpy imgs). exact H.
Qed.

Lemma p_sample_loop_draws_witness :
  exists out,
    p_sample_loop (fun _ => 0) 1000 zero_model (Shape4 16 1 28 28) 0%nat
    = Ok (out, (0 + numel (Shape4 16 1 28 28) * Nat.max 1000 1)%nat).
Proof.
  apply (p_sample_loop_draws (fun _ => 0) 1000 zero_model).
  - exact zero_model_has_parameters.
  - exact zero_model_shape_preserving.
Defined.

(** X10: [p_sample_loop] raises [StopIteration] for a model without
    parameters, before anything is drawn.  For a model with parameters,
    whatever it raises is the tensor runtime's error or an exception the
    model's forward function raised, on an image together with the
    timestep vector of one of the loop's steps. *)
Theorem p_sample_loop_errors tape T model shape pos :
  (parameters model = [] ->
   p_sample_loop tape T model shape pos = Raise StopIteration) /\
  (parameters model <> [] ->
   forall e, p_sample_loop tape T model shape pos = Raise e ->
     e = RuntimeError \/
     exists x i, (i < T)%nat /\
                 forward model x (full (sb shape) (Z.of_nat i)) = Raise e).
Proof.
  split; [apply p_sample_loop_no_parameters|].
  intros Hne e. rewrite p_sample_loop_unfold by assumption. intros He.
  apply sampling_steps_raises in He.
  destruct He as [He|(x & i & Hi & He)]; [now left|].
  right. exists x, i. split; [|exact He].
  apply in_rev, in_seq in Hi. lia.
Qed.

Lemma p_sample_loop_errors_witness :
  p_sample_loop (fun _ => 0) 1000
    {| parameters := []; forward := fun x _ => Ok x |}
    (Shape4 16 1 28 28) 0%nat
  = Raise StopIteration.
Proof.
  apply (p_sample_loop_errors (fun _ => 0) 1000
           {| parameters := []; forward := fun x _ => Ok x |}
           (Shape4 16 1 28 28) 0%nat).
  reflexivity.
Defined.

(* ================================================================== *)
(** * Further properties of [num_to_groups] and of the sampling in groups *)

Lemma Zsum_app l1 l2 : Zsum (l1 ++ l2) = (Zsum l1 + Zsum l2)%Z.
Proof. unfold Zsum. induction l1; simpl; lia. Qed.

Lemma Zsum_repeat d n : Zsum (repeat d n) = (Z.of_nat n * d)%Z.
Proof. apply sum_repeat. Qed.

(** The groups of a non-negative number for a positive divisor. *)
Lemma num_to_groups_groups (num divisor : Z) :
  (0 <= num)%Z -> (0 < divisor)%Z ->
  exists arr,
    num_to_groups num divisor = Ok arr /\
    Zsum arr = num /\
    Forall (fun g => 0 < g <= divisor)%Z arr /\
    Z.of_nat (List.length arr) = ((num + divisor - 1) / divisor)%Z /\
    forall i, (S i < List.length arr)%nat -> nth i arr 0%Z = divisor.
Proof.
  intros Hn Hd. unfold num_to_groups.
  destruct (Z.eqb_spec divisor 0); [lia|].
  pose proof (Z.mod_pos_bound num divisor Hd) as Hm.
  pose proof (Z.div_mod num divisor ltac:(lia)) as Hdm.
  pose proof (Z.div_pos num divisor Hn Hd) as Hq.
  set (q := (num / divisor)%Z) in *. set (r := (num mod divisor)%Z) in *.
  assert (Hrep : Forall (fun g => 0 < g <= divisor)%Z (repeat divisor (Z.to_nat q))).
  { apply Forall_forall. intros g Hg. apply repeat_spec in Hg. lia. }
  assert (Hnth : forall i, (i < Z.to_nat q)%nat ->
            forall tl, nth i (repeat divisor (Z.to_nat q) ++ tl) 0%Z = divisor).
  { intros i Hi tl. rewrite app_nth1 by (now rewrite repeat_length).
    rewrite (nth_indep _ 0%Z divisor) by (now rewrite repeat_length).
    apply nth_repeat. }
  destruct (Z.ltb_spec 0 r).
  - eexists. split; [reflexivity|].
    split; [rewrite Zsum_app, Zsum_repeat; unfold Zsum; simpl; lia|].
    split; [apply Forall_app; split; [exact Hrep|]; constructor; [lia|constructor]|].
    split.
    + rewrite length_app, repeat_length. simpl.
      apply Z.div_unique with (r - 1)%Z; lia.
    + intros i Hi. rewrite length_app, repeat_length in Hi. simpl in Hi.
      apply Hnth. lia.
  - eexists. split; [reflexivity|].
    split; [rewrite Zsum_repeat; lia|].
    split; [exact Hrep|].
    split.
    + rewrite repeat_length.
      apply Z.div_unique with (divisor - 1)%Z; lia.
    + intros i Hi. rewrite repeat_length in Hi.
      rewrite <- (app_nil_r (repeat divisor (Z.to_nat q))).
      apply Hnth. lia.
Qed.

(** X11: for a non-negative number and a positive divisor [num_to_groups]
    splits the number into ceil(num / divisor) positive groups that add up
    to it; every group but the last is the divisor, and the last is at most
    the divisor.  A zero divisor raises [ZeroDivisionError]. *)
Theorem num_to_groups_partition (num divisor : Z) :
  ((0 <= num)%Z -> (0 < divisor)%Z ->
   exists arr,
     num_to_groups num divisor = Ok arr /\
     Zsum arr = num /\
     Forall (fun g => 0 < g <= divisor)%Z arr /\
     Z.of_nat (List.length arr) = ((num + divisor - 1) / divisor)%Z /\
     forall i, (S i < List.length arr)%nat -> nth i arr 0%Z = divisor) /\
  (divisor = 0%Z -> num_to_groups num divisor = Raise ZeroDivisionError).
Proof.
  split; [apply num_to_groups_groups | intros ->; reflexivity].
Qed.

Lemma num_to_groups_partition_witness :
  exists arr,
    num_to_groups 4 64 = Ok arr /\ Zsum arr = 4%Z /\
    Forall (fun g => 0 < g <= 64)%Z arr.
Proof.
  destruct (num_to_groups_partition 4 64) as (H & _).
  destruct H as (arr & H1 & H2 & H3 & _).
  - apply Z.leb_le; reflexivity.
  - apply Z.ltb_lt; reflexivity.
  - exists arr. auto.
Defined.

Lemma sample_run tape T model image_size n channels pos :
  parameters model <> [] -> shape_preserving model ->
  exists imgs,
    sample tape T model image_size n channels pos
    = Ok (imgs,
          (pos + n * channels * image_size * image_size * Nat.max T 1)%nat) /\
    List.length imgs = T /\
    Forall (fun a => dims (np_tensor a)
                     = Shape4 n channels image_size image_size) imgs.
Proof.
  intros Hp Hm. unfold sample.
  set (shape := Shape4 n channels image_size image_size).
  destruct (p_sample_loop_run tape T model shape pos Hp Hm)
    as (imgs & H & Hlen & Hall).
  exists (map cpu_numpy imgs). split; [|split].
  - rewrite H. reflexivity.
  - now rewrite length_map.
  - apply Forall_map. exact Hall.
Qed.

Lemma M_map_samples tape T model image_size channels batches :
  parameters model <> [] -> shape_preserving model ->
  Forall (fun n => 0 < n)%Z batches ->
  forall pos,
  exists groups,
    M_map (fun n =>
             if (n <? 0)%Z then raise RuntimeError
             else sample tape T model image_size (Z.to_nat n) channels)
          batches pos
    = Ok (groups,
          (pos + Z.to_nat (Zsum batches) * channels * image_size * image_size
                 * Nat.max T 1)%nat) /\
    Forall2 (fun n imgs =>
               List.length imgs = T /\
               Forall (fun a => dims (np_tensor a)
                                = Shape4 (Z.to_nat n) channels image_size
                                    image_size) imgs)
            batches groups.
Proof.
  intros Hp Hm. induction 1 as [|n batches Hn Hb IH]; intros pos.
  - exists []. split; [|constructor]. unfold M_map, ret. simpl.
    do 2 f_equal. lia.
  - destruct (sample_run tape T model image_size (Z.to_nat n) channels pos Hp Hm)
      as (imgs & Hs & Hl & Hd).
    destruct (IH (pos + Z.to_nat n * channels * image_size * image_size
                        * Nat.max T 1)%nat) as (groups & Hg & Hall).
    exists (imgs :: groups). split; [|constructor; auto].
    cbn [M_map]. unfold bind at 1.
    destruct (Z.ltb_spec n 0); [lia|].
    rewrite Hs. unfold bind at 1. rewrite Hg. unfold ret. do 2 f_equal.
    assert (0 <= Zsum batches)%Z.
    { clear - Hb. induction Hb; unfold Zsum in *; simpl; lia. }
    change (Zsum (n :: batches)) with (n + Zsum batches)%Z.
    rewrite Z2Nat.inj_add by lia. nia.
Qed.

(** X12: with a positive batch size and a model that has parameters and
    keeps the shape, the sampling of the training loop runs one sampling
    loop per group of [num_to_groups(4, batch_size)]; the groups' batch
    sizes are positive, at most [batch_size] and add up to 4; each loop
    returns its T arrays of its group's shape, and together they draw
    4 * channels * size * size numbers per timestep (once if there is no
    timestep). *)
Theorem sample_groups_total tape T model image_size batch_size channels pos :
  (0 < batch_size)%Z ->
  parameters model <> [] -> shape_preserving model ->
  exists batches groups,
    num_to_groups 4 batch_size = Ok batches /\
    Zsum batches = 4%Z /\
    Forall (fun n => 0 < n <= batch_size)%Z batches /\
    sample_groups tape T model image_size batch_size channels pos
    = Ok (groups,
          (pos + 4 * channels * image_size * image_size * Nat.max T 1)%nat) /\
    Forall2 (fun n imgs =>
               List.length imgs = T /\
               Forall (fun a => dims (np_tensor a)
                                = Shape4 (Z.to_nat n) channels image_size
                                    image_size) imgs)
            batches groups.
Proof.
  intros Hb Hp Hm.
  destruct (num_to_groups_groups 4 batch_size ltac:(lia) Hb)
    as (batches & Hn & Hsum & Hall & _).
  assert (Hpos : Forall (fun n => 0 < n)%Z batches).
  { eapply Forall_impl; [|exact Hall]. simpl. intros; lia. }
  destruct (M_map_samples tape T model image_size channels batches Hp Hm Hpos pos)
    as (groups & Hg & Hf).
  exists batches, groups. split; [exact Hn|]. split; [exact Hsum|].
  split; [exact Hall|]. split; [|exact Hf].
  unfold sample_groups, bind at 1, lift. rewrite Hn, Hg, Hsum.
  reflexivity.
Qed.

Lemma sample_groups_total_witness :
  exists groups pos',
    sample_groups (fun _ => 0) 1000 zero_model 28 64 1 0%nat
    = Ok (groups, pos').
Proof.
  destruct (sample_groups_total (fun _ => 0) 1000 zero_model 28 64 1 0%nat)
    as (batches & groups & _ & _ & _ & H & _).
  - apply Z.ltb_lt; reflexivity.
  - exact zero_model_has_parameters.
  - exact zero_model_shape_preserving.
  - eauto.
Defined.

(* ================================================================== *)
(** * Further properties of the losses *)

Lemma sum_upto_le n f g :
  (forall i, (i < n)%nat -> f i <= g i) -> sum_upto n f <= sum_upto n g.
Proof.
  intros H. unfold sum_upto.
  assert (Hs : forall i, In i (seq 0 n) -> f i <= g i)
    by (intros i Hi; apply H; apply in_seq in Hi; lia).
  induction (seq 0 n) as [|a l IH]; simpl; [lra|].
  assert (f a <= g a) by (apply Hs; now left).
  assert (fold_right (fun i acc => f i + acc) 0 l
          <= fold_right (fun i acc => g i + acc) 0 l)
    by (apply IH; intros i Hi; apply Hs; now right).
  lra.
Qed.

Lemma sum_upto_zero n : sum_upto n (fun _ => 0) = 0.
Proof. unfold sum_upto. induction (seq 0 n); simpl; lra. Qed.

Lemma sum_upto_scale c n f :
  sum_upto n (fun i => c * f i) = c * sum_upto n f.
Proof. unfold sum_upto. induction (seq 0 n); simpl; [ring|]. rewrite IHl. ring. Qed.

(** The mean of an entrywise loss grows with the entrywise loss. *)
Lemma mean_loss_le f g x y :
  (0 < numel (dims x))%nat ->
  (forall a b, f a b <= g a b) ->
  mean_loss f x y <= mean_loss g x y.
Proof.
  intros Hn Hfg. unfold mean_loss, tmean, tsum. cbn [dims val].
  apply Rmult_le_compat_r.
  - left. apply Rinv_0_lt_compat. now apply lt_0_INR.
  - repeat (apply sum_upto_le; intros). apply Hfg.
Qed.

Lemma mean_loss_const_zero x y : mean_loss (fun _ _ => 0) x y = 0.
Proof.
  unfold mean_loss, tmean, tsum. cbn [dims val].
  assert (H : forall n, sum_upto n (fun _ => 0) = 0) by apply sum_upto_zero.
  assert (E : sum_upto (sb (dims x)) (fun _ =>
              sum_upto (sc (dims x)) (fun _ =>
              sum_upto (sh (dims x)) (fun _ =>
              sum_upto (sw (dims x)) (fun _ => 0)))) = 0).
  { rewrite (sum_upto_ext _ _ (fun _ => 0)); [apply H|].
    intros. rewrite (sum_upto_ext _ _ (fun _ => 0)); [apply H|].
    intros. rewrite (sum_upto_ext _ _ (fun _ => 0)); [apply H|].
    intros. apply H. }
  rewrite E. unfold Rdiv. ring.
Qed.

Lemma mean_loss_half f x y :
  mean_loss (fun a b => 0.5 * f a b) x y = 0.5 * mean_loss f x y.
Proof.
  unfold mean_loss, tmean, tsum. cbn [dims val].
  rewrite (sum_upto_ext _ _ (fun i => 0.5 *
              sum_upto (sc (dims x)) (fun j =>
              sum_upto (sh (dims x)) (fun r =>
              sum_upto (sw (dims x)) (fun k => f (val x i j r k) (val y i j r k)))))).
  - rewrite sum_upto_scale. unfold Rdiv. ring.
  - intros i _.
    rewrite (sum_upto_ext _ _ (fun j => 0.5 *
              sum_upto (sh (dims x)) (fun r =>
              sum_upto (sw (dims x)) (fun k => f (val x i j r k) (val y i j r k))))).
    + apply sum_upto_scale.
    + intros j _.
      rewrite (sum_upto_ext _ _ (fun r => 0.5 *
              sum_upto (sw (dims x)) (fun k => f (val x i j r k) (val y i j r k)))).
      * apply sum_upto_scale.
      * intros r _. apply sum_upto_scale.
Qed.

Lemma mean_loss_ext f g x y x' y' :
  dims x = dims x' ->
  (forall i j r k, in_shape (dims x) i j r k ->
     f (val x i j r k) (val y i j r k) = g (val x' i j r k) (val y' i j r k)) ->
  mean_loss f x y = mean_loss g x' y'.
Proof.
  intros Hd Hv. unfold mean_loss, tmean, tsum. cbn [dims val].
  rewrite <- Hd. f_equal.
  apply sum_upto_ext; intros i Hi. apply sum_upto_ext; intros j Hj.
  apply sum_upto_ext; intros r Hr. apply sum_upto_ext; intros k Hk.
  apply Hv. repeat split; assumption.
Qed.

Lemma huber_bounds a b :
  0 <= huber a b /\ huber a b <= Rabs (a - b) /\
  huber a b <= 0.5 * ((a - b) * (a - b)).
Proof.
  unfold huber. cbv zeta.
  pose proof (Rabs_pos (a - b)) as Hz.
  assert (Hsq : Rabs (a - b) * Rabs (a - b) = (a - b) * (a - b)).
  { unfold Rabs. destruct (Rcase_abs (a - b)); ring. }
  destruct (Rlt_dec (Rabs (a - b)) 1) as [Hlt|Hge].
  - repeat split; nra.
  - repeat split; nra.
Qed.

Lemma huber_zero a : huber a a = 0.
Proof.
  unfold huber. cbv zeta. replace (a - a) with 0 by ring. rewrite Rabs_R0.
  destruct (Rlt_dec 0 1); lra.
Qed.

(** What [p_losses] returns on well-formed inputs, for a noise tensor that
    is passed in. *)
Lemma p_losses_given tape T model x0 t eps loss_type pos :
  List.length t = sb (dims x0) ->
  timesteps_in_range T t ->
  dims eps = dims x0 ->
  shape_preserving model ->
  exists x_noisy pred,
    q_sample tape T x0 t (Some eps) pos = Ok (x_noisy, pos) /\
    forward model x_noisy t = Ok pred /\
    dims pred = dims x0 /\
    (loss_type = "l1"%string ->
     p_losses tape T model x0 t (Some eps) loss_type pos
     = Ok (mean_loss (fun a b => Rabs (a - b)) pred eps, pos)) /\
    (loss_type = "l2"%string ->
     p_losses tape T model x0 t (Some eps) loss_type pos
     = Ok (mean_loss (fun a b => (a - b) * (a - b)) pred eps, pos)) /\
    (loss_type = "huber"%string ->
     p_losses tape T model x0 t (Some eps) loss_type pos
     = Ok (mean_loss huber pred eps, pos)).
Proof.
  intros Hlen Ht Hd Hm.
  destruct (q_sample_given tape T x0 t eps pos (or_introl Hlen) Ht Hd)
    as (x_noisy & Hq & Hdx & _).
  destruct (Hm x_noisy t) as (pred & Hf & Hdp).
  pose proof (p_losses_unfold tape T model x0 t (Some eps) loss_type pos
                eps pos x_noisy pos pred eq_refl Hq Hf) as Hp.
  assert (Hpe : dims pred = dims eps) by congruence.
  exists x_noisy, pred. split; [exact Hq|]. split; [exact Hf|].
  split; [congruence|].
  split; [|split]; intros ->; rewrite Hp; cbn;
    unfold l1_loss, mse_loss, smooth_l1_loss;
    now rewrite reduce_mean_same_shape.
Qed.

(** X13: on a non-empty batch with one timestep in [0, T) per entry, noise
    of the batch's shape and a model that keeps the shape, the three losses
    of [p_losses] are non-negative, the Huber loss is at most the L1 loss,
    and at most half the L2 loss. *)
Theorem p_losses_ordered tape T model x0 t eps pos :
  (0 < numel (dims x0))%nat ->
  List.length t = sb (dims x0) ->
  timesteps_in_range T t ->
  dims eps = dims x0 ->
  shape_preserving model ->
  exists l1 l2 h,
    p_losses tape T model x0 t (Some eps) "l1" pos = Ok (l1, pos) /\
    p_losses tape T model x0 t (Some eps) "l2" pos = Ok (l2, pos) /\
    p_losses tape T model x0 t (Some eps) "huber" pos = Ok (h, pos) /\
    0 <= h /\ h <= l1 /\ h <= 0.5 * l2 /\ 0 <= l2.
Proof.
  intros Hn Hlen Ht Hd Hm.
  destruct (p_losses_given tape T model x0 t eps "l1" pos Hlen Ht Hd Hm)
    as (xn & pred & Hq & Hf & Hdp & H1 & _ & _).
  destruct (p_losses_given tape T model x0 t eps "l2" pos Hlen Ht Hd Hm)
    as (xn2 & pred2 & Hq2 & Hf2 & _ & _ & H2 & _).
  destruct (p_losses_given tape T model x0 t eps "huber" pos Hlen Ht Hd Hm)
    as (xn3 & pred3 & Hq3 & Hf3 & _ & _ & _ & H3).
  assert (xn2 = xn) by congruence. subst xn2.
  assert (xn3 = xn) by congruence. subst xn3.
  assert (pred2 = pred) by congruence. subst pred2.
  assert (pred3 = pred) by congruence. subst pred3.
  assert (Hnp : (0 < numel (dims pred))%nat) by now rewrite Hdp.
  do 3 eexists. split; [apply H1; reflexivity|].
  split; [apply H2; reflexivity|]. split; [apply H3; reflexivity|].
  split; [|split; [|split]].
  - rewrite <- (mean_loss_const_zero pred eps).
    apply mean_loss_le; [exact Hnp|]. intros a b. apply huber_bounds.
  - apply mean_loss_le; [exact Hnp|]. intros a b. apply huber_bounds.
  - rewrite <- mean_loss_half.
    apply mean_loss_le; [exact Hnp|]. intros a b. apply huber_bounds.
  - rewrite <- (mean_loss_const_zero pred eps).
    apply mean_loss_le; [exact Hnp|]. intros a b. cbv beta.
    pose proof (Rle_0_sqr (a - b)) as Hs. unfold Rsqr in Hs. exact Hs.
Qed.

Lemma p_losses_ordered_witness :
  exists l1 l2 h,
    p_losses (fun _ => 0) 1000 zero_model single_image [5]%Z
      (Some (zeros_like single_image)) "l1" 0%nat = Ok (l1, 0%nat) /\
    p_losses (fun _ => 0) 1000 zero_model single_image [5]%Z
      (Some (zeros_like single_image)) "l2" 0%nat = Ok (l2, 0%nat) /\
    p_losses (fun _ => 0) 1000 zero_model single_image [5]%Z
      (Some (zeros_like single_image)) "huber" 0%nat = Ok (h, 0%nat) /\
    0 <= h /\ h <= l1 /\ h <= 0.5 * l2 /\ 0 <= l2.
Proof.
  apply (p_losses_ordered (fun _ => 0) 1000 zero_model single_image [5]%Z
           (zeros_like single_image) 0%nat).
  - apply Nat.ltb_lt; reflexivity.
  - reflexivity.
  - repeat constructor; apply Z.leb_le || apply Z.ltb_lt; reflexivity.
  - reflexivity.
  - exact zero_model_shape_preserving.
Defined.

(** X14: when the model predicts exactly the injected noise, each of the
    three losses of [p_losses] is zero. *)
Theorem p_losses_perfect_prediction tape T model x0 t eps loss_type pos :
  (0 < numel (dims x0))%nat ->
  List.length t = sb (dims x0) ->
  timesteps_in_range T t ->
  dims eps = dims x0 ->
  (forall x t, forward model x t = Ok eps) ->
  known_loss_type loss_type ->
  p_losses tape T model x0 t (Some eps) loss_type pos = Ok (0, pos).
Proof.
  intros Hn Hlen Ht Hd Hm Hk.
  destruct (q_sample_given tape T x0 t eps pos (or_introl Hlen) Ht Hd)
    as (x_noisy & Hq & _ & _).
  pose proof (p_losses_unfold tape T model x0 t (Some eps) loss_type pos
                eps pos x_noisy pos eps eq_refl Hq (Hm x_noisy t)) as Hp.
  rewrite Hp.
  assert (Hz : forall f, (forall a, f a a = 0) -> mean_loss f eps eps = 0).
  { intros f Hf. rewrite <- (mean_loss_const_zero eps eps).
    apply mean_loss_ext; [reflexivity|]. intros. apply Hf. }
  destruct Hk as [-> | [-> | ->]]; cbn;
    unfold l1_loss, mse_loss, smooth_l1_loss;
    rewrite reduce_mean_same_shape by reflexivity;
    fold (mean_loss (fun a b => Rabs (a - b)) eps eps);
    fold (mean_loss (fun a b => (a - b) * (a - b)) eps eps);
    fold (mean_loss huber eps eps);
    rewrite Hz; try reflexivity.
  - intros a. replace (a - a) with 0 by ring. apply Rabs_R0.
  - intros a. ring.
  - apply huber_zero.
Qed.

Lemma p_losses_perfect_prediction_witness :
  p_losses (fun _ => 0) 1000 (oracle_model (zeros_like single_image))
    single_image [5]%Z (Some (zeros_like single_image)) "huber" 0%nat
  = Ok (0, 0%nat).
Proof.
  apply (p_losses_perfect_prediction (fun _ => 0) 1000
           (oracle_model (zeros_like single_image)) single_image [5]%Z
           (zeros_like single_image) "huber" 0%nat).
  - apply Nat.ltb_lt; reflexivity.
  - reflexivity.
  - repeat constructor; apply Z.leb_le || apply Z.ltb_lt; reflexivity.
  - reflexivity.
  - intros x t. reflexivity.
  - right. right. reflexivity.
Defined.

(* ================================================================== *)
(** * Further properties of the U-Net *)

(** ** Which arguments the U-Net's constructor accepts *)

Lemma GroupNorm_init_accepted g c :
  accepted (GroupNorm_init g c) <-> g <> 0%nat /\ (c mod g = 0)%nat.
Proof.
  unfold accepted, GroupNorm_init.
  destruct (Nat.eqb_spec g 0) as [->|Hg].
  - split; [intros (n & [=]) | intros (H & _); now destruct H].
  - destruct (Nat.eqb_spec (c mod g) 0) as [Hc|Hc]; cbn [negb].
    + split; [auto | eauto].
    + split; [intros (n & [=]) | intros (_ & H); now destruct Hc].
Qed.

Lemma Block_init_accepted dim dim_out g :
  accepted (Block_init dim dim_out g) <-> g <> 0%nat /\ (dim_out mod g = 0)%nat.
Proof.
  rewrite <- GroupNorm_init_accepted. unfold accepted, Block_init. split.
  - intros (m & H). apply res_bind_Ok in H. destruct H as (n & Hn & _). eauto.
  - intros (n & ->). cbn. eauto.
Qed.

Lemma ResnetBlock_init_accepted dim dim_out td g :
  accepted (ResnetBlock_init dim dim_out td g)
  <-> g <> 0%nat /\ (dim_out mod g = 0)%nat.
Proof.
  unfold ResnetBlock_init. split.
  - intros (m & H). apply res_bind_Ok in H. destruct H as (b1 & Hb & _).
    apply (proj1 (Block_init_accepted dim dim_out g)). exists b1. exact Hb.
  - intros Hg.
    destruct (proj2 (Block_init_accepted dim dim_out g) Hg) as (b1 & ->).
    destruct (proj2 (Block_init_accepted dim_out dim_out g) Hg) as (b2 & ->).
    cbn. eexists. reflexivity.
Qed.

Lemma attention_layer_accepted dim : accepted (attention_layer dim).
Proof.
  unfold accepted, attention_layer, PreNorm_init, GroupNorm_init.
  cbn [Nat.eqb]. rewrite Nat.mod_1_r. cbn. eauto.
Qed.

Lemma res_map_accepted {A B} (f : A -> res B) l :
  accepted (res_map f l) <-> Forall (fun a => accepted (f a)) l.
Proof.
  unfold accepted. induction l as [|a l IH]; cbn [res_map].
  - split; [constructor | eauto].
  - split.
    + intros (l' & H). apply res_bind_Ok in H. destruct H as (b & Hb & H).
      apply res_bind_Ok in H. destruct H as (bs & Hbs & _).
      constructor; [eauto | apply IH; eauto].
    + intros H. inversion H as [|? ? (b & Hb) Hl]; subst.
      apply IH in Hl. destruct Hl as (bs & Hbs).
      rewrite Hb, Hbs. cbn. eauto.
Qed.

Lemma In_removelast {A} (x : A) l : In x (removelast l) -> In x l.
Proof.
  induction l as [|a l IH]; [easy|]. cbn [removelast].
  destruct l as [|b l]; [easy|].
  intros [->|H]; [now left | right; auto].
Qed.

Lemma In_enumerate {A} (l : list A) i x : In (i, x) (enumerate l) -> In x l.
Proof. unfold enumerate. apply in_combine_r. Qed.

Lemma In_zip_consecutive dims d1 d2 :
  In (d1, d2) (zip_consecutive dims) -> In d1 dims /\ In d2 dims.
Proof.
  unfold zip_consecutive. intros H. split.
  - apply in_combine_l in H. now apply In_removelast.
  - apply in_combine_r in H. destruct dims; [easy | now right].
Qed.

Lemma last_In {A} (l : list A) d : l <> [] -> In (last l d) l.
Proof.
  induction l as [|a l IH]; [easy|]. intros _.
  destruct l as [|b l]; [now left|].
  right. apply IH. discriminate.
Qed.

Lemma Unet_dims_divisible a g :
  g <> 0%nat ->
  (a_dim a mod g = 0)%nat ->
  (default (a_init_dim a) (a_dim a) mod g = 0)%nat ->
  Forall (fun d => d mod g = 0)%nat (Unet_dims a).
Proof.
  intros Hg Hd Hi. unfold Unet_dims. constructor; [exact Hi|].
  apply Forall_forall. intros d Hin. apply in_map_iff in Hin.
  destruct Hin as (m & <- & _).
  apply Nat.Lcm0.mod_divide. apply Nat.divide_mul_l.
  now apply Nat.Lcm0.mod_divide.
Qed.

Lemma res_bind_accepted {A B} (r : res A) (k : A -> res B) :
  accepted r -> (forall a, r = Ok a -> accepted (k a)) ->
  accepted (res_bind r k).
Proof. intros (a & ->) Hk. cbn. now apply Hk. Qed.

Lemma accepted_Ok {A} (a : A) : accepted (Ok a).
Proof. now exists a. Qed.

Lemma accepted_of_eq {A} (r : res A) a : r = Ok a -> accepted r.
Proof. intros ->. apply accepted_Ok. Qed.

(** X15: for arguments that ask for no layer of zero channels,
    [Unet.__init__] returns exactly when [resnet_block_groups] is not zero
    and divides both [dim] and [init_dim] (which is [dim] when omitted);
    the multipliers, channels and output dimension never make it fail. *)
Theorem Unet_init_accepted a :
  positive_args a ->
  accepted (Unet_init a) <->
  a_resnet_block_groups a <> 0%nat /\
  (a_dim a mod a_resnet_block_groups a = 0)%nat /\
  (default (a_init_dim a) (a_dim a) mod a_resnet_block_groups a = 0)%nat.
Proof.
  intros _. split.
  - intros (u & H). unfold Unet_init in H.
    apply res_bind_Ok in H. destruct H as (dn & Edn & H).
    apply res_bind_Ok in H. destruct H as (mb1 & Emb1 & H).
    apply res_bind_Ok in H. destruct H as (mattn & _ & H).
    apply res_bind_Ok in H. destruct H as (mb2 & _ & H).
    apply res_bind_Ok in H. destruct H as (up & _ & H).
    apply res_bind_Ok in H. destruct H as (frb & Efrb & _).
    apply accepted_of_eq, ResnetBlock_init_accepted in Efrb.
    destruct Efrb as (Hg & Hd).
    split; [exact Hg|]. split; [exact Hd|].
    destruct (a_dim_mults a) as [|m ms].
    + cbn in Emb1.
      apply accepted_of_eq, ResnetBlock_init_accepted in Emb1. tauto.
    + apply accepted_of_eq, res_map_accepted in Edn.
      unfold enumerate, zip_consecutive in Edn. cbn in Edn.
      inversion Edn as [|p l (s & Hs) _ Hp].
      apply res_bind_Ok in Hs. destruct Hs as (b1 & Eb1 & _).
      apply accepted_of_eq, ResnetBlock_init_accepted in Eb1. tauto.
  - intros (Hg & Hd & Hi).
    pose proof (Unet_dims_divisible a _ Hg Hd Hi) as Hall.
    rewrite Forall_forall in Hall.
    assert (Hblk : forall d_in d_out, In d_out (Unet_dims a) ->
              accepted (ResnetBlock_init d_in d_out (Some (a_dim a * 4)%nat)
                          (a_resnet_block_groups a))).
    { intros d_in d_out Hin. apply (proj2 (ResnetBlock_init_accepted _ _ _ _)).
      split; [exact Hg | now apply Hall]. }
    assert (Hlast : In (last (Unet_dims a) (default (a_init_dim a) (a_dim a)))
                      (Unet_dims a)) by (apply last_In; discriminate).
    unfold Unet_init. cbv zeta. fold (Unet_dims a).
    apply res_bind_accepted; [|intros dn _].
    { apply (proj2 (res_map_accepted _ _)), Forall_forall.
      intros [ind [dim_in dim_out]] Hin.
      apply In_enumerate, In_zip_consecutive in Hin. destruct Hin as (Hin & _).
      apply res_bind_accepted; [now apply Hblk | intros b1 _].
      apply res_bind_accepted; [now apply Hblk | intros b2 _].
      apply res_bind_accepted; [apply attention_layer_accepted | intros at_ _].
      apply accepted_Ok. }
    apply res_bind_accepted; [now apply Hblk | intros mb1 _].
    apply res_bind_accepted; [apply attention_layer_accepted | intros mattn _].
    apply res_bind_accepted; [now apply Hblk | intros mb2 _].
    apply res_bind_accepted; [|intros up _].
    { apply (proj2 (res_map_accepted _ _)), Forall_forall.
      intros [ind [dim_in dim_out]] Hin.
      apply In_enumerate, in_rev, In_zip_consecutive in Hin.
      destruct Hin as (_ & Hin).
      apply res_bind_accepted; [now apply Hblk | intros b1 _].
      apply res_bind_accepted; [now apply Hblk | intros b2 _].
      apply res_bind_accepted; [apply attention_layer_accepted | intros at_ _].
      apply accepted_Ok. }
    apply res_bind_accepted; [|intros frb _; apply accepted_Ok].
    apply (proj2 (ResnetBlock_init_accepted _ _ _ _)). auto.
Qed.

Lemma Unet_init_accepted_witness :
  positive_args notebook_args /\ accepted (Unet_init notebook_args).
Proof.
  assert (Hp : positive_args notebook_args).
  { unfold positive_args, notebook_args. cbn.
    repeat split; try lia. repeat constructor. }
  split; [exact Hp|].
  apply (proj2 (Unet_init_accepted notebook_args Hp)).
  cbn. repeat split; discriminate || reflexivity.
Defined.

(** ** Which inputs the U-Net accepts *)

Lemma Unet_init_built a u : Unet_init a = Ok u -> Unet_built a u.
Proof.
  unfold Unet_init. intros H.
  apply res_bind_Ok in H. destruct H as (dn & Edn & H).
  apply res_bind_Ok in H. destruct H as (mb1 & Emb1 & H).
  apply res_bind_Ok in H. destruct H as (mattn & Emattn & H).
  apply res_bind_Ok in H. destruct H as (mb2 & Emb2 & H).
  apply res_bind_Ok in H. destruct H as (up & Eup & H).
  apply res_bind_Ok in H. destruct H as (frb & Efrb & H).
  inversion H; subst u; clear H. unfold Unet_built. cbn.
  repeat split; try reflexivity; assumption.
Qed.


Lemma Conv2d_forward_same m b c H W :
  kernel_size m = (2 * padding m + 1)%nat ->
  (1 <= out_channels m)%nat ->
  c = in_channels m -> (1 <= H)%nat -> (1 <= W)%nat ->
  Conv2d_forward m (Shape4 b c H W) = Ok (Shape4 b (out_channels m) H W).
Proof.
  intros Hk Ho -> HH HW. unfold Conv2d_forward. cbn [sb sc sh sw].
  destruct (Nat.eqb_spec (out_channels m) 0) as [E|_]; [lia|].
  rewrite Nat.eqb_refl. cbn [negb].
  destruct (Nat.ltb_spec (H + 2 * padding m) (kernel_size m)); [lia|].
  destruct (Nat.ltb_spec (W + 2 * padding m) (kernel_size m)); [lia|].
  do 2 f_equal; lia.
Qed.









Lemma Downsample_returns dim dim_out b H W :
  (1 <= dim_out)%nat ->
  (H mod 2 = 0)%nat -> (W mod 2 = 0)%nat -> (2 <= H)%nat -> (2 <= W)%nat ->
  Resample_forward (Downsample dim (Some dim_out)) (Shape4 b dim H W)
  = Ok (Shape4 b dim_out (H / 2) (W / 2)).
Proof.
  intros Ho HH HW H2 W2. unfold Downsample, Resample_forward,
    Rearrange_space_to_depth. cbn [sb sc sh sw default].
  rewrite HH, HW. cbn [Nat.eqb andb res_bind].
  rewrite Conv2d_forward_same; try reflexivity.
  - exact Ho.
  - cbn [in_channels]. lia.
  - apply Nat.div_le_lower_bound; lia.
  - apply Nat.div_le_lower_bound; lia.
Qed.

Lemma Upsample_returns dim dim_out b H W :
  (1 <= dim)%nat -> (1 <= dim_out)%nat -> (1 <= H)%nat -> (1 <= W)%nat ->
  Resample_forward (Upsample dim (Some dim_out)) (Shape4 b dim H W)
  = Ok (Shape4 b dim_out (2 * H) (2 * W)).
Proof.
  intros Hd Ho HH HW. unfold Upsample, Resample_forward, nn_Upsample.
  cbn [sb sc sh sw default].
  destruct (Nat.eqb_spec (dim * H * W) 0) as [E|_]; [nia|].
  cbn [res_bind].
  rewrite Conv2d_forward_same; try reflexivity; try lia. exact Ho.
Qed.


Lemma zip_consecutive_cons d d' ds :
  zip_consecutive (d :: d' :: ds) = (d, d') :: zip_consecutive (d' :: ds).
Proof. reflexivity. Qed.

Lemma zip_consecutive_length d ds :
  List.length (zip_consecutive (d :: ds)) = List.length ds.
Proof.
  revert d. induction ds as [|d' ds IH]; intros d; [reflexivity|].
  rewrite zip_consecutive_cons. cbn [List.length]. now rewrite IH.
Qed.


Lemma res_map_snoc {A B} (f : A -> res B) l a r :
  res_map f (l ++ [a]) = Ok r ->
  exists r1 b, res_map f l = Ok r1 /\ f a = Ok b /\ r = r1 ++ [b].
Proof.
  revert r. induction l as [|x l IH]; intros r H; cbn [app res_map] in H.
  - apply res_bind_Ok in H. destruct H as (b & Hb & H).
    cbn in H. inversion H; subst. exists [], b. auto.
  - apply res_bind_Ok in H. destruct H as (y & Hy & H).
    apply res_bind_Ok in H. destruct H as (ys & Hys & H).
    inversion H; subst; clear H.
    destruct (IH _ Hys) as (r1 & b & Hr1 & Hb & ->).
    exists (y :: r1), b. cbn [res_map]. rewrite Hy, Hr1. auto.
Qed.

Lemma combine_seq_snoc {A} (l : list A) (p : A) s :
  combine (seq s (S (List.length l))) (l ++ [p])
  = combine (seq s (List.length l)) l ++ [((s + List.length l)%nat, p)].
Proof.
  revert s. induction l as [|x l IH]; intros s.
  - cbn. now rewrite Nat.add_0_r.
  - cbn [List.length app]. 
    change (seq s (S (S (List.length l))))
      with (s :: seq (S s) (S (List.length l))).
    change (seq s (S (List.length l))) with (s :: seq (S s) (List.length l)).
    cbn [combine app]. rewrite IH, Nat.add_succ_r. reflexivity.
Qed.

Lemma up_path_st_app l1 l2 t x h :
  up_path_st (l1 ++ l2) t x h
  = let? '(x, h) := up_path_st l1 t x h in up_path_st l2 t x h.
Proof.
  revert x h. induction l1 as [|s l1 IH]; intros x h; [reflexivity|].
  cbn [app up_path_st].
  destruct (pop h) as [[skip h1]|e]; [|reflexivity]. cbn [res_bind].
  destruct (cat1 x skip) as [x1|e]; [|reflexivity]. cbn [res_bind].
  destruct (ResnetBlock_forward (st_block1 s) x1 (Some t)) as [x2|e];
    [|reflexivity]. cbn [res_bind].
  destruct (pop h1) as [[skip2 h2]|e]; [|reflexivity]. cbn [res_bind].
  destruct (cat1 x2 skip2) as [x3|e]; [|reflexivity]. cbn [res_bind].
  destruct (ResnetBlock_forward (st_block2 s) x3 (Some t)) as [x4|e];
    [|reflexivity]. cbn [res_bind].
  destruct (Residual_forward (st_attn s) x4) as [x5|e]; [|reflexivity].
  cbn [res_bind].
  destruct (Resample_forward (st_resample s) x5) as [x6|e]; [|reflexivity].
  cbn [res_bind]. apply IH.
Qed.

Lemma up_path_fst l t x h :
  up_path l t x h = let? '(x, _) := up_path_st l t x h in Ok x.
Proof.
  revert x h. induction l as [|s l IH]; intros x h; [reflexivity|].
  cbn [up_path up_path_st].
  destruct (pop h) as [[skip h1]|e]; [|reflexivity]. cbn [res_bind].
  destruct (cat1 x skip) as [x1|e]; [|reflexivity]. cbn [res_bind].
  destruct (ResnetBlock_forward (st_block1 s) x1 (Some t)) as [x2|e];
    [|reflexivity]. cbn [res_bind].
  destruct (pop h1) as [[skip2 h2]|e]; [|reflexivity]. cbn [res_bind].
  destruct (cat1 x2 skip2) as [x3|e]; [|reflexivity]. cbn [res_bind].
  destruct (ResnetBlock_forward (st_block2 s) x3 (Some t)) as [x4|e];
    [|reflexivity]. cbn [res_bind].
  destruct (Residual_forward (st_attn s) x4) as [x5|e]; [|reflexivity].
  cbn [res_bind].
  destruct (Resample_forward (st_resample s) x5) as [x6|e]; [|reflexivity].
  cbn [res_bind]. apply IH.
Qed.


Section Levels.

Variables (N td g bt b : nat).
Hypothesis Hbt : absorbs_time bt b.







End Levels.






(** *** What an accepted input must satisfy *)

Lemma ResnetBlock_forward_in_channels dim dim_out td g m x t y :
  ResnetBlock_init dim dim_out (Some td) g = Ok m ->
  ResnetBlock_forward m x (Some t) = Ok y ->
  sc x = dim.
Proof.
  intros Hi H. unfold ResnetBlock_init in Hi.
  apply res_bind_Ok in Hi. destruct Hi as (b1 & Hb1 & Hi).
  apply res_bind_Ok in Hi. destruct Hi as (b2 & Hb2 & Hi).
  inversion Hi; subst m; clear Hi.
  unfold ResnetBlock_forward in H. cbn [mlp block1 block2 res_conv] in H.
  apply res_bind_Ok in H. destruct H as (ss & Ess & H).
  apply res_bind_Ok in Ess. destruct Ess as (te & Ete & Ess).
  unfold Linear_forward in Ete. cbn [in_features out_features] in Ete.
  destruct (feats t =? td)%nat; [|discriminate].
  inversion Ete; subst te; clear Ete. cbn [rows feats] in Ess.
  rewrite Nat.div_mul in Ess by discriminate.
  inversion Ess; subst ss; clear Ess.
  apply res_bind_Ok in H. destruct H as (h1 & E1 & _).
  now destruct (Block_forward_scaled _ _ _ _ _ _ _ Hb1 E1)
    as (c1 & _ & _ & _ & _ & _ & Cx).
Qed.

Lemma ResnetBlock_init_built dim dim_out td g m :
  ResnetBlock_init dim dim_out (Some td) g = Ok m -> built_block dim_out m.
Proof. intros H. exists dim, td, g. exact H. Qed.

Lemma time_mlp_Ok a u n t :
  Unet_built a u -> time_mlp u n = Ok t ->
  (a_dim a mod 2 = 0)%nat /\ (a_dim a / 2 <> 1)%nat /\
  t = Shape2 n (a_dim a * 4).
Proof.
  intros (_ & _ & Hp & Hl1 & Hl2 & _) H.
  unfold time_mlp, SinusoidalPositionEmbeddings_forward, Linear_forward in H.
  rewrite Hp, Hl1, Hl2 in H. cbn [spe_dim in_features out_features] in H.
  destruct (Nat.eqb_spec (a_dim a / 2) 1) as [E|Hne]; [discriminate|].
  cbn [res_bind feats rows] in H.
  destruct (Nat.eqb_spec (a_dim a / 2 + a_dim a / 2) (a_dim a)) as [Hd|];
    [|discriminate].
  cbn [res_bind feats rows] in H. rewrite Nat.eqb_refl in H.
  split; [|split; [exact Hne | now inversion H]].
  rewrite <- Hd. replace (a_dim a / 2 + a_dim a / 2)%nat
    with (a_dim a / 2 * 2)%nat by lia.
  apply Nat.Div0.mod_mul.
Qed.

Lemma down_stage_built N td g p s :
  down_stage N td g p = Ok s ->
  built_block (fst (snd p)) (st_block1 s) /\
  built_block (fst (snd p)) (st_block2 s) /\
  built_attention (st_attn s) /\
  st_resample s = (if negb (N - 1 <=? fst p)%nat
                   then Downsample (fst (snd p)) (Some (snd (snd p)))
                   else conv3 (fst (snd p)) (snd (snd p))).
Proof.
  destruct p as [k [d d']]. unfold down_stage. intros Hs.
  apply res_bind_Ok in Hs. destruct Hs as (b1 & Hb1 & Hs).
  apply res_bind_Ok in Hs. destruct Hs as (b2 & Hb2 & Hs).
  apply res_bind_Ok in Hs. destruct Hs as (at_ & Hat & Hs).
  inversion Hs; subst s; clear Hs. cbn.
  repeat split; eauto using ResnetBlock_init_built.
  now exists d.
Qed.

Lemma Downsample_Ok dim dim_out x y :
  Resample_forward (Downsample dim dim_out) x = Ok y ->
  (sh x mod 2 = 0 /\ sw x mod 2 = 0 /\ sh y = sh x / 2 /\ sw y = sw x / 2)%nat.
Proof.
  unfold Downsample, Resample_forward, Rearrange_space_to_depth. intros H.
  destruct (Nat.eqb_spec (sh x mod 2) 0) as [Hh|]; [|discriminate].
  destruct (Nat.eqb_spec (sw x mod 2) 0) as [Hw|]; [|discriminate].
  cbn [andb res_bind] in H.
  apply Conv2d_same_size in H; [|reflexivity].
  destruct H as (-> & _). cbn [sh sw]. auto.
Qed.

Lemma pow2_divides_double n s :
  (s mod 2 = 0)%nat -> ((s / 2) mod 2 ^ (n - 1) = 0)%nat -> n <> 0%nat ->
  (s mod 2 ^ n = 0)%nat.
Proof.
  intros Hev Hd Hn. destruct n as [|m]; [contradiction|].
  replace (S m - 1)%nat with m in Hd by lia.
  apply Nat.Div0.div_exact in Hev. apply Nat.Div0.div_exact in Hd.
  rewrite Nat.pow_succ_r'. rewrite Hev, Hd.
  rewrite Nat.mul_assoc, Nat.mul_comm. apply Nat.Div0.mod_mul.
Qed.

(** The first loop returns only for a height and a width that it can halve
    after every stage but the last. *)
Lemma down_path_Ok_divisible N td g t : forall ds d k dst x h r,
  (k + List.length ds = N)%nat ->
  res_map (down_stage N td g)
    (combine (seq k (List.length ds)) (zip_consecutive (d :: ds))) = Ok dst ->
  down_path dst t x h = Ok r ->
  (sh x mod 2 ^ (List.length ds - 1) = 0 /\
   sw x mod 2 ^ (List.length ds - 1) = 0)%nat.
Proof.
  induction ds as [|d' ds IH]; intros d k dst x h r Hk Hdn H.
  - cbn [List.length Nat.sub Nat.pow]. now rewrite !Nat.mod_1_r.
  - rewrite zip_consecutive_cons in Hdn. cbn [List.length] in *.
    replace (S (List.length ds) - 1)%nat with (List.length ds) by lia.
    cbn [seq combine res_map] in Hdn.
    apply res_bind_Ok in Hdn. destruct Hdn as (s & Hs & Hdn).
    apply res_bind_Ok in Hdn. destruct Hdn as (dst' & Hdst & Hdn).
    inversion Hdn; subst dst; clear Hdn.
    apply down_stage_built in Hs. cbn [fst snd] in Hs.
    destruct Hs as (Hb1 & Hb2 & Hat & Hre).
    cbn [down_path] in H.
    apply res_bind_Ok in H. destruct H as (x1 & E1 & H).
    apply res_bind_Ok in H. destruct H as (x2 & E2 & H).
    apply res_bind_Ok in H. destruct H as (x3 & E3 & H).
    apply res_bind_Ok in H. destruct H as (x4 & E4 & H).
    apply (ResnetBlock_forward_built _ _ _ _ _ Hb1) in E1.
    apply (ResnetBlock_forward_built _ _ _ _ _ Hb2) in E2.
    apply (Residual_forward_built _ _ _ Hat) in E3. subst x3.
    destruct E1 as (Hh1 & Hw1 & _), E2 as (Hh2 & Hw2 & _).
    destruct (Nat.eqb_spec (List.length ds) 0) as [Hz|Hnz].
    + rewrite Hz. cbn [Nat.pow]. now rewrite !Nat.mod_1_r.
    + assert (Hl : (N - 1 <=? k)%nat = false) by (apply Nat.leb_gt; lia).
      rewrite Hl in Hre. cbn [negb] in Hre. rewrite Hre in E4.
      apply Downsample_Ok in E4. destruct E4 as (Hev & Wev & Hh4 & Hw4).
      destruct (IH d' (S k) dst' x4 _ r ltac:(lia) Hdst H) as (IHh & IHw).
      rewrite Hh4, Hh2, Hh1 in IHh. rewrite Hw4, Hw2, Hw1 in IHw.
      rewrite Hh2, Hh1 in Hev. rewrite Hw2, Hw1 in Wev.
      split; now apply pow2_divides_double.
Qed.

Lemma Resample_conv_out_channels m x y :
  Resample_forward m x = Ok y ->
  sc y = out_channels match m with
                      | DownsampleSeq c | UpsampleSeq c | PlainConv c => c
                      end.
Proof.
  destruct m as [c|c|c]; cbn [Resample_forward]; intros H.
  - apply res_bind_Ok in H. destruct H as (x1 & _ & H).
    apply Conv2d_forward_Ok in H. now destruct H as (_ & -> & _).
  - apply res_bind_Ok in H. destruct H as (x1 & _ & H).
    apply Conv2d_forward_Ok in H. now destruct H as (_ & -> & _).
  - apply Conv2d_forward_Ok in H. now destruct H as (_ & -> & _).
Qed.

(** The second loop, when it has a stage, ends with the channels of the
    first level. *)
Lemma up_path_Ok_channels N td g t d d' ds ust x h y :
  res_map (up_stage N td g)
    (combine (seq 0 (S (List.length ds)))
       (rev (zip_consecutive (d :: d' :: ds)))) = Ok ust ->
  up_path ust t x h = Ok y ->
  sc y = d.
Proof.
  intros Hup H. rewrite zip_consecutive_cons in Hup. cbn [rev] in Hup.
  assert (Hlen : List.length (rev (zip_consecutive (d' :: ds)))
                 = List.length ds)
    by now rewrite length_rev, zip_consecutive_length.
  rewrite <- Hlen in Hup at 1. rewrite combine_seq_snoc in Hup.
  apply res_map_snoc in Hup. destruct Hup as (ust' & su & _ & Hsu & ->).
  rewrite up_path_fst, up_path_st_app in H.
  apply res_bind_Ok in H. destruct H as ([y' h'] & H & Hy).
  inversion Hy; subst y'; clear Hy.
  apply res_bind_Ok in H. destruct H as ([x0 h0] & _ & H).
  cbn [up_path_st] in H.
  apply res_bind_Ok in H. destruct H as ([k1 h1] & _ & H).
  apply res_bind_Ok in H. destruct H as (x1 & _ & H).
  apply res_bind_Ok in H. destruct H as (x2 & _ & H).
  apply res_bind_Ok in H. destruct H as ([k2 h2] & _ & H).
  apply res_bind_Ok in H. destruct H as (x3 & _ & H).
  apply res_bind_Ok in H. destruct H as (x4 & _ & H).
  apply res_bind_Ok in H. destruct H as (x5 & _ & H).
  apply res_bind_Ok in H. destruct H as (x6 & E6 & H).
  inversion H; subst; clear H.
  apply Resample_conv_out_channels in E6. rewrite E6.
  unfold up_stage in Hsu.
  apply res_bind_Ok in Hsu. destruct Hsu as (b1 & _ & Hsu).
  apply res_bind_Ok in Hsu. destruct Hsu as (b2 & _ & Hsu).
  apply res_bind_Ok in Hsu. destruct Hsu as (at_ & _ & Hsu).
  inversion Hsu; subst su; clear Hsu. cbn [st_resample].
  now destruct (negb _).
Qed.

(** X17: whatever image [Unet.forward] returns, the call met every
    condition under which it is known to return: [init_dim] is [dim],
    [dim] is even and not 2 or 3, the image and the self-conditioning
    image have the channels the U-Net was built for, there is one timestep
    per batch entry or a single one, and the height and the width are at
    least 1 and multiples of 2 to the number of halvings.  A call that
    misses one of them raises. *)
Theorem Unet_forward_requirements a u x time x_self_cond y :
  Unet_init a = Ok u ->
  Unet_forward u x time x_self_cond = Ok y ->
  default (a_init_dim a) (a_dim a) = a_dim a /\
  (a_dim a mod 2 = 0)%nat /\ (a_dim a / 2 <> 1)%nat /\
  input_fits a x x_self_cond /\
  absorbs_time time (sb x) /\
  (1 <= sh x)%nat /\ (1 <= sw x)%nat /\
  (sh x mod 2 ^ halvings a = 0)%nat /\ (sw x mod 2 ^ halvings a = 0)%nat.
Proof.
  intros Hi H.
  destruct (Unet_init_Ok a u Hi) as (_ & _ & _ & Hups & _).
  pose proof (Unet_init_built a u Hi) as Hb.
  pose proof (fun t => time_mlp_Ok a u time t Hb) as Ht.
  destruct Hb as (Hsc & Hic & _ & _ & _ & Hdn & _ & _ & Hm2 & Hup & Hfr & _).
  cbv zeta in *. unfold Unet_dims in *.
  unfold enumerate in Hdn, Hup. rewrite length_rev in Hup.
  rewrite !zip_consecutive_length, !length_map in Hdn.
  rewrite !zip_consecutive_length, !length_map in Hup.
  set (d0 := default (a_init_dim a) (a_dim a)) in *.
  set (ds := map (fun m => (a_dim a * m)%nat) (a_dim_mults a)) in *.
  assert (Hl : List.length ds = List.length (a_dim_mults a))
    by apply length_map.
  unfold halvings. rewrite <- Hl in *.
  unfold Unet_forward in H. rewrite Hsc, Hic in H.
  apply res_bind_Ok in H. destruct H as (x0 & E0 & H).
  apply res_bind_Ok in H. destruct H as (r & Er & H).
  apply res_bind_Ok in H. destruct H as (t & Et & H).
  apply res_bind_Ok in H. destruct H as ([xd h] & Edown & H).
  apply res_bind_Ok in H. destruct H as (x1 & _ & H).
  apply res_bind_Ok in H. destruct H as (x2 & _ & H).
  apply res_bind_Ok in H. destruct H as (x3 & E3 & H).
  apply res_bind_Ok in H. destruct H as (xs & Eup & H).
  apply res_bind_Ok in H. destruct H as (xc & Ecat & H).
  apply res_bind_Ok in H. destruct H as (xf & Ef & _).
  destruct (Ht t Et) as (Hev & Hne & ->). clear Ht.
  apply Conv2d_forward_Ok in Er. cbn [in_channels out_channels kernel_size
    padding] in Er. destruct Er as (Hc0 & -> & Hh0 & Hw0).
  (* the image handed to the first convolution *)
  assert (Hx0 : sb x0 = sb x /\ sh x0 = sh x /\ sw x0 = sw x /\
                input_fits a x x_self_cond).
  { unfold input_fits. destruct (a_self_condition a).
    - apply cat1_Ok in E0. destruct E0 as (-> & Hb & Hh & Hw).
      cbn [sb sc sh sw] in *. cbv zeta. repeat split; auto.
    - inversion E0; subst x0. repeat split; auto. lia. }
  destruct Hx0 as (B0 & H0 & W0 & Hfit).
  rewrite B0, H0, W0 in *.
  (* the height and the width can be halved *)
  destruct (down_path_Ok_divisible _ _ _ _ ds d0 0 _ _ _ _ eq_refl Hdn Edown)
    as (Hdh & Hdw).
  cbn [sh sw] in Hdh, Hdw.
  (* the batch size absorbs the time embedding *)
  pose proof E3 as E3'.
  apply (ResnetBlock_forward_built _ _ _ _ _
           (ResnetBlock_init_built _ _ _ _ _ Hm2)) in E3.
  destruct E3 as (_ & _ & C3 & Ha3 & _).
  pose proof (up_path_batch _ _ Hups _ _ _ Ha3 Eup) as Has.
  cbn [rows] in Has.
  (* the second loop ends with the channels of the first level *)
  assert (Hcs : sc xs = d0).
  { destruct ds as [|d1 ds'] eqn:Eds.
    - cbn in Hup. inversion Hup as [Hu]. rewrite <- Hu in Eup.
      cbn in Eup. inversion Eup; subst xs. exact C3.
    - cbn [List.length] in Hup.
      exact (up_path_Ok_channels _ _ _ _ _ _ _ _ _ _ _ Hup Eup). }
  apply cat1_Ok in Ecat. cbn [sb sc sh sw] in Ecat.
  destruct Ecat as (-> & Bs & _ & _).
  apply (ResnetBlock_forward_in_channels _ _ _ _ _ _ _ _ Hfr) in Ef.
  cbn [sc] in Ef. rewrite Hcs in Ef.
  rewrite <- Bs in Has.
  replace (sh x + 2 * 0 - 1 + 1)%nat with (sh x) in Hdh by lia.
  replace (sw x + 2 * 0 - 1 + 1)%nat with (sw x) in Hdw by lia.
  repeat split; try assumption; lia.
Qed.

Lemma Unet_forward_requirements_witness :
  exists u,
    Unet_init notebook_args = Ok u /\
    input_fits notebook_args (Shape4 64 1 28 28) None /\
    absorbs_time 64 64 /\
    (28 mod 2 ^ halvings notebook_args = 0)%nat.
Proof.
  destruct (Unet_init notebook_args) as [u|e] eqn:Hu;
    [|vm_compute in Hu; discriminate].
  assert (Hrun : Unet_forward u (Shape4 64 1 28 28) 64 None
                 = Ok (Shape4 64 1 28 28)).
  { assert (Hr : build_and_run notebook_args (Shape4 64 1 28 28) 64 None
                 = Ok (Shape4 64 1 28 28)) by (vm_compute; reflexivity).
    unfold build_and_run in Hr. rewrite Hu in Hr. exact Hr. }
  destruct (Unet_forward_requirements notebook_args u (Shape4 64 1 28 28) 64
              None _ Hu Hrun) as (_ & _ & _ & Hfit & Hbt & _ & _ & Hdh & _).
  exists u. split; [reflexivity|]. split; [exact Hfit|].
  split; [exact Hbt | exact Hdh].
Defined.


(* ================================================================== *)
(** * Values the layers compute *)

(** ** Position embeddings *)

Lemma Rsum_app u v : Rsum (u ++ v) = Rsum u + Rsum v.
Proof.
  unfold Rsum. induction u as [|x u IH]; cbn [app fold_right]; [lra|].
  rewrite IH. lra.
Qed.

Lemma sin_cos_squares (r : list R) :
  Rsum (map (fun v => v * v) (map sin r ++ map cos r)) = INR (List.length r).
Proof.
  rewrite map_app, Rsum_app.
  induction r as [|x r IH]; [cbn; lra|].
  cbn [map List.length]. unfold Rsum in *. cbn [fold_right].
  rewrite S_INR. pose proof (sin2_cos2 x) as Hx. unfold Rsqr in Hx. lra.
Qed.

Lemma sin_cos_bounded (r : list R) :
  Forall (fun v => -1 <= v <= 1) (map sin r ++ map cos r).
Proof.
  apply Forall_app. split; apply Forall_forall; intros v Hv;
    apply in_map_iff in Hv; destruct Hv as (x & <- & _).
  - apply SIN_bound.
  - apply COS_bound.
Qed.

(** X19: for every [dim] but 2 and 3, the position embedding has one row
    per timestep; a row has [2 * (dim // 2)] entries, which is [dim] only
    for an even [dim]; its entries lie in [-1, 1] and their squares sum
    to [dim // 2].  It is the shape the shape-level forward pass gives. *)
Theorem SinusoidalPositionEmbeddings_rows m time :
  (spe_dim m / 2 <> 1)%nat ->
  exists e,
    SinusoidalPositionEmbeddings_values m time = Ok e /\
    SinusoidalPositionEmbeddings_forward m (List.length time)
    = Ok (Shape2 (List.length e) (2 * (spe_dim m / 2))) /\
    Forall (fun row =>
              List.length row = (2 * (spe_dim m / 2))%nat /\
              Forall (fun v => -1 <= v <= 1) row /\
              Rsum (map (fun v => v * v) row) = INR (spe_dim m / 2)) e.
Proof.
  intros Hne.
  unfold SinusoidalPositionEmbeddings_values,
    SinusoidalPositionEmbeddings_forward.
  destruct (Nat.eqb_spec (spe_dim m / 2) 1) as [E|_]; [contradiction|].
  cbv zeta. eexists. split; [reflexivity|]. split.
  - rewrite !length_map. do 2 f_equal. lia.
  - apply Forall_forall. intros row Hrow.
    apply in_map_iff in Hrow. destruct Hrow as (r & <- & Hr).
    apply in_map_iff in Hr. destruct Hr as (t & <- & _).
    split; [|split].
    + rewrite length_app, !length_map, length_seq. lia.
    + apply sin_cos_bounded.
    + now rewrite sin_cos_squares, !length_map, length_seq.
Qed.

Lemma SinusoidalPositionEmbeddings_rows_witness :
  exists e,
    SinusoidalPositionEmbeddings_values {| spe_dim := 28 |} [5%Z] = Ok e /\
    SinusoidalPositionEmbeddings_forward {| spe_dim := 28 |} 1
    = Ok (Shape2 (List.length e) 28) /\
    Forall (fun row =>
              List.length row = 28%nat /\
              Forall (fun v => -1 <= v <= 1) row /\
              Rsum (map (fun v => v * v) row) = INR 14) e.
Proof.
  apply (SinusoidalPositionEmbeddings_rows {| spe_dim := 28 |} [5%Z]).
  cbn. discriminate.
Defined.

Lemma last_frequency half_dim :
  (2 <= half_dim)%nat ->
  exp (INR (half_dim - 1) * - (ln 10000 / (INR half_dim - 1))) = / 10000.
Proof.
  intros Hh. rewrite minus_INR by lia. cbn [INR].
  assert (Hpos : 0 < INR half_dim - 1).
  { apply (le_INR 2) in Hh. cbn [INR] in Hh. lra. }
  replace ((INR half_dim - 1) * - (ln 10000 / (INR half_dim - 1)))
    with (- ln 10000) by (field; lra).
  rewrite exp_Ropp, exp_ln by lra. reflexivity.
Qed.

(** X20: in the row of a timestep [t], the sines come first and the
    cosines second, at the same frequencies; the first frequency is 1 and
    the last is 1/10000, so the row starts with [sin t] and its sines end
    with [sin (t / 10000)].  The row of timestep 0 is zeros followed by
    ones. *)
Theorem SinusoidalPositionEmbeddings_frequencies m time e i t :
  (2 <= spe_dim m / 2)%nat ->
  SinusoidalPositionEmbeddings_values m time = Ok e ->
  nth_error time i = Some t ->
  exists row,
    nth_error e i = Some row /\
    nth 0 row 0 = sin (IZR t) /\
    nth (spe_dim m / 2 - 1) row 0 = sin (IZR t / 10000) /\
    nth (spe_dim m / 2) row 0 = cos (IZR t) /\
    nth (spe_dim m / 2 + (spe_dim m / 2 - 1)) row 0 = cos (IZR t / 10000) /\
    (t = 0%Z ->
     row = repeat 0 (spe_dim m / 2) ++ repeat 1 (spe_dim m / 2)).
Proof.
  intros Hh He Ht.
  unfold SinusoidalPositionEmbeddings_values in He.
  destruct (Nat.eqb_spec (spe_dim m / 2) 1) as [E|_]; [lia|].
  cbv zeta in He. inversion He as [He']; clear He He'.
  set (half := (spe_dim m / 2)%nat) in *.
  set (w := ln 10000 / (INR half - 1)).
  set (freqs := map (fun j => exp (INR j * - w)) (seq 0 half)).
  set (r := map (fun e0 => IZR t * e0) freqs).
  exists (map sin r ++ map cos r).
  assert (Hlen : List.length r = half)
    by (unfold r, freqs; now rewrite !length_map, length_seq).
  assert (Hnth : forall j, (j < half)%nat ->
            nth j r 0 = IZR t * exp (INR j * - w)).
  { intros j Hj. unfold r, freqs.
    rewrite (nth_map_in_range _ _ 0)
      by (rewrite length_map, length_seq; exact Hj).
    rewrite (nth_map_in_range _ _ 0%nat) by (rewrite length_seq; exact Hj).
    now rewrite seq_nth by exact Hj. }
  assert (Hsin : forall j, (j < half)%nat -> nth j (map sin r ++ map cos r) 0
                                            = sin (nth j r 0)).
  { intros j Hj. rewrite app_nth1 by (rewrite length_map; lia).
    apply nth_map_in_range. lia. }
  assert (Hcos : forall j, (j < half)%nat ->
            nth (half + j) (map sin r ++ map cos r) 0 = cos (nth j r 0)).
  { intros j Hj. rewrite app_nth2 by (rewrite length_map; lia).
    rewrite length_map, Hlen.
    replace (half + j - half)%nat with j by lia.
    apply nth_map_in_range. lia. }
  assert (H0 : nth 0 r 0 = IZR t).
  { rewrite Hnth by lia. cbn [INR]. rewrite Rmult_0_l, exp_0. lra. }
  assert (Hl : nth (half - 1) r 0 = IZR t / 10000).
  { rewrite Hnth by lia. unfold w. rewrite last_frequency by exact Hh.
    reflexivity. }
  split; [|split; [|split; [|split; [|split]]]].
  - rewrite nth_error_map. rewrite nth_error_map, Ht. reflexivity.
  - rewrite Hsin by lia. now rewrite H0.
  - rewrite Hsin by lia. now rewrite Hl.
  - replace half with (half + 0)%nat at 1 by lia.
    rewrite Hcos by lia. now rewrite H0.
  - rewrite Hcos by lia. now rewrite Hl.
  - intros ->. f_equal.
    + unfold r. rewrite !map_map. unfold freqs. rewrite map_map.
      rewrite <- (length_seq half 0) at 2.
      generalize (seq 0 half). intros l.
      induction l as [|j l IH]; [reflexivity|].
      cbn [map List.length repeat]. rewrite Rmult_0_l, sin_0. now f_equal.
    + unfold r. rewrite !map_map. unfold freqs. rewrite map_map.
      rewrite <- (length_seq half 0) at 2.
      generalize (seq 0 half). intros l.
      induction l as [|j l IH]; [reflexivity|].
      cbn [map List.length repeat]. rewrite Rmult_0_l, cos_0. now f_equal.
Qed.

Lemma SinusoidalPositionEmbeddings_frequencies_witness :
  exists e row,
    SinusoidalPositionEmbeddings_values {| spe_dim := 28 |} [5%Z] = Ok e /\
    nth_error e 0 = Some row /\
    nth 0 row 0 = sin 5 /\ nth 13 row 0 = sin (5 / 10000).
Proof.
  destruct (SinusoidalPositionEmbeddings_values {| spe_dim := 28 |} [5%Z])
    as [e|ex] eqn:He;
    [|unfold SinusoidalPositionEmbeddings_values in He; cbn [spe_dim] in He;
      change (28 / 2 =? 1)%nat with false in He; discriminate He].
  destruct (SinusoidalPositionEmbeddings_frequencies {| spe_dim := 28 |}
              [5%Z] e 0 5%Z) as (row & Hr & H0 & Hl & _);
    [cbn; lia | exact He | reflexivity |].
  exists e, row. auto.
Defined.

(** ** Weight standardisation *)

Lemma Rsum_map_scale {A} (f : A -> R) c l :
  Rsum (map (fun v => f v * c) l) = Rsum (map f l) * c.
Proof.
  unfold Rsum. induction l as [|x l IH]; cbn [map fold_right]; [lra|].
  rewrite IH. lra.
Qed.

Lemma Rsum_map_minus m l :
  Rsum (map (fun v => v - m) l) = Rsum l - INR (List.length l) * m.
Proof.
  unfold Rsum. induction l as [|x l IH]; [cbn; lra|].
  cbn [map fold_right List.length]. rewrite IH, S_INR. lra.
Qed.

Lemma Rsum_nonneg l : Forall (fun v => 0 <= v) l -> 0 <= Rsum l.
Proof.
  unfold Rsum. induction 1 as [|x l Hx _ IH]; cbn [fold_right]; lra.
Qed.

Lemma length_pos_INR {A} (l : list A) : l <> [] -> 0 < INR (List.length l).
Proof.
  intros Hl. destruct l as [|x l]; [contradiction|].
  apply lt_0_INR. cbn. lia.
Qed.

Lemma weight_var_nonneg w : w <> [] -> 0 <= weight_var w.
Proof.
  intros Hw. unfold weight_var, weight_mean at 1. rewrite length_map.
  apply Rmult_le_pos.
  - apply Rsum_nonneg, Forall_forall. intros v Hv.
    apply in_map_iff in Hv. destruct Hv as (x & <- & _).
    apply Rle_0_sqr.
  - left. apply Rinv_0_lt_compat. now apply length_pos_INR.
Qed.

Lemma centred_mean_zero c w :
  w <> [] -> weight_mean (map (fun v => (v - weight_mean w) * c) w) = 0.
Proof.
  intros Hw. pose proof (length_pos_INR w Hw) as Hn.
  unfold weight_mean at 1. rewrite length_map.
  rewrite (Rsum_map_scale (fun v => v - weight_mean w)), Rsum_map_minus.
  unfold weight_mean. field. lra.
Qed.

(** X21: the weights [WeightStandardizedConv2d] convolves with are, for
    every output channel, the centred weights multiplied by
    [sqrt (var + eps)]: dividing by [rsqrt] multiplies by the square root.
    Their mean is zero and their variance is [var * (var + eps)], which is
    not 1 in general. *)
Theorem normalized_weight_statistics (float32 : bool) weight i w :
  nth_error weight i = Some w ->
  w <> [] ->
  let eps := if float32 then 0.00001 else 0.001 in
  exists w',
    nth_error (normalized_weight float32 weight) i = Some w' /\
    w' = map (fun v => (v - weight_mean w) * sqrt (weight_var w + eps)) w /\
    weight_mean w' = 0 /\
    weight_var w' = weight_var w * (weight_var w + eps).
Proof.
  intros Hi Hw eps.
  pose proof (weight_var_nonneg w Hw) as Hv.
  assert (Heps : 0 < eps) by (unfold eps; destruct float32; lra).
  assert (Hs : 0 < sqrt (weight_var w + eps)) by (apply sqrt_lt_R0; lra).
  unfold normalized_weight. fold eps. rewrite nth_error_map, Hi. cbn [option_map].
  eexists. split; [reflexivity|].
  assert (Heq : map (fun v => (v - weight_mean w) / rsqrt (weight_var w + eps)) w
                = map (fun v => (v - weight_mean w) * sqrt (weight_var w + eps)) w).
  { apply map_ext. intros v. unfold rsqrt. field. lra. }
  cbv zeta. rewrite Heq. split; [reflexivity|].
  split; [now apply centred_mean_zero|].
  unfold weight_var at 1. rewrite (centred_mean_zero _ w Hw).
  rewrite map_map.
  pose proof (length_pos_INR w Hw) as Hn.
  unfold weight_var at 3. unfold weight_mean at 1 4. rewrite !length_map.
  rewrite (map_ext _ (fun v => (v - weight_mean w) * (v - weight_mean w)
                               * (weight_var w + eps))).
  - rewrite (Rsum_map_scale
               (fun v => (v - weight_mean w) * (v - weight_mean w))).
    field. lra.
  - intros v. rewrite Rminus_0_r.
    replace ((v - weight_mean w) * sqrt (weight_var w + eps)
             * ((v - weight_mean w) * sqrt (weight_var w + eps)))
      with ((v - weight_mean w) * (v - weight_mean w)
            * (sqrt (weight_var w + eps) * sqrt (weight_var w + eps))) by ring.
    rewrite sqrt_sqrt by lra. reflexivity.
Qed.

Lemma normalized_weight_statistics_witness :
  exists w',
    nth_error (normalized_weight true [[1; 3]]) 0 = Some w' /\
    weight_mean w' = 0 /\
    weight_var w' = weight_var [1; 3] * (weight_var [1; 3] + 0.00001).
Proof.
  destruct (normalized_weight_statistics true [[1; 3]] 0%nat [1; 3])
    as (w' & Hn & _ & Hm & Hv); [reflexivity | discriminate |].
  exists w'. auto.
Defined.

(** ** Attention weights *)

Lemma amax_upper s row : Forall (fun v => v <= fold_right Rmax s row) (s :: row).
Proof.
  induction row as [|x row IH]; cbn [fold_right].
  - constructor; [lra | constructor].
  - inversion IH as [|? ? Hs Hrow]; subst.
    constructor; [|constructor].
    + eapply Rle_trans; [exact Hs | apply Rmax_r].
    + apply Rmax_l.
    + eapply Forall_impl; [|exact Hrow]. intros v Hv.
      eapply Rle_trans; [exact Hv | apply Rmax_r].
Qed.

Lemma Rsum_exp_pos row : row <> [] -> 0 < Rsum (map exp row).
Proof.
  intros Hr. destruct row as [|s row]; [contradiction|].
  unfold Rsum. cbn [map fold_right].
  assert (H : 0 <= fold_right Rplus 0 (map exp row)).
  { apply Rsum_nonneg, Forall_forall. intros v Hv.
    apply in_map_iff in Hv. destruct Hv as (x & <- & _).
    left. apply exp_pos. }
  pose proof (exp_pos s). lra.
Qed.

Lemma Rsum_exp_ge row s : In s row -> exp s <= Rsum (map exp row).
Proof.
  unfold Rsum. induction row as [|x row IH]; [easy|].
  cbn [map fold_right]. intros [->|Hin].
  - assert (H : 0 <= fold_right Rplus 0 (map exp row)).
    { apply Rsum_nonneg, Forall_forall. intros v Hv.
      apply in_map_iff in Hv. destruct Hv as (y & <- & _).
      left. apply exp_pos. }
    lra.
  - pose proof (exp_pos x). specialize (IH Hin). lra.
Qed.

Lemma Rsum_map_div {A} (f : A -> R) z l :
  Rsum (map (fun v => f v / z) l) = Rsum (map f l) / z.
Proof. unfold Rdiv. apply Rsum_map_scale. Qed.

Lemma softmax_shift m row :
  row <> [] -> softmax (map (fun s => s - m) row) = softmax row.
Proof.
  intros Hr. unfold softmax. rewrite !map_map.
  assert (Hz : Rsum (map (fun s => exp (s - m)) row)
               = Rsum (map exp row) / exp m).
  { rewrite <- (Rsum_map_div exp). f_equal. apply map_ext. intros s.
    unfold Rminus. rewrite exp_plus, exp_Ropp. reflexivity. }
  rewrite Hz. apply map_ext. intros s.
  pose proof (Rsum_exp_pos row Hr). pose proof (exp_pos m).
  unfold Rminus. rewrite exp_plus, exp_Ropp. field. lra.
Qed.

(** X22: for a non-empty row of similarities, subtracting the row's maximum
    leaves no positive score, so no exponential exceeds 1, and does not
    change the result: the attention weights are the softmax of the
    similarities themselves, each in (0, 1], and they sum to 1. *)
Theorem attention_row_softmax sim :
  sim <> [] ->
  exists m attn,
    amax sim = Ok m /\
    Forall (fun s => s - m <= 0) sim /\
    attention_row sim = Ok attn /\
    attn = softmax sim /\
    Forall (fun a => 0 < a <= 1) attn /\
    Rsum attn = 1.
Proof.
  intros Hs. destruct sim as [|s row] eqn:E; [contradiction|].
  rewrite <- E in *. assert (Hne : sim <> []) by (rewrite E; discriminate).
  exists (fold_right Rmax s row), (softmax sim).
  assert (Ha : amax sim = Ok (fold_right Rmax s row)) by now rewrite E.
  pose proof (Rsum_exp_pos sim Hne) as Hz.
  split; [exact Ha|]. split.
  - rewrite E. eapply Forall_impl; [|apply amax_upper]. intros v Hv.
    cbv beta in Hv. lra.
  - unfold attention_row. rewrite Ha. cbn [res_bind].
    rewrite softmax_shift by exact Hne.
    split; [reflexivity|]. split; [reflexivity|]. split.
    + apply Forall_forall. intros a Hin. unfold softmax in Hin.
      apply in_map_iff in Hin. destruct Hin as (v & <- & Hv).
      pose proof (exp_pos v). pose proof (Rsum_exp_ge sim v Hv). split.
      * now apply Rdiv_lt_0_compat.
      * apply (Rmult_le_reg_r (Rsum (map exp sim))); [lra|].
        unfold Rdiv. rewrite Rmult_assoc, Rinv_l by lra. lra.
    + unfold softmax. rewrite (Rsum_map_div exp). field. lra.
Qed.

Lemma attention_row_softmax_witness :
  exists m attn,
    amax [0; 2] = Ok m /\
    attention_row [0; 2] = Ok attn /\
    attn = softmax [0; 2] /\ Rsum attn = 1.
Proof.
  destruct (attention_row_softmax [0; 2]) as (m & attn & Hm & _ & Ha & He & _ & Hs);
    [discriminate|].
  exists m, attn. auto.
Defined.

(** ** Pixel values *)

(** X23: rescaling pixel values back after the data transform returns the
    original value, and a value of [0, 1] is in [-1, 1] in between. *)
Theorem unscale_transform_scale t i j r k :
  0 <= val t i j r k <= 1 ->
  dims (unscale (transform_scale t)) = dims t /\
  val (unscale (transform_scale t)) i j r k = val t i j r k /\
  -1 <= val (transform_scale t) i j r k <= 1.
Proof.
  intros Hv. unfold unscale, transform_scale, tmap. cbn [dims val].
  split; [reflexivity|]. split; [field | lra].
Qed.

Lemma unscale_transform_scale_witness :
  val (unscale (transform_scale single_image)) 0 0 0 0 = 1.
Proof.
  destruct (unscale_transform_scale single_image 0 0 0 0) as (_ & H & _).
  - cbn. lra.
  - exact H.
Defined.

(** ** Downsampling and upsampling *)

(** X18: for layers with at least one channel, [Upsample] after
    [Downsample] gives back the shape of an image with an even height and
    an even width, whatever the channels in between; an image with an odd
    height or width is rejected by [Downsample]. *)
Theorem Downsample_Upsample_round_trip dim dim_out x :
  (1 <= dim)%nat -> (1 <= dim_out)%nat ->
  sc x = dim -> (1 <= sh x)%nat -> (1 <= sw x)%nat ->
  (let? y := Resample_forward (Downsample dim (Some dim_out)) x in
   Resample_forward (Upsample dim_out (Some dim)) y)
  = if ((sh x mod 2 =? 0) && (sw x mod 2 =? 0))%nat then Ok x
    else Raise RuntimeError.
Proof.
  destruct x as [b c H W]. cbn [sb sc sh sw]. intros Hd Ho -> HH HW.
  destruct (Nat.eqb_spec (H mod 2) 0) as [Eh|Eh];
    destruct (Nat.eqb_spec (W mod 2) 0) as [Ew|Ew]; cbn [andb].
  - pose proof Eh as Eh'. pose proof Ew as Ew'.
    apply Nat.Div0.div_exact in Eh', Ew'.
    rewrite Downsample_returns by (assumption || lia). cbn [res_bind].
    rewrite Upsample_returns by (assumption || lia).
    now rewrite <- Eh', <- Ew'.
  - unfold Downsample, Resample_forward, Rearrange_space_to_depth.
    cbn [sh sw]. destruct (Nat.eqb_spec (W mod 2) 0); [contradiction|].
    now rewrite Bool.andb_false_r.
  - unfold Downsample, Resample_forward, Rearrange_space_to_depth.
    cbn [sh sw]. now destruct (Nat.eqb_spec (H mod 2) 0).
  - unfold Downsample, Resample_forward, Rearrange_space_to_depth.
    cbn [sh sw]. now destruct (Nat.eqb_spec (H mod 2) 0).
Qed.

Lemma Downsample_Upsample_round_trip_witness :
  (let? y := Resample_forward (Downsample 28 (Some 56%nat)) (Shape4 64 28 14 14) in
   Resample_forward (Upsample 56 (Some 28%nat)) y)
  = Ok (Shape4 64 28 14 14).
Proof.
  apply (Downsample_Upsample_round_trip 28 56 (Shape4 64 28 14 14));
    cbn; (reflexivity || lia).
Defined.
